(** * LumixEngine renderer backend ([src/graphics/renderer.cpp])

    A shallow embedding of [RendererImpl] and of the free functions of
    [renderer.cpp], with theorems about the binding caches, the uniform
    setters, the frame entry points, the attribute-name registry and the
    projection matrix.

    Conventions of the embedding.
    - A C++ reference ([Shader&], [const Mesh&]) is the address of the object;
      a C++ pointer is [option addr], with [None] for [NULL].  Reading through
      a pointer that is [NULL] or that no live object sits at aborts the
      computation ([None] in the monad [M]).
    - The OpenGL driver is a state machine ([GLState], [gl_exec]); every call
      the renderer makes is also recorded, in order, in a trace of [Event]s.
    - Code of the engine that lives outside [renderer.cpp] and is called from
      it (materials, geometry, vertex definitions, the render device, the
      resource and file systems, the math library) is a parameter: a record
      [Extern] gives the effect and the result of each such call.
    - [float] is IEEE-754 binary32 with round-to-nearest-even, from the
      standard library's [SpecFloat]. *)

From Stdlib Require Import ZArith Bool List Lia.
From Stdlib Require Import Floats.SpecFloat.
From stdpp Require Import base option list gmap strings.

Open Scope Z_scope.

(** ** Machine integers *)

Definition wrap_i32 (z : Z) : Z := (z + 2 ^ 31) mod 2 ^ 32 - 2 ^ 31.
(** [size_t] of a 64-bit build. *)
Definition wrap_size_t (z : Z) : Z := z mod 2 ^ 64.
Definition sizeof_GLint : Z := 4.

(** ** binary32 floating point *)

Module F32.
Definition float : Type := spec_float.
Definition prec : Z := 24.
Definition emax : Z := 128.

Definition add : float -> float -> float := SFadd prec emax.
Definition sub : float -> float -> float := SFsub prec emax.
Definition mul : float -> float -> float := SFmul prec emax.
Definition div : float -> float -> float := SFdiv prec emax.
Definition neg : float -> float := SFopp.

(** Conversion of an [int] literal or value to [float]. *)
Definition of_int (z : Z) : float :=
  match z with
  | Z0 => S754_zero false
  | Zpos p => binary_round prec emax false p 0
  | Zneg p => binary_round prec emax true p 0
  end.

(** The literal [0.5f]. *)
Definition half : float := S754_finite false 8388608 (-24).

(** [(GLsizei)x]: truncation toward zero; out of the range of [int], and
    for infinities and NaN, the x86 conversion yields [INT_MIN]. *)
Definition to_int (x : float) : Z :=
  match x with
  | S754_zero _ => 0
  | S754_finite s m e =>
      let mag := if 0 <=? e then Z.pos m * 2 ^ e else Z.pos m / 2 ^ (- e) in
      let v := if s then - mag else mag in
      if (- 2 ^ 31 <=? v) && (v <? 2 ^ 31) then v else - 2 ^ 31
  | _ => - 2 ^ 31
  end.
End F32.

Abbreviation float := F32.float.

(** ** Math types ([core/vec3.h], [core/vec4.h], [core/matrix.h]) *)

Record Vec3 := mkVec3 { v3x : float; v3y : float; v3z : float }.
Record Vec4 := mkVec4 { v4x : float; v4y : float; v4z : float; v4w : float }.

Record Matrix := mkMatrix {
  m11 : float; m12 : float; m13 : float; m14 : float;
  m21 : float; m22 : float; m23 : float; m24 : float;
  m31 : float; m32 : float; m33 : float; m34 : float;
  m41 : float; m42 : float; m43 : float; m44 : float
}.

Definition set_m11 (v : float) (m : Matrix) : Matrix :=
  mkMatrix v (m12 m) (m13 m) (m14 m) (m21 m) (m22 m) (m23 m) (m24 m)
           (m31 m) (m32 m) (m33 m) (m34 m) (m41 m) (m42 m) (m43 m) (m44 m).
Definition set_m22 (v : float) (m : Matrix) : Matrix :=
  mkMatrix (m11 m) (m12 m) (m13 m) (m14 m) (m21 m) v (m23 m) (m24 m)
           (m31 m) (m32 m) (m33 m) (m34 m) (m41 m) (m42 m) (m43 m) (m44 m).
Definition set_m33 (v : float) (m : Matrix) : Matrix :=
  mkMatrix (m11 m) (m12 m) (m13 m) (m14 m) (m21 m) (m22 m) (m23 m) (m24 m)
           (m31 m) (m32 m) v (m34 m) (m41 m) (m42 m) (m43 m) (m44 m).
Definition set_m34 (v : float) (m : Matrix) : Matrix :=
  mkMatrix (m11 m) (m12 m) (m13 m) (m14 m) (m21 m) (m22 m) (m23 m) (m24 m)
           (m31 m) (m32 m) (m33 m) v (m41 m) (m42 m) (m43 m) (m44 m).
Definition set_m41 (v : float) (m : Matrix) : Matrix :=
  mkMatrix (m11 m) (m12 m) (m13 m) (m14 m) (m21 m) (m22 m) (m23 m) (m24 m)
           (m31 m) (m32 m) (m33 m) (m34 m) v (m42 m) (m43 m) (m44 m).
Definition set_m42 (v : float) (m : Matrix) : Matrix :=
  mkMatrix (m11 m) (m12 m) (m13 m) (m14 m) (m21 m) (m22 m) (m23 m) (m24 m)
           (m31 m) (m32 m) (m33 m) (m34 m) (m41 m) v (m43 m) (m44 m).
Definition set_m43 (v : float) (m : Matrix) : Matrix :=
  mkMatrix (m11 m) (m12 m) (m13 m) (m14 m) (m21 m) (m22 m) (m23 m) (m24 m)
           (m31 m) (m32 m) (m33 m) (m34 m) (m41 m) (m42 m) v (m44 m).
Definition set_m44 (v : float) (m : Matrix) : Matrix :=
  mkMatrix (m11 m) (m12 m) (m13 m) (m14 m) (m21 m) (m22 m) (m23 m) (m24 m)
           (m31 m) (m32 m) (m33 m) (m34 m) (m41 m) (m42 m) (m43 m) v.

(** The math library the renderer calls into: [tanf] of the C library and
    the engine's [Math], [Vec3] and [Matrix] helpers, none of which is
    defined in [renderer.cpp]. *)
Record MathLib := mkMathLib {
  tanf : float -> float;
  degreesToRadians : float -> float;
  IDENTITY : Matrix;
  vec3_sub : Vec3 -> Vec3 -> Vec3;
  vec3_neg : Vec3 -> Vec3;
  vec3_normalize : Vec3 -> Vec3;
  crossProduct : Vec3 -> Vec3 -> Vec3;
  dotProduct : Vec3 -> Vec3 -> float;
  getTranslation : Matrix -> Vec3;
  getYVector : Matrix -> Vec3;
  getZVector : Matrix -> Vec3;
  setXVector : Vec3 -> Matrix -> Matrix;
  setYVector : Vec3 -> Matrix -> Matrix;
  setZVector : Vec3 -> Matrix -> Matrix;
  setTranslation : Vec3 -> Matrix -> Matrix;
  transpose : Matrix -> Matrix
}.

(** ** Matrix construction helpers *)

Section MatrixHelpers.
Variable L : MathLib.

Definition getProjectionMatrix
    (fov width height near_plane far_plane : float) : Matrix :=
  let mtx := IDENTITY L in
  let f := F32.div (F32.of_int 1)
             (tanf L (F32.mul (degreesToRadians L fov) F32.half)) in
  let mtx := set_m11 (F32.div f (F32.div width height)) mtx in
  let mtx := set_m22 f mtx in
  let mtx := set_m33 (F32.div (F32.add far_plane near_plane)
                              (F32.sub near_plane far_plane)) mtx in
  let mtx := set_m44 (F32.of_int 0) mtx in
  let mtx := set_m43 (F32.div (F32.mul (F32.mul (F32.of_int 2) far_plane) near_plane)
                              (F32.sub near_plane far_plane)) mtx in
  set_m34 (F32.of_int (-1)) mtx.

Definition getOrthoMatrix
    (left right bottom top z_near z_far : float) : Matrix :=
  let mtx := IDENTITY L in
  let mtx := set_m11 (F32.div (F32.of_int 2) (F32.sub right left)) mtx in
  let mtx := set_m22 (F32.div (F32.of_int 2) (F32.sub top bottom)) mtx in
  let mtx := set_m33 (F32.div (F32.of_int (-2)) (F32.sub z_far z_near)) mtx in
  let mtx := set_m41 (F32.div (F32.neg (F32.add right left)) (F32.sub right left)) mtx in
  let mtx := set_m42 (F32.div (F32.neg (F32.add top bottom)) (F32.sub top bottom)) mtx in
  set_m43 (F32.div (F32.neg (F32.add z_far z_near)) (F32.sub z_far z_near)) mtx.

Definition getLookAtMatrix (pos center up : Vec3) : Matrix :=
  let mtx := IDENTITY L in
  let f := vec3_sub L center pos in
  let f := vec3_normalize L f in
  let r := crossProduct L f up in
  let r := vec3_normalize L r in
  let u := crossProduct L r f in
  let mtx := setXVector L r mtx in
  let mtx := setYVector L u mtx in
  let mtx := setZVector L (vec3_neg L f) mtx in
  let mtx := transpose L mtx in
  setTranslation L
    (mkVec3 (F32.neg (dotProduct L r pos)) (F32.neg (dotProduct L u pos))
            (dotProduct L f pos)) mtx.
End MatrixHelpers.

(** ** The OpenGL driver *)

Definition GL_TRIANGLES : Z := 0x0004.
Definition GL_DEPTH_TEST : Z := 0x0B71.
Definition GL_BLEND : Z := 0x0BE2.
Definition GL_UNPACK_ALIGNMENT : Z := 0x0CF5.
Definition GL_TEXTURE_2D : Z := 0x0DE1.
Definition GL_UNSIGNED_BYTE : Z := 0x1401.
Definition GL_UNSIGNED_INT : Z := 0x1405.
Definition GL_RGBA : Z := 0x1908.
Definition GL_MULTISAMPLE : Z := 0x809D.
Definition GL_SAMPLE_ALPHA_TO_COVERAGE : Z := 0x809E.
Definition GL_TEXTURE0 : Z := 0x84C0.
Definition GL_ARRAY_BUFFER : Z := 0x8892.
Definition GL_ELEMENT_ARRAY_BUFFER : Z := 0x8893.
Definition GLEW_OK : Z := 0.

(** The driver entry points [renderer.cpp] calls, with their arguments. *)
Inductive GLCall :=
| GlViewport (x y width height : Z)
| GlEnable (cap : Z)
| GlDisable (cap : Z)
| GlBindBuffer (target buffer : Z)
| GlUseProgram (program : Z)
| GlActiveTexture (texture : Z)
| GlBindTexture (target texture : Z)
| GlUniform1i (location value : Z)
| GlUniform1f (location : Z) (value : float)
| GlUniform3f (location : Z) (x y z : float)
| GlUniform4f (location : Z) (x y z w : float)
| GlUniformMatrix4fv (location count : Z) (transpose : bool) (value : list Matrix)
| GlVertexAttribDivisor (index divisor : Z)
| GlDrawElements (mode count type offset : Z)
| GlDrawElementsInstanced (mode count type offset instance_count : Z)
| GlPixelStorei (pname param : Z)
| GlReadPixels (x y width height format type : Z) (pixels : Z).

(** The value a uniform of a program holds. *)
Inductive UniformData :=
| U1i (value : Z)
| U1f (value : float)
| U3f (x y z : float)
| U4f (x y z w : float)
| UMatrix4fv (count : Z) (transpose : bool) (value : list Matrix).

(** The part of the context state the renderer's calls act on. *)
Record GLState := mkGL {
  gl_viewport : Z * Z * Z * Z;
  gl_enabled : gset Z;
  gl_array_buffer : Z;
  gl_element_array_buffer : Z;
  gl_current_program : Z;
  gl_active_texture : Z;
  gl_texture_2d : gmap Z Z;
  gl_uniforms : gmap (Z * Z) UniformData;
  gl_attrib_enabled : gset Z;
  gl_attrib_divisor : gmap Z Z;
  gl_unpack_alignment : Z
}.

(** Texture bound to [GL_TEXTURE_2D] on a unit; a unit never bound holds 0. *)
Definition bound_texture_2d (g : GLState) (unit : Z) : Z :=
  default 0 (gl_texture_2d g !! unit).

Definition gl_set_viewport v g :=
  mkGL v (gl_enabled g) (gl_array_buffer g) (gl_element_array_buffer g)
       (gl_current_program g) (gl_active_texture g) (gl_texture_2d g)
       (gl_uniforms g) (gl_attrib_enabled g) (gl_attrib_divisor g)
       (gl_unpack_alignment g).
Definition gl_set_enabled v g :=
  mkGL (gl_viewport g) v (gl_array_buffer g) (gl_element_array_buffer g)
       (gl_current_program g) (gl_active_texture g) (gl_texture_2d g)
       (gl_uniforms g) (gl_attrib_enabled g) (gl_attrib_divisor g)
       (gl_unpack_alignment g).
Definition gl_set_array_buffer v g :=
  mkGL (gl_viewport g) (gl_enabled g) v (gl_element_array_buffer g)
       (gl_current_program g) (gl_active_texture g) (gl_texture_2d g)
       (gl_uniforms g) (gl_attrib_enabled g) (gl_attrib_divisor g)
       (gl_unpack_alignment g).
Definition gl_set_element_array_buffer v g :=
  mkGL (gl_viewport g) (gl_enabled g) (gl_array_buffer g) v
       (gl_current_program g) (gl_active_texture g) (gl_texture_2d g)
       (gl_uniforms g) (gl_attrib_enabled g) (gl_attrib_divisor g)
       (gl_unpack_alignment g).
Definition gl_set_current_program v g :=
  mkGL (gl_viewport g) (gl_enabled g) (gl_array_buffer g) (gl_element_array_buffer g)
       v (gl_active_texture g) (gl_texture_2d g)
       (gl_uniforms g) (gl_attrib_enabled g) (gl_attrib_divisor g)
       (gl_unpack_alignment g).
Definition gl_set_active_texture v g :=
  mkGL (gl_viewport g) (gl_enabled g) (gl_array_buffer g) (gl_element_array_buffer g)
       (gl_current_program g) v (gl_texture_2d g)
       (gl_uniforms g) (gl_attrib_enabled g) (gl_attrib_divisor g)
       (gl_unpack_alignment g).
Definition gl_set_texture_2d v g :=
  mkGL (gl_viewport g) (gl_enabled g) (gl_array_buffer g) (gl_element_array_buffer g)
       (gl_current_program g) (gl_active_texture g) v
       (gl_uniforms g) (gl_attrib_enabled g) (gl_attrib_divisor g)
       (gl_unpack_alignment g).
Definition gl_set_uniforms v g :=
  mkGL (gl_viewport g) (gl_enabled g) (gl_array_buffer g) (gl_element_array_buffer g)
       (gl_current_program g) (gl_active_texture g) (gl_texture_2d g)
       v (gl_attrib_enabled g) (gl_attrib_divisor g)
       (gl_unpack_alignment g).
Definition gl_set_attrib_divisor v g :=
  mkGL (gl_viewport g) (gl_enabled g) (gl_array_buffer g) (gl_element_array_buffer g)
       (gl_current_program g) (gl_active_texture g) (gl_texture_2d g)
       (gl_uniforms g) (gl_attrib_enabled g) v
       (gl_unpack_alignment g).
Definition gl_set_unpack_alignment v g :=
  mkGL (gl_viewport g) (gl_enabled g) (gl_array_buffer g) (gl_element_array_buffer g)
       (gl_current_program g) (gl_active_texture g) (gl_texture_2d g)
       (gl_uniforms g) (gl_attrib_enabled g) (gl_attrib_divisor g)
       v.

(** A uniform write lands in the program that is current; with no program
    current the driver raises [GL_INVALID_OPERATION] and stores nothing. *)
Definition gl_write_uniform (location : Z) (d : UniformData) (g : GLState) : GLState :=
  if gl_current_program g =? 0 then g
  else gl_set_uniforms (<[(gl_current_program g, location) := d]> (gl_uniforms g)) g.

Definition gl_exec (c : GLCall) (g : GLState) : GLState :=
  match c with
  | GlViewport x y w h => gl_set_viewport (x, y, w, h) g
  | GlEnable cap => gl_set_enabled (gl_enabled g ∪ {[cap]}) g
  | GlDisable cap => gl_set_enabled (gl_enabled g ∖ {[cap]}) g
  | GlBindBuffer target buffer =>
      if target =? GL_ARRAY_BUFFER then gl_set_array_buffer buffer g
      else if target =? GL_ELEMENT_ARRAY_BUFFER then gl_set_element_array_buffer buffer g
      else g
  | GlUseProgram program => gl_set_current_program program g
  | GlActiveTexture texture => gl_set_active_texture (texture - GL_TEXTURE0) g
  | GlBindTexture target texture =>
      if target =? GL_TEXTURE_2D
      then gl_set_texture_2d (<[gl_active_texture g := texture]> (gl_texture_2d g)) g
      else g
  | GlUniform1i location v => gl_write_uniform location (U1i v) g
  | GlUniform1f location v => gl_write_uniform location (U1f v) g
  | GlUniform3f location x y z => gl_write_uniform location (U3f x y z) g
  | GlUniform4f location x y z w => gl_write_uniform location (U4f x y z w) g
  | GlUniformMatrix4fv location count tr v =>
      gl_write_uniform location (UMatrix4fv count tr v) g
  | GlVertexAttribDivisor index divisor =>
      gl_set_attrib_divisor (<[index := divisor]> (gl_attrib_divisor g)) g
  | GlDrawElements _ _ _ _ => g
  | GlDrawElementsInstanced _ _ _ _ _ => g
  | GlPixelStorei pname param =>
      if pname =? GL_UNPACK_ALIGNMENT then gl_set_unpack_alignment param g else g
  | GlReadPixels _ _ _ _ _ _ _ => g
  end.

(** ** Engine objects the renderer refers to *)

Definition addr : Type := Z.

(** Modelled from the spec: the [Shader] class ([graphics/shader.h]) is not
    part of [renderer.cpp].  A shader is a family of compiled programs, one
    per (combination, pass); [setCurrentCombination] selects the one the
    other accessors read.  The uniform-location cache is represented by what
    it answers: a location for a name and its hash, negative when the program
    has no such uniform. *)
Record Program := mkProgram {
  prog_id : Z;
  prog_uniform_location : string -> Z -> Z;
  prog_fixed_cached_uniform_location : Z -> Z;
  prog_attrib_ids : list Z
}.

Record Shader := mkShader {
  sh_combinations : Z -> Z -> Program;
  sh_current : Program
}.

Definition Shader_getProgramId (s : Shader) : Z := prog_id (sh_current s).
Definition Shader_getUniformLocation (s : Shader) (name : string) (name_hash : Z) : Z :=
  prog_uniform_location (sh_current s) name name_hash.
Definition Shader_getFixedCachedUniformLocation (s : Shader) (name : Z) : Z :=
  prog_fixed_cached_uniform_location (sh_current s) name.
Definition Shader_setCurrentCombination (combination pass_hash : Z) (s : Shader) : Shader :=
  mkShader (sh_combinations s) (sh_combinations s combination pass_hash).
Definition Shader_getAttributeCount (s : Shader) : Z :=
  Z.of_nat (length (prog_attrib_ids (sh_current s))).
Definition Shader_getAttribId (s : Shader) (i : nat) : Z :=
  nth i (prog_attrib_ids (sh_current s)) (-1).

(** The members of [Shader::FixedCachedUniforms] the renderer names. *)
Inductive FixedCachedUniforms := VIEW_MATRIX | PROJECTION_MATRIX | WORLD_MATRIX.

Record VertexDef := mkVertexDef { vd_attributes : list Z }.

Record Material := mkMaterial { mat_shader : option addr }.

Record Mesh := mkMesh {
  mesh_material : option addr;
  mesh_indices_offset : Z;
  mesh_index_count : Z;
  mesh_attribute_array_offset : Z;
  mesh_vertex_definition : VertexDef
}.

Record Model := mkModel {
  model_ready : bool;
  model_geometry : addr;
  model_meshes : list addr
}.

(** The objects rendering reads but does not change: meshes and materials
    by address, and the addresses of the live render devices. *)
Record Scene := mkScene {
  sc_meshes : gmap addr Mesh;
  sc_materials : gmap addr Material;
  sc_devices : gset addr
}.

(** ** Renderer state *)

(** The data members of [RendererImpl] that [renderer.cpp] reads or writes
    itself.  The engine reference, the allocator and the six resource
    managers are only handed on to other code and are left out. *)
Record RendererImpl := mkRenderer {
  m_render_device : option addr;
  m_is_editor_wireframe : bool;
  m_last_bind_geometry : option addr;
  m_last_bind_geometry_mesh : option addr;
  m_last_program_id : Z;
  m_current_pass_hash : Z;
  m_view_matrix : Matrix;
  m_projection_matrix : Matrix;
  m_debug_shader : option addr;
  m_attribute_names : list string
}.

Definition set_m_render_device v r :=
  mkRenderer v (m_is_editor_wireframe r) (m_last_bind_geometry r)
    (m_last_bind_geometry_mesh r) (m_last_program_id r) (m_current_pass_hash r)
    (m_view_matrix r) (m_projection_matrix r) (m_debug_shader r) (m_attribute_names r).
Definition set_m_is_editor_wireframe v r :=
  mkRenderer (m_render_device r) v (m_last_bind_geometry r)
    (m_last_bind_geometry_mesh r) (m_last_program_id r) (m_current_pass_hash r)
    (m_view_matrix r) (m_projection_matrix r) (m_debug_shader r) (m_attribute_names r).
Definition set_m_last_bind_geometry v r :=
  mkRenderer (m_render_device r) (m_is_editor_wireframe r) v
    (m_last_bind_geometry_mesh r) (m_last_program_id r) (m_current_pass_hash r)
    (m_view_matrix r) (m_projection_matrix r) (m_debug_shader r) (m_attribute_names r).
Definition set_m_last_bind_geometry_mesh v r :=
  mkRenderer (m_render_device r) (m_is_editor_wireframe r) (m_last_bind_geometry r)
    v (m_last_program_id r) (m_current_pass_hash r)
    (m_view_matrix r) (m_projection_matrix r) (m_debug_shader r) (m_attribute_names r).
Definition set_m_last_program_id v r :=
  mkRenderer (m_render_device r) (m_is_editor_wireframe r) (m_last_bind_geometry r)
    (m_last_bind_geometry_mesh r) v (m_current_pass_hash r)
    (m_view_matrix r) (m_projection_matrix r) (m_debug_shader r) (m_attribute_names r).
Definition set_m_current_pass_hash v r :=
  mkRenderer (m_render_device r) (m_is_editor_wireframe r) (m_last_bind_geometry r)
    (m_last_bind_geometry_mesh r) (m_last_program_id r) v
    (m_view_matrix r) (m_projection_matrix r) (m_debug_shader r) (m_attribute_names r).
Definition set_m_view_matrix v r :=
  mkRenderer (m_render_device r) (m_is_editor_wireframe r) (m_last_bind_geometry r)
    (m_last_bind_geometry_mesh r) (m_last_program_id r) (m_current_pass_hash r)
    v (m_projection_matrix r) (m_debug_shader r) (m_attribute_names r).
Definition set_m_projection_matrix v r :=
  mkRenderer (m_render_device r) (m_is_editor_wireframe r) (m_last_bind_geometry r)
    (m_last_bind_geometry_mesh r) (m_last_program_id r) (m_current_pass_hash r)
    (m_view_matrix r) v (m_debug_shader r) (m_attribute_names r).
Definition set_m_debug_shader v r :=
  mkRenderer (m_render_device r) (m_is_editor_wireframe r) (m_last_bind_geometry r)
    (m_last_bind_geometry_mesh r) (m_last_program_id r) (m_current_pass_hash r)
    (m_view_matrix r) (m_projection_matrix r) v (m_attribute_names r).
Definition set_m_attribute_names v r :=
  mkRenderer (m_render_device r) (m_is_editor_wireframe r) (m_last_bind_geometry r)
    (m_last_bind_geometry_mesh r) (m_last_program_id r) (m_current_pass_hash r)
    (m_view_matrix r) (m_projection_matrix r) (m_debug_shader r) v.

(** What one renderer instance, its graphics context and the shaders (whose
    current combination rendering changes) are at one instant. *)
Record World := mkWorld {
  renderer : RendererImpl;
  gl : GLState;
  shaders : gmap addr Shader
}.

Definition set_renderer v w := mkWorld v (gl w) (shaders w).
Definition set_gl v w := mkWorld (renderer w) v (shaders w).
Definition set_shaders v w := mkWorld (renderer w) (gl w) v.

(** ** Calls into the rest of the engine *)

Inductive ArrayChild :=
| ResourceArrayObject (name file_type : string)
| IntArrayObject (name : string) (limit : option (Z * Z)).

Inductive PropertyKind :=
| StringProperty | DecimalProperty | BoolProperty | ColorProperty
| ResourceProperty (file_type : string)
| ArrayProperty (children : list ArrayChild).

Inductive ExtCall :=
| XMaterialApply (material pipeline : addr)
| XGeometryBindBuffers (geometry : addr)
| XVertexDefBegin (vd : VertexDef) (shader : addr) (start_offset : Z)
| XVertexDefEnd (vd : VertexDef) (shader : addr)
| XBeginFrame (device : addr)
| XEndFrame (device : addr)
| XPipelineRender (device : addr)
| XCreateScene (universe : addr)
| XDestroyScene (scene : option addr)
| XGetWorldEditor
| XRegisterProperty (component : string) (kind : PropertyKind) (name : string)
| XSetRenderer
| XGlewInit
| XLoadShader (path : string)
| XUnloadShader (shader : addr)
| XAllocate (size : Z)
| XDeallocate (p : Z)
| XFsOpen (device path : string) (mode : Z)
| XFsClose (file : Z)
| XSaveTGA (file width height bytes_per_pixel pixels : Z) (path : string).

Inductive Event :=
| EvGL (c : GLCall)
| EvExt (c : ExtCall).

(** What the code outside [renderer.cpp] does when called.
    [Geometry::bindBuffers], [VertexDef::begin] and [VertexDef::end] are
    handed no renderer: they act on the driver only ([ext_driver]).  Every
    other callee may call back into the renderer and change any part of the
    world ([ext_world]); [ext_result] is the value it returns. *)
Record Extern := mkExtern {
  crc32 : string -> Z;
  fixed_cached_uniform_index : FixedCachedUniforms -> Z;
  fs_mode_open_or_create_write : Z;
  ext_driver : ExtCall -> gmap addr Shader -> GLState -> GLState;
  ext_world : ExtCall -> World -> World;
  ext_result : ExtCall -> World -> Z
}.

(** ** The monad of renderer code: state, trace, abort *)

Definition M (A : Type) : Type := World -> option (A * World * list Event).

#[global] Instance M_ret : MRet M := λ A a w, Some (a, w, []).
#[global] Instance M_bind : MBind M := λ A B f m w,
  match m w with
  | Some (a, w1, t1) =>
      match f a w1 with
      | Some (b, w2, t2) => Some (b, w2, t1 ++ t2)
      | None => None
      end
  | None => None
  end.

Definition crash {A} : M A := λ _, None.
Definition read {A} (f : RendererImpl -> A) : M A :=
  λ w, Some (f (renderer w), w, []).
Definition write (f : RendererImpl -> RendererImpl) : M unit :=
  λ w, Some (tt, set_renderer (f (renderer w)) w, []).
Definition deref {A} (o : option A) : M A :=
  match o with Some a => mret a | None => crash end.
Definition load_shader (s : addr) : M Shader :=
  λ w, match shaders w !! s with Some sh => Some (sh, w, []) | None => None end.
Definition store_shader (s : addr) (sh : Shader) : M unit :=
  λ w, Some (tt, set_shaders (<[s := sh]> (shaders w)) w, []).
Definition gl_call (c : GLCall) : M unit :=
  λ w, Some (tt, set_gl (gl_exec c (gl w)) w, [EvGL c]).
Definition call_driver (X : Extern) (c : ExtCall) : M unit :=
  λ w, Some (tt, set_gl (ext_driver X c (shaders w) (gl w)) w, [EvExt c]).
Definition call_world (X : Extern) (c : ExtCall) : M Z :=
  λ w, Some (ext_result X c w, ext_world X c w, [EvExt c]).

Definition ptr_of_Z (z : Z) : option addr := if z =? 0 then None else Some z.

(** ** Construction *)

(** The constructor writes five members; [mem] is what the storage the
    allocator returned holds, and the members the constructor does not
    mention keep that content.  [m_attribute_names] is constructed empty
    by the member initialiser list. *)
Definition RendererImpl_new (X : Extern) (mem : RendererImpl) : RendererImpl :=
  let r := set_m_attribute_names [] mem in
  let r := set_m_current_pass_hash (crc32 X "MAIN") r in
  let r := set_m_last_bind_geometry None r in
  let r := set_m_last_bind_geometry_mesh None r in
  let r := set_m_last_program_id 0xffffFFFF r in
  set_m_is_editor_wireframe false r.

(** ** The member functions of [RendererImpl] and the free functions

    Each definition follows the body of the function of the same name.
    Overloads carry the type of their value as a suffix.  The
    [PROFILE_FUNCTION()] markers, the [glewExperimental] flag and the engine
    accessors ([getEngine], [getName]) touch nothing that is modelled and
    are left out, as is [getGLSLVersion], which is [const] and only parses a
    string of the driver. *)

Section Renderer.
Variable X : Extern.
Variable L : MathLib.
Variable Σ : Scene.

(** [mesh->getVertexDefinition()] together with
    [*mesh->getMaterial()->getShader()], read through a mesh pointer. *)
Definition mesh_layout (mesh : option addr) : M (Mesh * addr) :=
  a ← deref mesh;
  m ← deref (sc_meshes Σ !! a);
  mat ← deref (mesh_material m);
  material ← deref (sc_materials Σ !! mat);
  shader ← deref (mat_shader material);
  mret (m, shader).

Definition live_device (device : addr) : M unit :=
  if decide (device ∈ sc_devices Σ) then mret tt else crash.

Definition createScene (universe : addr) : M (option addr) :=
  scene ← call_world X (XCreateScene universe);
  mret (ptr_of_Z scene).

Definition destroyScene (scene : option addr) : M unit :=
  call_world X (XDestroyScene scene);; mret tt.

Definition setViewMatrix (matrix : Matrix) : M unit :=
  write (set_m_view_matrix matrix).

Definition setProjectionMatrix (matrix : Matrix) : M unit :=
  write (set_m_projection_matrix matrix).

Definition setViewport (width height : float) : M unit :=
  gl_call (GlViewport 0 0 (F32.to_int width) (F32.to_int height)).

Definition setProjection
    (width height fov near_plane far_plane : float) (mtx : Matrix) : M unit :=
  write (set_m_projection_matrix
           (getProjectionMatrix L fov width height near_plane far_plane));;
  let pos := getTranslation L mtx in
  let center := vec3_sub L pos (getZVector L mtx) in
  let up := getYVector L mtx in
  write (set_m_view_matrix (getLookAtMatrix L pos center up)).

Definition setRenderDevice (device : addr) : M unit :=
  write (set_m_render_device (Some device)).

Definition getCurrentViewMatrix : M Matrix := read m_view_matrix.
Definition getCurrentProjectionMatrix : M Matrix := read m_projection_matrix.

(** The loop [for (int i = 0; i < 16; ++i)] of [cleanup], entered at [i]
    with [remaining] iterations to go. *)
Fixpoint cleanup_textures (remaining : nat) (i : Z) : M unit :=
  match remaining with
  | O => mret tt
  | S r =>
      gl_call (GlActiveTexture (GL_TEXTURE0 + i));;
      gl_call (GlBindTexture GL_TEXTURE_2D 0);;
      cleanup_textures r (i + 1)
  end.

Definition cleanup : M unit :=
  g ← read m_last_bind_geometry;
  (if g is Some _ then
     last ← read m_last_bind_geometry_mesh;
     '(m, shader) ← mesh_layout last;
     call_driver X (XVertexDefEnd (mesh_vertex_definition m) shader)
   else mret tt);;
  write (set_m_last_bind_geometry None);;
  write (set_m_last_bind_geometry_mesh None);;
  gl_call (GlBindBuffer GL_ARRAY_BUFFER 0);;
  gl_call (GlBindBuffer GL_ELEMENT_ARRAY_BUFFER 0);;
  gl_call (GlUseProgram 0);;
  cleanup_textures 16 0;;
  gl_call (GlActiveTexture GL_TEXTURE0).

Definition render (device : addr) : M unit :=
  gl_call (GlEnable GL_DEPTH_TEST);;
  gl_call (GlDisable GL_BLEND);;
  live_device device;;
  call_world X (XPipelineRender device);;
  cleanup.

(** [m_render_device->f()]: the member is read anew at each use. *)
Definition render_device : M addr :=
  d ← read m_render_device;
  device ← deref d;
  live_device device;;
  mret device.

Definition renderGame : M unit :=
  d ← read m_render_device;
  if d is Some _ then
    device ← render_device;
    call_world X (XBeginFrame device);;
    device ← render_device;
    render device;;
    device ← render_device;
    call_world X (XEndFrame device);;
    mret tt
  else mret tt.

Definition setUniform_int
    (shader : addr) (name : string) (name_hash : Z) (value : Z) : M unit :=
  sh ← load_shader shader;
  let loc := Shader_getUniformLocation sh name name_hash in
  if 0 <=? loc then
    last ← read m_last_program_id;
    (if negb (last =? Shader_getProgramId sh) then
       gl_call (GlUseProgram (Shader_getProgramId sh));;
       write (set_m_last_program_id (Shader_getProgramId sh))
     else mret tt);;
    gl_call (GlUniform1i loc value)
  else mret tt.

Definition setUniform_Vec3
    (shader : addr) (name : string) (name_hash : Z) (value : Vec3) : M unit :=
  sh ← load_shader shader;
  let loc := Shader_getUniformLocation sh name name_hash in
  if 0 <=? loc then
    last ← read m_last_program_id;
    (if negb (last =? Shader_getProgramId sh) then
       gl_call (GlUseProgram (Shader_getProgramId sh));;
       write (set_m_last_program_id (Shader_getProgramId sh))
     else mret tt);;
    gl_call (GlUniform3f loc (v3x value) (v3y value) (v3z value))
  else mret tt.

Definition setUniform_float
    (shader : addr) (name : string) (name_hash : Z) (value : float) : M unit :=
  sh ← load_shader shader;
  let loc := Shader_getUniformLocation sh name name_hash in
  if 0 <=? loc then
    last ← read m_last_program_id;
    (if negb (last =? Shader_getProgramId sh) then
       gl_call (GlUseProgram (Shader_getProgramId sh));;
       write (set_m_last_program_id (Shader_getProgramId sh))
     else mret tt);;
    gl_call (GlUniform1f loc value)
  else mret tt.

Definition setUniform_Matrix
    (shader : addr) (name : string) (name_hash : Z) (mtx : Matrix) : M unit :=
  sh ← load_shader shader;
  let loc := Shader_getUniformLocation sh name name_hash in
  if 0 <=? loc then
    last ← read m_last_program_id;
    (if negb (last =? Shader_getProgramId sh) then
       gl_call (GlUseProgram (Shader_getProgramId sh));;
       write (set_m_last_program_id (Shader_getProgramId sh))
     else mret tt);;
    gl_call (GlUniformMatrix4fv loc 1 false [mtx])
  else mret tt.

Definition setUniform_Matrices
    (shader : addr) (name : string) (name_hash : Z)
    (matrices : list Matrix) (count : Z) : M unit :=
  sh ← load_shader shader;
  let loc := Shader_getUniformLocation sh name name_hash in
  if 0 <=? loc then
    last ← read m_last_program_id;
    (if negb (last =? Shader_getProgramId sh) then
       gl_call (GlUseProgram (Shader_getProgramId sh));;
       write (set_m_last_program_id (Shader_getProgramId sh))
     else mret tt);;
    gl_call (GlUniformMatrix4fv loc count false matrices)
  else mret tt.

Definition getPass : M Z := read m_current_pass_hash.

Definition setPass (pass_hash : Z) : M unit :=
  write (set_m_current_pass_hash pass_hash).

Definition getDebugShader : M addr :=
  d ← read m_debug_shader;
  deref d.

Definition setFixedCachedUniform_Vec3
    (shader : addr) (name : Z) (value : Vec3) : M unit :=
  sh ← load_shader shader;
  let loc := Shader_getFixedCachedUniformLocation sh name in
  if 0 <=? loc then
    last ← read m_last_program_id;
    (if negb (last =? Shader_getProgramId sh) then
       gl_call (GlUseProgram (Shader_getProgramId sh));;
       write (set_m_last_program_id (Shader_getProgramId sh))
     else mret tt);;
    gl_call (GlUniform3f loc (v3x value) (v3y value) (v3z value))
  else mret tt.

Definition setFixedCachedUniform_Vec4
    (shader : addr) (name : Z) (value : Vec4) : M unit :=
  sh ← load_shader shader;
  let loc := Shader_getFixedCachedUniformLocation sh name in
  if 0 <=? loc then
    last ← read m_last_program_id;
    (if negb (last =? Shader_getProgramId sh) then
       gl_call (GlUseProgram (Shader_getProgramId sh));;
       write (set_m_last_program_id (Shader_getProgramId sh))
     else mret tt);;
    gl_call (GlUniform4f loc (v4x value) (v4y value) (v4z value) (v4w value))
  else mret tt.

Definition setFixedCachedUniform_float
    (shader : addr) (name : Z) (value : float) : M unit :=
  sh ← load_shader shader;
  let loc := Shader_getFixedCachedUniformLocation sh name in
  if 0 <=? loc then
    last ← read m_last_program_id;
    (if negb (last =? Shader_getProgramId sh) then
       gl_call (GlUseProgram (Shader_getProgramId sh));;
       write (set_m_last_program_id (Shader_getProgramId sh))
     else mret tt);;
    gl_call (GlUniform1f loc value)
  else mret tt.

Definition setFixedCachedUniform_Matrix
    (shader : addr) (name : Z) (mtx : Matrix) : M unit :=
  sh ← load_shader shader;
  let loc := Shader_getFixedCachedUniformLocation sh name in
  if 0 <=? loc then
    last ← read m_last_program_id;
    (if negb (last =? Shader_getProgramId sh) then
       gl_call (GlUseProgram (Shader_getProgramId sh));;
       write (set_m_last_program_id (Shader_getProgramId sh))
     else mret tt);;
    gl_call (GlUniformMatrix4fv loc 1 false [mtx])
  else mret tt.

Definition setFixedCachedUniform_Matrices
    (shader : addr) (name : Z) (matrices : list Matrix) (count : Z) : M unit :=
  sh ← load_shader shader;
  let loc := Shader_getFixedCachedUniformLocation sh name in
  if 0 <=? loc then
    last ← read m_last_program_id;
    (if negb (last =? Shader_getProgramId sh) then
       gl_call (GlUseProgram (Shader_getProgramId sh));;
       write (set_m_last_program_id (Shader_getProgramId sh))
     else mret tt);;
    gl_call (GlUniformMatrix4fv loc count false matrices)
  else mret tt.

Definition applyShader (shader : addr) (combination : Z) : M unit :=
  pass ← read m_current_pass_hash;
  sh ← load_shader shader;
  store_shader shader (Shader_setCurrentCombination combination pass sh);;
  sh ← load_shader shader;
  let id := Shader_getProgramId sh in
  write (set_m_last_program_id id);;
  gl_call (GlUseProgram id);;
  view ← read m_view_matrix;
  setFixedCachedUniform_Matrix shader
    (fixed_cached_uniform_index X VIEW_MATRIX) view;;
  projection ← read m_projection_matrix;
  setFixedCachedUniform_Matrix shader
    (fixed_cached_uniform_index X PROJECTION_MATRIX) projection.

(** The descriptors [registerPropertyDescriptors] hands to the editor, in
    the order of the source. *)
Definition property_descriptors : list (string * PropertyKind * string) :=
  [ ("camera", StringProperty, "slot");
    ("camera", DecimalProperty, "fov");
    ("camera", DecimalProperty, "near");
    ("camera", DecimalProperty, "far");
    ("renderable", ResourceProperty "Mesh (*.msh)", "source");
    ("renderable", BoolProperty, "is_always_visible");
    ("global_light", DecimalProperty, "ambient_intensity");
    ("global_light", DecimalProperty, "intensity");
    ("global_light", DecimalProperty, "fog_density");
    ("global_light", ColorProperty, "ambient_color");
    ("global_light", ColorProperty, "color");
    ("global_light", ColorProperty, "fog_color");
    ("point_light", DecimalProperty, "intensity");
    ("point_light", ColorProperty, "color");
    ("point_light", DecimalProperty, "range");
    ("point_light", DecimalProperty, "FOV");
    ("terrain", ResourceProperty "Material (*.mat)", "material");
    ("terrain", DecimalProperty, "xz_scale");
    ("terrain", DecimalProperty, "y_scale");
    ("terrain",
     ArrayProperty [ResourceArrayObject "mesh" "Mesh (*.msh)";
                    IntArrayObject "ground" (Some (0, 4));
                    IntArrayObject "density" None],
     "grass") ].

Fixpoint register_properties (ds : list (string * PropertyKind * string)) : M unit :=
  match ds with
  | [] => mret tt
  | (component, kind, name) :: rest =>
      call_world X (XRegisterProperty component kind name);;
      register_properties rest
  end.

Definition registerPropertyDescriptors : M unit :=
  editor ← call_world X XGetWorldEditor;
  if negb (editor =? 0) then register_properties property_descriptors
  else mret tt.

Definition create : M bool :=
  call_world X XSetRenderer;;
  registerPropertyDescriptors;;
  err ← call_world X XGlewInit;
  shader ← call_world X (XLoadShader "shaders/debug.shd");
  write (set_m_debug_shader (ptr_of_Z shader));;
  mret (err =? GLEW_OK).

Definition destroy : M unit :=
  d ← read m_debug_shader;
  shader ← deref d;
  load_shader shader;;
  call_world X (XUnloadShader shader);;
  mret tt.

Definition enableAlphaToCoverage (enable : bool) : M unit :=
  if enable then
    gl_call (GlEnable GL_MULTISAMPLE);;
    gl_call (GlEnable GL_SAMPLE_ALPHA_TO_COVERAGE)
  else
    gl_call (GlDisable GL_MULTISAMPLE);;
    gl_call (GlDisable GL_SAMPLE_ALPHA_TO_COVERAGE).

Definition enableZTest (enable : bool) : M unit :=
  if enable then gl_call (GlEnable GL_DEPTH_TEST)
  else gl_call (GlDisable GL_DEPTH_TEST).

Definition makeScreenshot (filename : string) (width height : Z) : M unit :=
  pixels ← call_world X
             (XAllocate (wrap_size_t (wrap_i32 (wrap_i32 (width * height) * 4))));
  gl_call (GlPixelStorei GL_UNPACK_ALIGNMENT 1);;
  gl_call (GlReadPixels 0 0 width height GL_RGBA GL_UNSIGNED_BYTE pixels);;
  file ← call_world X (XFsOpen "disk" filename (fs_mode_open_or_create_write X));
  call_world X (XSaveTGA file width height 4 pixels filename);;
  call_world X (XFsClose file);;
  call_world X (XDeallocate pixels);;
  mret tt.

Definition bindGeometry (geometry mesh : addr) : M unit :=
  last ← read m_last_bind_geometry_mesh;
  if decide (last ≠ Some mesh) then
    (if last is Some _ then
       '(m, shader) ← mesh_layout last;
       call_driver X (XVertexDefEnd (mesh_vertex_definition m) shader)
     else mret tt);;
    call_driver X (XGeometryBindBuffers geometry);;
    write (set_m_last_bind_geometry (Some geometry));;
    write (set_m_last_bind_geometry_mesh (Some mesh));;
    '(m, shader) ← mesh_layout (Some mesh);
    call_driver X (XVertexDefBegin (mesh_vertex_definition m) shader
                     (mesh_attribute_array_offset m))
  else mret tt.

(** The loop over the shader's attributes in [renderInstancedGeometry]. *)
Fixpoint reset_divisors (sh : Shader) (remaining i : nat) : M unit :=
  match remaining with
  | O => mret tt
  | S r =>
      let attr_id := Shader_getAttribId sh i in
      (if 0 <=? attr_id then gl_call (GlVertexAttribDivisor attr_id 0)
       else mret tt);;
      reset_divisors sh r (S i)
  end.

Definition renderInstancedGeometry
    (indices_offset vertex_count instance_count : Z) (shader : addr) : M unit :=
  sh ← load_shader shader;
  reset_divisors sh (Z.to_nat (Shader_getAttributeCount sh)) 0;;
  gl_call (GlDrawElementsInstanced GL_TRIANGLES vertex_count GL_UNSIGNED_INT
             (wrap_size_t (indices_offset * sizeof_GLint)) instance_count).

Definition renderGeometry (indices_offset vertex_count : Z) : M unit :=
  gl_call (GlDrawElements GL_TRIANGLES vertex_count GL_UNSIGNED_INT
             (wrap_size_t (indices_offset * sizeof_GLint))).

(** One iteration of the loop of [renderModel], for the mesh at index [i]. *)
Definition renderModel_mesh
    (model : Model) (transform : Matrix) (pipeline : addr) (i : nat) : M unit :=
  mesh ← deref (model_meshes model !! i);
  m ← deref (sc_meshes Σ !! mesh);
  mat ← deref (mesh_material m);
  deref (sc_materials Σ !! mat);;
  call_world X (XMaterialApply mat pipeline);;
  '(_, shader) ← mesh_layout (Some mesh);
  setFixedCachedUniform_Matrix shader
    (fixed_cached_uniform_index X WORLD_MATRIX) transform;;
  bindGeometry (model_geometry model) mesh;;
  renderGeometry (mesh_indices_offset m) (mesh_index_count m).

Fixpoint renderModel_loop
    (model : Model) (transform : Matrix) (pipeline : addr)
    (remaining i : nat) : M unit :=
  match remaining with
  | O => mret tt
  | S r =>
      renderModel_mesh model transform pipeline i;;
      renderModel_loop model transform pipeline r (S i)
  end.

Definition renderModel (model : Model) (transform : Matrix) (pipeline : addr) : M unit :=
  if negb (model_ready model) then mret tt
  else renderModel_loop model transform pipeline (length (model_meshes model)) 0.

Definition setEditorWireframe (is_wireframe : bool) : M unit :=
  write (set_m_is_editor_wireframe is_wireframe).

Definition isEditorWireframe : M bool := read m_is_editor_wireframe.

(** The search loop of [getAttributeNameIndex]: [Some i] when it returns
    [i] from inside the loop, [None] when it runs to the end. *)
Fixpoint getAttributeNameIndex_search
    (name : string) (remaining i : nat) : M (option Z) :=
  match remaining with
  | O => mret None
  | S r =>
      names ← read m_attribute_names;
      n ← deref (names !! i);
      if String.eqb n name then mret (Some (Z.of_nat i))
      else getAttributeNameIndex_search name r (S i)
  end.

Definition getAttributeNameIndex (name : string) : M Z :=
  names ← read m_attribute_names;
  found ← getAttributeNameIndex_search name (length names) 0;
  match found with
  | Some i => mret i
  | None =>
      write (λ r, set_m_attribute_names (m_attribute_names r ++ [name]) r);;
      names ← read m_attribute_names;
      mret (Z.of_nat (length names) - 1)
  end.

Definition getUniformLocation (shader : addr) (name : Z) : M Z :=
  sh ← load_shader shader;
  mret (Shader_getFixedCachedUniformLocation sh name).

Definition setUniform_at_Matrix (location : Z) (mtx : Matrix) : M unit :=
  gl_call (GlUniformMatrix4fv location 1 false [mtx]).

Definition setUniform_at_Matrices
    (location : Z) (matrices : list Matrix) (count : Z) : M unit :=
  gl_call (GlUniformMatrix4fv location count false matrices).

Definition setUniform_at_Vec3 (location : Z) (value : Vec3) : M unit :=
  gl_call (GlUniform3f location (v3x value) (v3y value) (v3z value)).

Definition setUniform_at_float (location : Z) (value : float) : M unit :=
  gl_call (GlUniform1f location value).
End Renderer.

(** ** Vocabulary of the theorems *)

(** The shape the ten uniform setters share: resolve a location on the
    shader, and when it is not negative make the shader's program current
    (through the cache) and issue the write [emit]. *)
Definition uniform_protocol
    (locate : Shader -> Z) (emit : Z -> GLCall) (shader : addr) : M unit :=
  sh ← load_shader shader;
  let loc := locate sh in
  if 0 <=? loc then
    last ← read m_last_program_id;
    (if negb (last =? Shader_getProgramId sh) then
       gl_call (GlUseProgram (Shader_getProgramId sh));;
       write (set_m_last_program_id (Shader_getProgramId sh))
     else mret tt);;
    gl_call (emit loc)
  else mret tt.

(** The value argument of one of the overloads. *)
Inductive UniformArg :=
| ArgInt (value : Z)
| ArgFloat (value : float)
| ArgVec3 (value : Vec3)
| ArgVec4 (value : Vec4)
| ArgMatrix (mtx : Matrix)
| ArgMatrices (matrices : list Matrix) (count : Z).

(** The driver write an overload issues for its argument. *)
Definition uniform_write (a : UniformArg) (loc : Z) : GLCall :=
  match a with
  | ArgInt v => GlUniform1i loc v
  | ArgFloat v => GlUniform1f loc v
  | ArgVec3 v => GlUniform3f loc (v3x v) (v3y v) (v3z v)
  | ArgVec4 v => GlUniform4f loc (v4x v) (v4y v) (v4z v) (v4w v)
  | ArgMatrix m => GlUniformMatrix4fv loc 1 false [m]
  | ArgMatrices ms count => GlUniformMatrix4fv loc count false ms
  end.

(** A call of [RendererImpl::setUniform]; overload resolution picks the
    member by the type of the value (there is no [Vec4] overload). *)
Record UniformCall := mkUniformCall {
  uc_shader : addr;
  uc_name : string;
  uc_name_hash : Z;
  uc_arg : UniformArg
}.

Definition uniform_call_ok (c : UniformCall) : Prop :=
  match uc_arg c with ArgVec4 _ => False | _ => True end.

Definition setUniform (c : UniformCall) : M unit :=
  match uc_arg c with
  | ArgInt v => setUniform_int (uc_shader c) (uc_name c) (uc_name_hash c) v
  | ArgFloat v => setUniform_float (uc_shader c) (uc_name c) (uc_name_hash c) v
  | ArgVec3 v => setUniform_Vec3 (uc_shader c) (uc_name c) (uc_name_hash c) v
  | ArgVec4 _ => crash
  | ArgMatrix m => setUniform_Matrix (uc_shader c) (uc_name c) (uc_name_hash c) m
  | ArgMatrices ms n =>
      setUniform_Matrices (uc_shader c) (uc_name c) (uc_name_hash c) ms n
  end.

(** A call of the free function [setFixedCachedUniform] (there is no [int]
    overload). *)
Record FixedUniformCall := mkFixedUniformCall {
  fc_shader : addr;
  fc_name : Z;
  fc_arg : UniformArg
}.

Definition fixed_call_ok (c : FixedUniformCall) : Prop :=
  match fc_arg c with ArgInt _ => False | _ => True end.

Definition setFixedCachedUniform (c : FixedUniformCall) : M unit :=
  match fc_arg c with
  | ArgInt _ => crash
  | ArgFloat v => setFixedCachedUniform_float (fc_shader c) (fc_name c) v
  | ArgVec3 v => setFixedCachedUniform_Vec3 (fc_shader c) (fc_name c) v
  | ArgVec4 v => setFixedCachedUniform_Vec4 (fc_shader c) (fc_name c) v
  | ArgMatrix m => setFixedCachedUniform_Matrix (fc_shader c) (fc_name c) m
  | ArgMatrices ms n => setFixedCachedUniform_Matrices (fc_shader c) (fc_name c) ms n
  end.

(** Calls made one after the other. *)
Fixpoint run_all {A} (run : A -> M unit) (calls : list A) : M unit :=
  match calls with
  | [] => mret tt
  | c :: rest => run c;; run_all run rest
  end.

Definition is_bind (e : Event) : bool :=
  match e with EvGL (GlUseProgram _) => true | _ => false end.

(** Number of [glUseProgram] calls in a trace. *)
Definition bind_count (tr : list Event) : nat := length (filter is_bind tr).

(** Does the call resolve to a location on shader [sh]? *)
Definition resolves (sh : Shader) (c : UniformCall) : bool :=
  0 <=? Shader_getUniformLocation sh (uc_name c) (uc_name_hash c).

(** What the driver stores for an overload's argument. *)
Definition uniform_data (a : UniformArg) : UniformData :=
  match a with
  | ArgInt v => U1i v
  | ArgFloat v => U1f v
  | ArgVec3 v => U3f (v3x v) (v3y v) (v3z v)
  | ArgVec4 v => U4f (v4x v) (v4y v) (v4z v) (v4w v)
  | ArgMatrix m => UMatrix4fv 1 false [m]
  | ArgMatrices ms count => UMatrix4fv count false ms
  end.

(** The mesh at an address together with its material's shader, as a plain
    lookup in the scene. *)
Definition scene_mesh_layout (Σ : Scene) (mesh : addr) : option (Mesh * addr) :=
  m ← sc_meshes Σ !! mesh;
  mat ← mesh_material m;
  material ← sc_materials Σ !! mat;
  shader ← mat_shader material;
  Some (m, shader).

(** ** A concrete engine, for running the model

    Stand-ins for the code outside [renderer.cpp]: a bitwise CRC-32, a
    [tanf] evaluated by Taylor series in binary64 and rounded to binary32,
    row-vector matrix accessors, a material whose [apply] applies its shader
    with combination 0, and geometry and vertex definitions that bind
    buffers and switch vertex attribute arrays on and off. *)
Module Demo.
Fixpoint crc32_shift (n : nat) (c : Z) : Z :=
  match n with
  | O => c
  | S k =>
      crc32_shift k
        (if Z.testbit c 0 then Z.lxor (Z.shiftr c 1) 0xEDB88320 else Z.shiftr c 1)
  end.

Fixpoint crc32_update (s : string) (c : Z) : Z :=
  match s with
  | EmptyString => c
  | String a rest =>
      crc32_update rest (crc32_shift 8 (Z.lxor c (Z.of_N (Ascii.N_of_ascii a))))
  end.

Definition crc32 (s : string) : Z := Z.lxor (crc32_update s 0xFFFFFFFF) 0xFFFFFFFF.

Definition f64_of_int (z : Z) : spec_float :=
  match z with
  | Z0 => S754_zero false
  | Zpos p => binary_round 53 1024 false p 0
  | Zneg p => binary_round 53 1024 true p 0
  end.

(** Partial sums of the sine and cosine series: each term is the one
    before times [-x²/((n+1)(n+2))]. *)
Fixpoint series (k : nat) (n : Z) (term x2neg acc : spec_float) : spec_float :=
  match k with
  | O => acc
  | S k' =>
      let term' :=
        SFdiv 53 1024 (SFmul 53 1024 term x2neg) (f64_of_int ((n + 1) * (n + 2))) in
      series k' (n + 2) term' x2neg (SFadd 53 1024 acc term')
  end.

Definition to_single (x : spec_float) : float :=
  match x with
  | S754_finite s m e => binary_round F32.prec F32.emax s m e
  | _ => x
  end.

Definition tanf (x : float) : float :=
  let x2neg := SFopp (SFmul 53 1024 x x) in
  let s := series 12 1 x x2neg x in
  let c := series 12 0 (f64_of_int 1) x2neg (f64_of_int 1) in
  to_single (SFdiv 53 1024 s c).

(** [3.14159265f] *)
Definition PI : float := S754_finite false 13176795 (-22).

Definition degreesToRadians (angle : float) : float :=
  F32.div (F32.mul angle PI) (F32.of_int 180).

Definition identity : Matrix :=
  let o := F32.of_int 1 in
  let z := F32.of_int 0 in
  mkMatrix o z z z  z o z z  z z o z  z z z o.

Definition vec3_sub (a b : Vec3) : Vec3 :=
  mkVec3 (F32.sub (v3x a) (v3x b)) (F32.sub (v3y a) (v3y b)) (F32.sub (v3z a) (v3z b)).
Definition vec3_neg (a : Vec3) : Vec3 :=
  mkVec3 (F32.neg (v3x a)) (F32.neg (v3y a)) (F32.neg (v3z a)).
Definition dotProduct (a b : Vec3) : float :=
  F32.add (F32.add (F32.mul (v3x a) (v3x b)) (F32.mul (v3y a) (v3y b)))
          (F32.mul (v3z a) (v3z b)).
Definition crossProduct (a b : Vec3) : Vec3 :=
  mkVec3 (F32.sub (F32.mul (v3y a) (v3z b)) (F32.mul (v3z a) (v3y b)))
         (F32.sub (F32.mul (v3z a) (v3x b)) (F32.mul (v3x a) (v3z b)))
         (F32.sub (F32.mul (v3x a) (v3y b)) (F32.mul (v3y a) (v3x b))).
Definition vec3_normalize (a : Vec3) : Vec3 :=
  let inv := F32.div (F32.of_int 1) (SFsqrt F32.prec F32.emax (dotProduct a a)) in
  mkVec3 (F32.mul (v3x a) inv) (F32.mul (v3y a) inv) (F32.mul (v3z a) inv).

Definition math : MathLib :=
  mkMathLib tanf degreesToRadians identity
    vec3_sub vec3_neg vec3_normalize crossProduct dotProduct
    (λ m, mkVec3 (m41 m) (m42 m) (m43 m))
    (λ m, mkVec3 (m21 m) (m22 m) (m23 m))
    (λ m, mkVec3 (m31 m) (m32 m) (m33 m))
    (λ v m,
       mkMatrix (v3x v) (v3y v) (v3z v) (m14 m) (m21 m) (m22 m) (m23 m) (m24 m)
                (m31 m) (m32 m) (m33 m) (m34 m) (m41 m) (m42 m) (m43 m) (m44 m))
    (λ v m,
       mkMatrix (m11 m) (m12 m) (m13 m) (m14 m) (v3x v) (v3y v) (v3z v) (m24 m)
                (m31 m) (m32 m) (m33 m) (m34 m) (m41 m) (m42 m) (m43 m) (m44 m))
    (λ v m,
       mkMatrix (m11 m) (m12 m) (m13 m) (m14 m) (m21 m) (m22 m) (m23 m) (m24 m)
                (v3x v) (v3y v) (v3z v) (m34 m) (m41 m) (m42 m) (m43 m) (m44 m))
    (λ v m,
       mkMatrix (m11 m) (m12 m) (m13 m) (m14 m) (m21 m) (m22 m) (m23 m) (m24 m)
                (m31 m) (m32 m) (m33 m) (m34 m) (v3x v) (v3y v) (v3z v) (m44 m))
    (λ m,
       mkMatrix (m11 m) (m21 m) (m31 m) (m41 m) (m12 m) (m22 m) (m32 m) (m42 m)
                (m13 m) (m23 m) (m33 m) (m43 m) (m14 m) (m24 m) (m34 m) (m44 m)).

(** [0.1f] *)
Definition tenth : float := S754_finite false 13421773 (-27).

(** Two shaders with one program each, at addresses 10 and 11. *)
Definition program_a : Program :=
  mkProgram 7
    (λ name _, if String.eqb name "u_color" then 3
               else if String.eqb name "u_time" then 5 else -1)
    (λ n, if (0 <=? n) && (n <? 3) then n else -1)
    [0; 1; 2].
Definition program_b : Program :=
  mkProgram 9
    (λ name _, if String.eqb name "u_color" then 1 else -1)
    (λ n, if (0 <=? n) && (n <? 2) then n else -1)
    [0; 1].
Definition shader_a : Shader := mkShader (λ _ _, program_a) program_a.
Definition shader_b : Shader := mkShader (λ _ _, program_b) program_b.

(** Materials at 20 and 21, meshes at 30 and 31, a device at 50. *)
Definition mesh_a : Mesh := mkMesh (Some 20) 0 36 0 (mkVertexDef [0; 1; 2]).
Definition mesh_b : Mesh := mkMesh (Some 21) 36 12 864 (mkVertexDef [0; 1]).

Definition scene : Scene :=
  mkScene {[ 30 := mesh_a; 31 := mesh_b ]}
          {[ 20 := mkMaterial (Some 10); 21 := mkMaterial (Some 11) ]}
          {[ 50 ]}.

Definition model : Model := mkModel true 40 [30; 31].
Definition model_loading : Model := mkModel false 40 [30; 31].

Definition fixed_index (u : FixedCachedUniforms) : Z :=
  match u with VIEW_MATRIX => 0 | PROJECTION_MATRIX => 1 | WORLD_MATRIX => 2 end.

Definition set_attribs (enable : bool) (ids : list Z) (g : GLState) : GLState :=
  mkGL (gl_viewport g) (gl_enabled g) (gl_array_buffer g) (gl_element_array_buffer g)
       (gl_current_program g) (gl_active_texture g) (gl_texture_2d g)
       (gl_uniforms g)
       (if enable then gl_attrib_enabled g ∪ list_to_set ids
        else gl_attrib_enabled g ∖ list_to_set ids)
       (gl_attrib_divisor g) (gl_unpack_alignment g).

Definition driver (c : ExtCall) (shs : gmap addr Shader) (g : GLState) : GLState :=
  match c with
  | XGeometryBindBuffers geometry =>
      gl_exec (GlBindBuffer GL_ELEMENT_ARRAY_BUFFER (geometry + 1))
              (gl_exec (GlBindBuffer GL_ARRAY_BUFFER geometry) g)
  | XVertexDefBegin _ shader _ =>
      match shs !! shader with
      | Some sh => set_attribs true (prog_attrib_ids (sh_current sh)) g
      | None => g
      end
  | XVertexDefEnd _ shader =>
      match shs !! shader with
      | Some sh => set_attribs false (prog_attrib_ids (sh_current sh)) g
      | None => g
      end
  | _ => g
  end.

Definition result (c : ExtCall) (w : World) : Z :=
  match c with
  | XGetWorldEditor => 1
  | XLoadShader _ => 10
  | XAllocate _ => 4096
  | XFsOpen _ _ _ => 8192
  | XCreateScene _ => 60
  | _ => 0
  end.

Definition extern_passive : Extern :=
  mkExtern crc32 fixed_index 6 driver (λ _ w, w) result.

(** [Material::apply] applies the material's shader. *)
Definition world_effect (c : ExtCall) (w : World) : World :=
  match c with
  | XMaterialApply material _ =>
      match sc_materials scene !! material ≫= mat_shader with
      | Some shader =>
          match applyShader extern_passive shader 0 w with
          | Some (_, w', _) => w'
          | None => w
          end
      | None => w
      end
  | _ => w
  end.

Definition extern : Extern :=
  mkExtern crc32 fixed_index 6 driver world_effect result.

Definition gl0 : GLState :=
  mkGL (0, 0, 640, 480) ∅ 0 0 0 0 ∅ ∅ ∅ ∅ 4.

(** The storage a renderer is constructed in, filled with the debug
    allocator's pattern. *)
Definition raw_matrix : Matrix :=
  let x := S754_nan in mkMatrix x x x x  x x x x  x x x x  x x x x.
Definition raw_memory : RendererImpl :=
  mkRenderer (Some 0xCDCDCDCD) true (Some 0xCDCDCDCD) (Some 0xCDCDCDCD)
             0xCDCDCDCD 0xCDCDCDCD raw_matrix raw_matrix (Some 0xCDCDCDCD) [].

Definition shaders0 : gmap addr Shader := {[ 10 := shader_a; 11 := shader_b ]}.

(** The world right after [Renderer::createInstance]. *)
Definition world0 : World :=
  mkWorld (RendererImpl_new extern raw_memory) gl0 shaders0.

(** The same, had the storage held the address of the live device. *)
Definition world0_device_in_storage : World :=
  mkWorld (RendererImpl_new extern (set_m_render_device (Some 50) raw_memory))
          gl0 shaders0.

(** [world0] after [bindGeometry] of geometry 40 and the mesh at 30. *)
Definition world_bound : World :=
  match bindGeometry extern scene 40 30 world0 with
  | Some (_, w, _) => w
  | None => world0
  end.

(** Four [setUniform] calls on the shader at 10; the first names a uniform
    the program does not have. *)
Definition uniform_calls : list UniformCall :=
  [ mkUniformCall 10 "u_fog" 0 (ArgFloat F32.half);
    mkUniformCall 10 "u_color" 0 (ArgInt 4);
    mkUniformCall 10 "u_time" 0 (ArgFloat tenth);
    mkUniformCall 10 "u_color" 0 (ArgMatrix identity) ].
End Demo.

(** The contract of a uniform setter [run], called on a live shader [sh]
    for which it resolves location [loc], with value [arg], in world [w]:
    - a negative location: nothing happens;
    - a location, and a cached program id other than the shader's: the
      program is made current and cached, then the write is issued, and it
      lands in that program;
    - a location, and the shader's program id cached: the write alone. *)
Definition uniform_contract
    (run : M unit) (sh : Shader) (loc : Z) (arg : UniformArg) (w : World) : Prop :=
  let pid := Shader_getProgramId sh in
  (loc < 0 → run w = Some (tt, w, [])) ∧
  (0 ≤ loc → m_last_program_id (renderer w) ≠ pid →
   ∃ w',
     run w = Some (tt, w', [EvGL (GlUseProgram pid); EvGL (uniform_write arg loc)]) ∧
     renderer w' = set_m_last_program_id pid (renderer w) ∧
     gl w' = gl_exec (uniform_write arg loc) (gl_exec (GlUseProgram pid) (gl w)) ∧
     shaders w' = shaders w ∧
     gl_current_program (gl_exec (GlUseProgram pid) (gl w)) = pid ∧
     gl_current_program (gl w') = m_last_program_id (renderer w') ∧
     (pid ≠ 0 → gl_uniforms (gl w') !! (pid, loc) = Some (uniform_data arg))) ∧
  (0 ≤ loc → m_last_program_id (renderer w) = pid →
   run w = Some (tt, set_gl (gl_exec (uniform_write arg loc) (gl w)) w,
                 [EvGL (uniform_write arg loc)])).

(** The driver calls a sequence of [setUniform] calls on shader [sh] makes,
    call by call; [bound] tells whether the cache already holds the shader's
    program id. *)
Fixpoint setUniform_trace (sh : Shader) (bound : bool) (calls : list UniformCall)
    : list Event :=
  match calls with
  | [] => []
  | c :: rest =>
      if resolves sh c then
        (if bound then [] else [EvGL (GlUseProgram (Shader_getProgramId sh))])
        ++ EvGL (uniform_write (uc_arg c)
                   (Shader_getUniformLocation sh (uc_name c) (uc_name_hash c)))
        :: setUniform_trace sh true rest
      else setUniform_trace sh bound rest
  end.

(** The calls [bindGeometry] makes into geometry and vertex-definition code
    when it rebinds: the teardown of the layout of the mesh bound before, if
    any, against that mesh's shader, then the buffer bind and the setup of
    the new layout [(m, shader)]. *)
Definition rebind_calls
    (Σ : Scene) (last : option addr) (geometry : addr) (m : Mesh) (shader : addr)
    : list ExtCall :=
  match last ≫= scene_mesh_layout Σ with
  | Some (pm, pshader) => [XVertexDefEnd (mesh_vertex_definition pm) pshader]
  | None => []
  end ++
  [XGeometryBindBuffers geometry;
   XVertexDefBegin (mesh_vertex_definition m) shader (mesh_attribute_array_offset m)].

(** The driver state after a list of calls into driver-only code. *)
Definition driver_after (X : Extern) (calls : list ExtCall) (w : World) : GLState :=
  foldl (λ g c, ext_driver X c (shaders w) g) (gl w) calls.

(** The outcome [r] with the events [t] put before its trace. *)
Definition after_events {A} (t : list Event) (r : option (A * World * list Event))
    : option (A * World * list Event) :=
  match r with
  | Some (a, w, t') => Some (a, w, t ++ t')
  | None => None
  end.

(** The driver state after a list of driver calls. *)
Definition gl_run (calls : list GLCall) (g : GLState) : GLState :=
  foldl (λ g c, gl_exec c g) g calls.

(** The driver calls of the texture loop of [cleanup]. *)
Fixpoint cleanup_texture_calls (remaining : nat) (i : Z) : list GLCall :=
  match remaining with
  | O => []
  | S r =>
      GlActiveTexture (GL_TEXTURE0 + i) :: GlBindTexture GL_TEXTURE_2D 0
      :: cleanup_texture_calls r (i + 1)
  end.

(** The driver calls of [cleanup], apart from the layout teardown. *)
Definition cleanup_gl_calls : list GLCall :=
  [GlBindBuffer GL_ARRAY_BUFFER 0; GlBindBuffer GL_ELEMENT_ARRAY_BUFFER 0;
   GlUseProgram 0]
  ++ cleanup_texture_calls 16 0 ++ [GlActiveTexture GL_TEXTURE0].

(** Texture 0 on the units [i], [i+1], ..., [remaining] of them. *)
Fixpoint clear_units (remaining : nat) (i : Z) (t : gmap Z Z) : gmap Z Z :=
  match remaining with
  | O => t
  | S r => clear_units r (i + 1) (<[i := 0]> t)
  end.

(** The driver state [cleanup] leaves: no buffers, no program, no texture
    on units 0 to 15, unit 0 active. *)
Definition gl_cleaned (g : GLState) : GLState :=
  mkGL (gl_viewport g) (gl_enabled g) 0 0 0 0 (clear_units 16 0 (gl_texture_2d g))
       (gl_uniforms g) (gl_attrib_enabled g) (gl_attrib_divisor g)
       (gl_unpack_alignment g).

Definition clear_memo (r : RendererImpl) : RendererImpl :=
  set_m_last_bind_geometry_mesh None (set_m_last_bind_geometry None r).

(** The teardown of [cleanup] can be carried out: when a geometry is
    recorded as bound, the recorded mesh is a live mesh with a live material
    that has a shader. *)
Definition memo_live (Σ : Scene) (w : World) : Prop :=
  is_Some (m_last_bind_geometry (renderer w)) →
  ∃ mesh, m_last_bind_geometry_mesh (renderer w) = Some mesh ∧
          is_Some (scene_mesh_layout Σ mesh).

Definition is_teardown (e : Event) : bool :=
  match e with EvExt (XVertexDefEnd _ _) => true | _ => false end.

(** What [renderModel] does for one sub-mesh, told by the address of the
    mesh: apply the material, push the world matrix to the material's
    shader, bind the geometry through [bindGeometry], draw the index range. *)
Definition render_mesh
    (X : Extern) (Σ : Scene) (geometry : addr) (transform : Matrix)
    (pipeline mesh : addr) : M unit :=
  m ← deref (sc_meshes Σ !! mesh);
  mat ← deref (mesh_material m);
  deref (sc_materials Σ !! mat);;
  call_world X (XMaterialApply mat pipeline);;
  '(_, shader) ← mesh_layout Σ (Some mesh);
  setFixedCachedUniform_Matrix shader
    (fixed_cached_uniform_index X WORLD_MATRIX) transform;;
  bindGeometry X Σ geometry mesh;;
  renderGeometry (mesh_indices_offset m) (mesh_index_count m).

Definition is_material_apply (e : Event) : bool :=
  match e with EvExt (XMaterialApply _ _) => true | _ => false end.

Definition is_draw (e : Event) : bool :=
  match e with
  | EvGL (GlDrawElements _ _ _ _) | EvGL (GlDrawElementsInstanced _ _ _ _ _) => true
  | _ => false
  end.

(** The material application and the draw [renderModel] owes a mesh. *)
Definition mesh_apply_and_draw (Σ : Scene) (pipeline mesh : addr) : list Event :=
  match scene_mesh_layout Σ mesh with
  | Some (m, _) =>
      [EvExt (XMaterialApply (default 0 (mesh_material m)) pipeline);
       EvGL (GlDrawElements GL_TRIANGLES (mesh_index_count m) GL_UNSIGNED_INT
               (wrap_size_t (mesh_indices_offset m * sizeof_GLint)))]
  | None => []
  end.

(** The scene's shaders are live in the world, and the mesh recorded as
    bound, if any, is a live mesh of the scene. *)
Definition scene_live (Σ : Scene) (w : World) : Prop :=
  (∀ mesh m shader,
     scene_mesh_layout Σ mesh = Some (m, shader) → is_Some (shaders w !! shader)) ∧
  (∀ prev,
     m_last_bind_geometry_mesh (renderer w) = Some prev →
     is_Some (scene_mesh_layout Σ prev)).

(** Calls made one after the other, with the list of what they return. *)
Fixpoint collect {A B} (run : A -> M B) (calls : list A) : M (list B) :=
  match calls with
  | [] => mret []
  | c :: rest => b ← run c; bs ← collect run rest; mret (b :: bs)
  end.

(** Index of the first occurrence of a name in the registry. *)
Definition first_index (name : string) (names : list string) : option nat :=
  fst <$> list_find (λ n, n = name) names.

Definition with_attribute_names (names : list string) (w : World) : World :=
  set_renderer (set_m_attribute_names names (renderer w)) w.

(** ** Every operation of the file, as one type *)

Inductive Op :=
| OpCreateScene (universe : addr)
| OpDestroyScene (scene : option addr)
| OpSetViewMatrix (matrix : Matrix)
| OpSetProjectionMatrix (matrix : Matrix)
| OpSetViewport (width height : float)
| OpSetProjection (width height fov near_plane far_plane : float) (mtx : Matrix)
| OpSetRenderDevice (device : addr)
| OpRenderGame
| OpRender (device : addr)
| OpGetCurrentViewMatrix
| OpGetCurrentProjectionMatrix
| OpCleanup
| OpSetUniform (c : UniformCall)
| OpGetPass
| OpSetPass (pass_hash : Z)
| OpGetDebugShader
| OpApplyShader (shader : addr) (combination : Z)
| OpCreate
| OpDestroy
| OpEnableAlphaToCoverage (enable : bool)
| OpEnableZTest (enable : bool)
| OpMakeScreenshot (filename : string) (width height : Z)
| OpRenderModel (model : Model) (transform : Matrix) (pipeline : addr)
| OpSetEditorWireframe (is_wireframe : bool)
| OpIsEditorWireframe
| OpGetAttributeNameIndex (name : string)
| OpSetFixedCachedUniform (c : FixedUniformCall)
| OpBindGeometry (geometry mesh : addr)
| OpRenderInstancedGeometry (indices_offset vertex_count instance_count : Z)
                            (shader : addr)
| OpRenderGeometry (indices_offset vertex_count : Z)
| OpGetUniformLocation (shader : addr) (name : Z)
| OpSetUniformAtMatrix (location : Z) (mtx : Matrix)
| OpSetUniformAtMatrices (location : Z) (matrices : list Matrix) (count : Z)
| OpSetUniformAtVec3 (location : Z) (value : Vec3)
| OpSetUniformAtFloat (location : Z) (value : float).

Definition run_op (X : Extern) (L : MathLib) (Σ : Scene) (op : Op) : M unit :=
  match op with
  | OpCreateScene universe => createScene X universe;; mret tt
  | OpDestroyScene scene => destroyScene X scene
  | OpSetViewMatrix matrix => setViewMatrix matrix
  | OpSetProjectionMatrix matrix => setProjectionMatrix matrix
  | OpSetViewport width height => setViewport width height
  | OpSetProjection width height fov near_plane far_plane mtx =>
      setProjection L width height fov near_plane far_plane mtx
  | OpSetRenderDevice device => setRenderDevice device
  | OpRenderGame => renderGame X Σ
  | OpRender device => render X Σ device
  | OpGetCurrentViewMatrix => getCurrentViewMatrix;; mret tt
  | OpGetCurrentProjectionMatrix => getCurrentProjectionMatrix;; mret tt
  | OpCleanup => cleanup X Σ
  | OpSetUniform c => setUniform c
  | OpGetPass => getPass;; mret tt
  | OpSetPass pass_hash => setPass pass_hash
  | OpGetDebugShader => getDebugShader;; mret tt
  | OpApplyShader shader combination => applyShader X shader combination
  | OpCreate => create X;; mret tt
  | OpDestroy => destroy X
  | OpEnableAlphaToCoverage enable => enableAlphaToCoverage enable
  | OpEnableZTest enable => enableZTest enable
  | OpMakeScreenshot filename width height => makeScreenshot X filename width height
  | OpRenderModel model transform pipeline => renderModel X Σ model transform pipeline
  | OpSetEditorWireframe is_wireframe => setEditorWireframe is_wireframe
  | OpIsEditorWireframe => isEditorWireframe;; mret tt
  | OpGetAttributeNameIndex name => getAttributeNameIndex name;; mret tt
  | OpSetFixedCachedUniform c => setFixedCachedUniform c
  | OpBindGeometry geometry mesh => bindGeometry X Σ geometry mesh
  | OpRenderInstancedGeometry indices_offset vertex_count instance_count shader =>
      renderInstancedGeometry indices_offset vertex_count instance_count shader
  | OpRenderGeometry indices_offset vertex_count =>
      renderGeometry indices_offset vertex_count
  | OpGetUniformLocation shader name => getUniformLocation shader name;; mret tt
  | OpSetUniformAtMatrix location mtx => setUniform_at_Matrix location mtx
  | OpSetUniformAtMatrices location matrices count =>
      setUniform_at_Matrices location matrices count
  | OpSetUniformAtVec3 location value => setUniform_at_Vec3 location value
  | OpSetUniformAtFloat location value => setUniform_at_float location value
  end.

(** The two memo members are null together or set together. *)
Definition memo_inv (w : World) : Prop :=
  is_Some (m_last_bind_geometry (renderer w)) ↔
  is_Some (m_last_bind_geometry_mesh (renderer w)).

(** A computation keeps a property of the world, whenever it runs to its
    end. *)
Definition preserves {A} (P : World -> Prop) (m : M A) : Prop :=
  ∀ w a w' tr, P w → m w = Some (a, w', tr) → P w'.

(** A write to the renderer that leaves the memo alone. *)
Definition memo_frame (f : RendererImpl -> RendererImpl) : Prop :=
  ∀ r, m_last_bind_geometry (f r) = m_last_bind_geometry r ∧
       m_last_bind_geometry_mesh (f r) = m_last_bind_geometry_mesh r.

(** The driver's current program is the one the cache names. *)
Definition program_cache_consistent (w : World) : Prop :=
  gl_current_program (gl w) = m_last_program_id (renderer w).

(** * Further functions of the file *)

(** ** [getGLSLVersion] *)

(** The test of the loop condition: a character from 0 to 9. *)
Definition is_digit (c : Ascii.ascii) : bool :=
  let n := Z.of_N (Ascii.N_of_ascii c) in (48 <=? n) && (n <=? 57).

(** The [while] loop: it consumes the digits the string starts with.  The
    string is the rest of the C string at [version_str]; at its end the
    loop reads the terminating zero, which is no digit. *)
Fixpoint getGLSLVersion_digits (version_str : string) (version : Z) : Z * string :=
  match version_str with
  | String c rest =>
      if is_digit c then
        getGLSLVersion_digits rest
          (wrap_i32 (wrap_i32 (version * 10) + (Z.of_N (Ascii.N_of_ascii c) - 48)))
      else (version, version_str)
  | EmptyString => (version, version_str)
  end.

(** The character ['.'], code 46. *)
Definition dot : Ascii.ascii := Ascii.ascii_of_nat 46.

(** The step over a dot that follows a group of digits. *)
Definition getGLSLVersion_dot (version_str : string) : string :=
  match version_str with
  | String c rest => if Ascii.eqb c dot then rest else version_str
  | EmptyString => version_str
  end.

(** The [for] loop, with [remaining] rounds to go. *)
Fixpoint getGLSLVersion_groups (remaining : nat) (version_str : string) (version : Z)
    : Z :=
  match remaining with
  | O => version
  | S r =>
      let '(version, version_str) := getGLSLVersion_digits version_str version in
      getGLSLVersion_groups r (getGLSLVersion_dot version_str) version
  end.

(** [version_str] is what [glGetString(GL_SHADING_LANGUAGE_VERSION)]
    answers: [None] for a null pointer. *)
Definition getGLSLVersion (version_str : option string) : Z :=
  match version_str with
  | Some s => getGLSLVersion_groups 2 s 0
  | None => 0
  end.

(** The number a string of decimal digits writes, continuing from [acc]. *)
Fixpoint decimal_value (digits : string) (acc : Z) : Z :=
  match digits with
  | String c rest => decimal_value rest (acc * 10 + (Z.of_N (Ascii.N_of_ascii c) - 48))
  | EmptyString => acc
  end.

Fixpoint all_digits (s : string) : bool :=
  match s with
  | String c rest => is_digit c && all_digits rest
  | EmptyString => true
  end.

(** The string does not start with a digit. *)
Definition no_leading_digit (s : string) : bool :=
  match s with
  | String c _ => negb (is_digit c)
  | EmptyString => true
  end.

(** The string starts neither with a digit nor with a dot. *)
Definition no_leading_digit_or_dot (s : string) : bool :=
  match s with
  | String c _ => negb (is_digit c) && negb (Ascii.eqb c dot)
  | EmptyString => true
  end.

(** ** [applyShader] *)

(** The driver call that pushes a matrix to a fixed uniform of a shader:
    none when the shader's program has no such uniform. *)
Definition fixed_matrix_push (sh : Shader) (name : Z) (mtx : Matrix) : list Event :=
  if 0 <=? Shader_getFixedCachedUniformLocation sh name then
    [EvGL (GlUniformMatrix4fv (Shader_getFixedCachedUniformLocation sh name) 1 false
             [mtx])]
  else [].

(** ** Uniform writes on several shaders *)

(** A call of a member [setUniform] or of a free [setFixedCachedUniform]. *)
Inductive AnyUniformCall :=
| ByName (c : UniformCall)
| ByFixedName (c : FixedUniformCall).

Definition any_shader (c : AnyUniformCall) : addr :=
  match c with ByName c => uc_shader c | ByFixedName c => fc_shader c end.

Definition any_arg (c : AnyUniformCall) : UniformArg :=
  match c with ByName c => uc_arg c | ByFixedName c => fc_arg c end.

Definition any_call_ok (c : AnyUniformCall) : Prop :=
  match c with ByName c => uniform_call_ok c | ByFixedName c => fixed_call_ok c end.

(** The location the call resolves on shader [sh]. *)
Definition any_location (sh : Shader) (c : AnyUniformCall) : Z :=
  match c with
  | ByName c => Shader_getUniformLocation sh (uc_name c) (uc_name_hash c)
  | ByFixedName c => Shader_getFixedCachedUniformLocation sh (fc_name c)
  end.

Definition run_any (c : AnyUniformCall) : M unit :=
  match c with ByName c => setUniform c | ByFixedName c => setFixedCachedUniform c end.

(** The driver calls of a sequence of uniform writes, from the program id
    the cache holds: a bind wherever a call that resolves a location is for
    a program other than the cached one. *)
Fixpoint uniform_trace (shs : gmap addr Shader) (cached : Z)
    (calls : list AnyUniformCall) : list Event :=
  match calls with
  | [] => []
  | c :: rest =>
      match shs !! any_shader c with
      | Some sh =>
          if 0 <=? any_location sh c then
            (if cached =? Shader_getProgramId sh then []
             else [EvGL (GlUseProgram (Shader_getProgramId sh))])
            ++ EvGL (uniform_write (any_arg c) (any_location sh c))
            :: uniform_trace shs (Shader_getProgramId sh) rest
          else uniform_trace shs cached rest
      | None => []
      end
  end.

(** How often the program changes along the calls that resolve a location. *)
Fixpoint program_switches (shs : gmap addr Shader) (cached : Z)
    (calls : list AnyUniformCall) : nat :=
  match calls with
  | [] => 0%nat
  | c :: rest =>
      match shs !! any_shader c with
      | Some sh =>
          if 0 <=? any_location sh c then
            (if cached =? Shader_getProgramId sh then 0%nat else 1%nat)
            + program_switches shs (Shader_getProgramId sh) rest
          else program_switches shs cached rest
      | None => 0%nat
      end
  end.

(** Three writes for the concrete engine that go from the shader at 10 to
    the shader at 11 and back. *)
Definition demo_alternating_calls : list AnyUniformCall :=
  [ ByName (mkUniformCall 10 "u_color" 0 (ArgInt 4));
    ByFixedName (mkFixedUniformCall 11 1 (ArgFloat F32.half));
    ByName (mkUniformCall 10 "u_time" 0 (ArgFloat Demo.tenth)) ].

(** ** Frames *)

(** The world in which [render] hands over to the pipeline: depth test
    switched on, blending switched off. *)
Definition render_prepared (w : World) : World :=
  set_gl (gl_exec (GlDisable GL_BLEND) (gl_exec (GlEnable GL_DEPTH_TEST) (gl w))) w.

(** The context is as [cleanup] leaves it. *)
Definition context_clean (w : World) : Prop :=
  m_last_bind_geometry (renderer w) = None ∧
  m_last_bind_geometry_mesh (renderer w) = None ∧
  gl_current_program (gl w) = 0 ∧
  gl_array_buffer (gl w) = 0 ∧
  gl_element_array_buffer (gl w) = 0 ∧
  gl_active_texture (gl w) = 0 ∧
  ∀ u, 0 ≤ u < 16 → bound_texture_2d (gl w) u = 0.

(** ** Degenerate view volumes *)

(** The float is a number: a zero or a finite value, neither an infinity
    nor a NaN. *)
Definition f32_is_number (x : float) : bool :=
  match x with
  | S754_zero _ | S754_finite _ _ _ => true
  | S754_infinity _ | S754_nan => false
  end.

(** ** Instanced draws *)

(** The attribute ids of a shader's current program that are locations
    (not negative), in the order of the table. *)
Definition located_attribs (sh : Shader) : list Z :=
  filter (λ id, 0 ≤ id) (prog_attrib_ids (sh_current sh)).

(** Divisor 0 for each of the ids. *)
Definition zero_divisors (ids : list Z) (d : gmap Z Z) : gmap Z Z :=
  foldl (λ d id, <[id := 0]> d) d ids.

(** ** Vertex layouts across rebinding *)

#[global] Instance VertexDef_eq_dec : EqDecision VertexDef.
Proof. solve_decision. Defined.

(** Scan a trace for vertex-layout setups and teardowns: [open] is the
    layout set up and not yet torn down.  The trace is balanced when every
    setup happens with no layout open, every teardown names the vertex
    definition and shader of the open layout, and no layout is open at the
    end. *)
Fixpoint layouts_balanced (open : option (VertexDef * addr)) (tr : list Event) : bool :=
  match tr with
  | [] => match open with None => true | Some _ => false end
  | EvExt (XVertexDefBegin vd shader _) :: rest =>
      match open with
      | None => layouts_balanced (Some (vd, shader)) rest
      | Some _ => false
      end
  | EvExt (XVertexDefEnd vd shader) :: rest =>
      match open with
      | Some o => if decide (o = (vd, shader)) then layouts_balanced None rest else false
      | None => false
      end
  | _ :: rest => layouts_balanced open rest
  end.

(** The layout the memo records as set up. *)
Definition open_layout (Σ : Scene) (w : World) : option (VertexDef * addr) :=
  '(m, shader) ← m_last_bind_geometry_mesh (renderer w) ≫= scene_mesh_layout Σ;
  Some (mesh_vertex_definition m, shader).

(** The mesh the memo records, if any, is a live mesh of the scene. *)
Definition memo_mesh_live (Σ : Scene) (w : World) : Prop :=
  ∀ prev, m_last_bind_geometry_mesh (renderer w) = Some prev →
          is_Some (scene_mesh_layout Σ prev).

(** A call of [bindGeometry]: the geometry and the mesh. *)
Definition bindGeometry_call (X : Extern) (Σ : Scene) (c : addr * addr) : M unit :=
  bindGeometry X Σ c.1 c.2.

(** ** Buffer binds of a model *)

Definition is_buffer_bind (e : Event) : bool :=
  match e with EvExt (XGeometryBindBuffers _) => true | _ => false end.

(** How often the mesh changes along [meshes], coming from the mesh [last]. *)
Fixpoint mesh_changes (last : option addr) (meshes : list addr) : nat :=
  match meshes with
  | [] => 0
  | mesh :: rest =>
      (if decide (last = Some mesh) then 0 else 1) + mesh_changes (Some mesh) rest
  end.

(** A ready model whose sub-meshes repeat: 30, 30, 31, 31, 30. *)
Definition demo_repeating_model : Model := mkModel true 40 [30; 30; 31; 31; 30].

(** ** The attribute-name registry across operations *)

(** The registry has only grown at its end since it held [names0]. *)
Definition names_extend (names0 : list string) (w : World) : Prop :=
  names0 `prefix_of` m_attribute_names (renderer w).

(** A write to the renderer that leaves the registry alone. *)
Definition names_frame (f : RendererImpl -> RendererImpl) : Prop :=
  ∀ r, m_attribute_names (f r) = m_attribute_names r.

(** Code outside the file only appends to the registry (it can reach it
    through [getAttributeNameIndex] alone). *)
Definition extern_appends (X : Extern) : Prop :=
  ∀ c w, m_attribute_names (renderer w)
           `prefix_of` m_attribute_names (renderer (ext_world X c w)).

(** Operations between two look-ups of the same attribute name. *)
Definition demo_operations : list Op :=
  [ OpGetAttributeNameIndex "in_normal";
    OpBindGeometry 40 30;
    OpSetPass 5;
    OpRenderModel Demo.model Demo.identity 70;
    OpGetAttributeNameIndex "in_tex_coords";
    OpCleanup ].

(** ** The program cache across operations *)

(** The operations that run [cleanup]. *)
Definition runs_cleanup (op : Op) : bool :=
  match op with
  | OpCleanup | OpRender _ | OpRenderGame => true
  | _ => false
  end.

(** A write to the renderer that leaves the program cache alone. *)
Definition program_frame (f : RendererImpl -> RendererImpl) : Prop :=
  ∀ r, m_last_program_id (f r) = m_last_program_id r.

(** Code outside the file that keeps the cache and the driver agreeing:
    driver-only code leaves the current program, engine code leaves the two
    in step. *)
Definition extern_keeps_program (X : Extern) : Prop :=
  (∀ c shs g, gl_current_program (ext_driver X c shs g) = gl_current_program g) ∧
  (∀ c w, program_cache_consistent w → program_cache_consistent (ext_world X c w)).

(** Operations that do not run [cleanup]. *)
Definition demo_frame_operations : list Op :=
  [ OpBindGeometry 40 30;
    OpRenderModel Demo.model Demo.identity 70;
    OpEnableZTest true;
    OpApplyShader 11 0;
    OpRenderInstancedGeometry 0 36 4 11 ].

(** [world0] after [applyShader] on the shader at 10. *)
Definition demo_world_applied : World :=
  match applyShader Demo.extern 10 0 Demo.world0 with
  | Some (_, w, _) => w
  | None => Demo.world0
  end.

(** * Theorems *)

(** ** Running the monad *)

Lemma bind_run {A B} (m : M A) (f : A -> M B) w :
  (m ≫= f) w =
  match m w with
  | Some (a, w1, t1) =>
      match f a w1 with
      | Some (b, w2, t2) => Some (b, w2, t1 ++ t2)
      | None => None
      end
  | None => None
  end.
Proof. reflexivity. Qed.

Lemma after_events_nil {A} (r : option (A * World * list Event)) :
  after_events [] r = r.
Proof. by destruct r as [[[? ?] ?]|]. Qed.

Lemma after_events_app {A} t1 t2 (r : option (A * World * list Event)) :
  after_events t1 (after_events t2 r) = after_events (t1 ++ t2) r.
Proof. destruct r as [[[? ?] ?]|]; [|done]. cbn. by rewrite app_assoc. Qed.

Lemma after_events_some {A} t (a : A) w t' :
  after_events t (Some (a, w, t')) = Some (a, w, t ++ t').
Proof. reflexivity. Qed.

Lemma bind_after {A B} (m : M A) (f : A → M B) w :
  (m ≫= f) w =
  match m w with
  | Some (a, w1, t1) => after_events t1 (f a w1)
  | None => None
  end.
Proof. reflexivity. Qed.

Lemma bind_assoc_run {A B C} (m : M A) (f : A → M B) (g : B → M C) w :
  ((m ≫= f) ≫= g) w = (m ≫= λ a, f a ≫= g) w.
Proof.
  rewrite !bind_after. destruct (m w) as [[[a w1] t1]|]; [|done].
  rewrite !bind_after. destruct (f a w1) as [[[b w2] t2]|]; [|done].
  cbn [after_events]. by rewrite after_events_app.
Qed.

Lemma bind_ret {A B} (a : A) (f : A → M B) w : (mret a ≫= f) w = f a w.
Proof. rewrite bind_after. apply after_events_nil. Qed.

Lemma bind_read {A B} (g : RendererImpl → A) (f : A → M B) w :
  (read g ≫= f) w = f (g (renderer w)) w.
Proof. rewrite bind_after. apply after_events_nil. Qed.

Lemma bind_write {B} g (f : unit → M B) w :
  (write g ≫= f) w = f tt (set_renderer (g (renderer w)) w).
Proof. rewrite bind_after. apply after_events_nil. Qed.

Lemma bind_gl_call {B} c (f : unit → M B) w :
  (gl_call c ≫= f) w = after_events [EvGL c] (f tt (set_gl (gl_exec c (gl w)) w)).
Proof. reflexivity. Qed.

Lemma bind_call_driver {B} X c (f : unit → M B) w :
  (call_driver X c ≫= f) w =
  after_events [EvExt c] (f tt (set_gl (ext_driver X c (shaders w) (gl w)) w)).
Proof. reflexivity. Qed.

Lemma bind_call_world {B} X c (f : Z → M B) w :
  (call_world X c ≫= f) w =
  after_events [EvExt c] (f (ext_result X c w) (ext_world X c w)).
Proof. reflexivity. Qed.

Lemma bind_deref {A B} (o : option A) (f : A → M B) w :
  (deref o ≫= f) w = match o with Some a => f a w | None => None end.
Proof. destruct o; [apply bind_ret|done]. Qed.

Lemma bind_load_shader {B} s (f : Shader → M B) w :
  (load_shader s ≫= f) w =
  match shaders w !! s with Some sh => f sh w | None => None end.
Proof.
  rewrite bind_after. unfold load_shader.
  destruct (shaders w !! s); [apply after_events_nil|done].
Qed.

Lemma bind_store_shader {B} s sh (f : unit → M B) w :
  (store_shader s sh ≫= f) w = f tt (set_shaders (<[s := sh]> (shaders w)) w).
Proof. rewrite bind_after. apply after_events_nil. Qed.

Lemma ret_run {A} (a : A) w : (mret a : M A) w = Some (a, w, []).
Proof. reflexivity. Qed.

Lemma gl_call_run c w :
  gl_call c w = Some (tt, set_gl (gl_exec c (gl w)) w, [EvGL c]).
Proof. reflexivity. Qed.

Lemma call_driver_run X c w :
  call_driver X c w =
  Some (tt, set_gl (ext_driver X c (shaders w) (gl w)) w, [EvExt c]).
Proof. reflexivity. Qed.

Lemma write_run g w : write g w = Some (tt, set_renderer (g (renderer w)) w, []).
Proof. reflexivity. Qed.

Create Rewrite HintDb run.

#[local] Hint Rewrite @bind_assoc_run @bind_ret @bind_read @bind_write @bind_gl_call
  @bind_call_driver @bind_call_world @bind_deref @bind_load_shader
  @bind_store_shader @ret_run gl_call_run call_driver_run write_run
  @after_events_nil @after_events_app @after_events_some : run.

(** ** The uniform setters *)

Lemma uniform_protocol_run locate emit s w sh :
  shaders w !! s = Some sh →
  uniform_protocol locate emit s w =
  if 0 <=? locate sh then
    if m_last_program_id (renderer w) =? Shader_getProgramId sh then
      Some (tt, set_gl (gl_exec (emit (locate sh)) (gl w)) w, [EvGL (emit (locate sh))])
    else
      Some (tt,
            mkWorld (set_m_last_program_id (Shader_getProgramId sh) (renderer w))
                    (gl_exec (emit (locate sh))
                       (gl_exec (GlUseProgram (Shader_getProgramId sh)) (gl w)))
                    (shaders w),
            [EvGL (GlUseProgram (Shader_getProgramId sh)); EvGL (emit (locate sh))])
  else Some (tt, w, []).
Proof.
  intros Hs. unfold uniform_protocol. rewrite bind_run.
  unfold load_shader at 1. rewrite Hs.
  destruct (0 <=? locate sh); [|reflexivity].
  rewrite !bind_run. unfold read at 1. cbn [renderer].
  destruct (m_last_program_id (renderer w) =? Shader_getProgramId sh); reflexivity.
Qed.

Lemma setUniform_protocol c :
  uniform_call_ok c →
  setUniform c =
  uniform_protocol (λ sh, Shader_getUniformLocation sh (uc_name c) (uc_name_hash c))
                   (uniform_write (uc_arg c)) (uc_shader c).
Proof. destruct c as [s n h []]; intros Hok; try reflexivity; destruct Hok. Qed.

Lemma setFixedCachedUniform_protocol c :
  fixed_call_ok c →
  setFixedCachedUniform c =
  uniform_protocol (λ sh, Shader_getFixedCachedUniformLocation sh (fc_name c))
                   (uniform_write (fc_arg c)) (fc_shader c).
Proof. destruct c as [s n []]; intros Hok; try reflexivity; destruct Hok. Qed.

Lemma gl_exec_uniform_write a loc g :
  gl_exec (uniform_write a loc) g = gl_write_uniform loc (uniform_data a) g.
Proof. by destruct a. Qed.

Lemma gl_write_uniform_program loc d g :
  gl_current_program (gl_write_uniform loc d g) = gl_current_program g.
Proof. unfold gl_write_uniform. by destruct (gl_current_program g =? 0). Qed.

Lemma gl_write_uniform_lookup loc d g :
  gl_current_program g ≠ 0 →
  gl_uniforms (gl_write_uniform loc d g) !! (gl_current_program g, loc) = Some d.
Proof.
  intros Hp. unfold gl_write_uniform.
  destruct (Z.eqb_spec (gl_current_program g) 0) as [E|_]; [done|].
  cbn. apply lookup_insert_eq.
Qed.

Lemma uniform_protocol_contract locate s arg w sh :
  shaders w !! s = Some sh →
  uniform_contract (uniform_protocol locate (uniform_write arg) s) sh (locate sh) arg w.
Proof.
  intros Hs. unfold uniform_contract.
  rewrite (uniform_protocol_run _ _ _ _ _ Hs).
  split; [|split].
  - intros Hneg. destruct (Z.leb_spec 0 (locate sh)); [lia|done].
  - intros Hpos Hne.
    destruct (Z.leb_spec 0 (locate sh)); [|lia].
    destruct (Z.eqb_spec (m_last_program_id (renderer w)) (Shader_getProgramId sh));
      [done|].
    eexists. split; [reflexivity|]. cbn [renderer gl shaders].
    rewrite !gl_exec_uniform_write, gl_write_uniform_program.
    repeat split; try reflexivity.
    intros Hp. by apply (gl_write_uniform_lookup _ _
      (gl_exec (GlUseProgram (Shader_getProgramId sh)) (gl w))).
  - intros Hpos Heq.
    destruct (Z.leb_spec 0 (locate sh)); [|lia].
    by destruct (Z.eqb_spec (m_last_program_id (renderer w)) (Shader_getProgramId sh)).
Qed.

Lemma setUniform_obeys c w sh :
  uniform_call_ok c →
  shaders w !! uc_shader c = Some sh →
  uniform_contract (setUniform c) sh
    (Shader_getUniformLocation sh (uc_name c) (uc_name_hash c)) (uc_arg c) w.
Proof.
  intros Hok Hs. rewrite (setUniform_protocol c Hok).
  exact (uniform_protocol_contract
           (λ sh, Shader_getUniformLocation sh (uc_name c) (uc_name_hash c))
           _ _ _ _ Hs).
Qed.

Lemma setFixedCachedUniform_obeys c w sh :
  fixed_call_ok c →
  shaders w !! fc_shader c = Some sh →
  uniform_contract (setFixedCachedUniform c) sh
    (Shader_getFixedCachedUniformLocation sh (fc_name c)) (fc_arg c) w.
Proof.
  intros Hok Hs. rewrite (setFixedCachedUniform_protocol c Hok).
  exact (uniform_protocol_contract
           (λ sh, Shader_getFixedCachedUniformLocation sh (fc_name c))
           _ _ _ _ Hs).
Qed.

(** C2.  Every overload of [setUniform] and of [setFixedCachedUniform],
    called on a live shader, resolves the location on the shader; a negative
    location makes the call a no-op (no driver call, the world unchanged);
    with a location and a cached program id that differs from the shader's,
    the call issues [glUseProgram] and updates the cache before the uniform
    write, so that the write lands in the program that is bound. *)
Theorem setUniform_contract :
  (∀ c w sh,
     uniform_call_ok c →
     shaders w !! uc_shader c = Some sh →
     uniform_contract (setUniform c) sh
       (Shader_getUniformLocation sh (uc_name c) (uc_name_hash c)) (uc_arg c) w) ∧
  (∀ c w sh,
     fixed_call_ok c →
     shaders w !! fc_shader c = Some sh →
     uniform_contract (setFixedCachedUniform c) sh
       (Shader_getFixedCachedUniformLocation sh (fc_name c)) (fc_arg c) w).
Proof. split; [exact setUniform_obeys | exact setFixedCachedUniform_obeys]. Qed.

(** ** Sequences of [setUniform] calls on one shader *)

Lemma run_all_cons {A} (run : A → M unit) c rest w :
  run_all run (c :: rest) w =
  match run c w with
  | Some (_, w1, t1) =>
      match run_all run rest w1 with
      | Some (b, w2, t2) => Some (b, w2, t1 ++ t2)
      | None => None
      end
  | None => None
  end.
Proof. cbn [run_all]. rewrite bind_run. by destruct (run c w) as [[[[] ?] ?]|]. Qed.

(** Once the cache holds the shader's program id, no call binds again. *)
Lemma setUniform_seq_bound calls s sh w :
  shaders w !! s = Some sh →
  Forall (λ c, uc_shader c = s ∧ uniform_call_ok c) calls →
  m_last_program_id (renderer w) = Shader_getProgramId sh →
  ∃ w',
    run_all setUniform calls w = Some (tt, w', setUniform_trace sh true calls) ∧
    renderer w' = renderer w ∧ shaders w' = shaders w.
Proof.
  intros Hs Hall. revert w Hs.
  induction Hall as [|c rest [Hc Hok] _ IH]; intros w Hs Hcache.
  - exists w. done.
  - rewrite run_all_cons. subst s.
    pose proof (setUniform_obeys c w sh Hok Hs) as (Hneg & _ & Heq).
    cbn [setUniform_trace].
    destruct (resolves sh c) eqn:Hres; unfold resolves in Hres;
      [apply Z.leb_le in Hres as Hpos | apply Z.leb_gt in Hres as Hlt].
    + rewrite (Heq Hpos Hcache).
      destruct (IH (set_gl (gl_exec (uniform_write (uc_arg c)
                     (Shader_getUniformLocation sh (uc_name c) (uc_name_hash c)))
                     (gl w)) w) Hs Hcache) as (w' & Hrun & Hr & Hsh).
      rewrite Hrun. exists w'. done.
    + rewrite (Hneg Hlt).
      destruct (IH w Hs Hcache) as (w' & Hrun & Hr & Hsh).
      rewrite Hrun. exists w'. done.
Qed.

Lemma setUniform_seq_unbound calls s sh w :
  shaders w !! s = Some sh →
  Forall (λ c, uc_shader c = s ∧ uniform_call_ok c) calls →
  m_last_program_id (renderer w) ≠ Shader_getProgramId sh →
  ∃ w',
    run_all setUniform calls w = Some (tt, w', setUniform_trace sh false calls) ∧
    m_last_program_id (renderer w') =
      (if existsb (resolves sh) calls then Shader_getProgramId sh
       else m_last_program_id (renderer w)).
Proof.
  intros Hs Hall. revert w Hs.
  induction Hall as [|c rest [Hc Hok] Hrest IH]; intros w Hs Hcache.
  - exists w. done.
  - rewrite run_all_cons. subst s.
    pose proof (setUniform_obeys c w sh Hok Hs) as (Hneg & Hne & _).
    cbn [setUniform_trace existsb].
    destruct (resolves sh c) eqn:Hres; unfold resolves in Hres;
      [apply Z.leb_le in Hres as Hpos | apply Z.leb_gt in Hres as Hlt].
    + destruct (Hne Hpos Hcache) as (w1 & Hrun1 & Hr1 & _ & Hsh1 & _).
      rewrite Hrun1.
      assert (Hs1 : shaders w1 !! uc_shader c = Some sh) by by rewrite Hsh1.
      assert (Hc1 : m_last_program_id (renderer w1) = Shader_getProgramId sh)
        by by rewrite Hr1.
      destruct (setUniform_seq_bound rest _ sh w1 Hs1 Hrest Hc1)
        as (w' & Hrun & Hr & _).
      rewrite Hrun. exists w'. split; [done|]. cbn [orb]. by rewrite Hr.
    + rewrite (Hneg Hlt).
      destruct (IH w Hs Hcache) as (w' & Hrun & Hr).
      rewrite Hrun. exists w'. done.
Qed.

Lemma bind_count_uniform_write a loc tr :
  bind_count (EvGL (uniform_write a loc) :: tr) = bind_count tr.
Proof. by destruct a. Qed.

Lemma bind_count_use_program p tr :
  bind_count (EvGL (GlUseProgram p) :: tr) = S (bind_count tr).
Proof. reflexivity. Qed.

Lemma bind_count_bound sh calls : bind_count (setUniform_trace sh true calls) = 0%nat.
Proof.
  induction calls as [|c rest IH]; [done|]. cbn [setUniform_trace].
  destruct (resolves sh c); [|done].
  cbn [app]. by rewrite bind_count_uniform_write.
Qed.

Lemma bind_count_unbound sh calls :
  bind_count (setUniform_trace sh false calls) =
  (if existsb (resolves sh) calls then 1 else 0)%nat.
Proof.
  induction calls as [|c rest IH]; [done|]. cbn [setUniform_trace existsb].
  destruct (resolves sh c); [|done].
  cbn [app orb].
  by rewrite bind_count_use_program, bind_count_uniform_write, bind_count_bound.
Qed.

(** C1.  A sequence of [setUniform] calls, of any overloads, that all target
    one live shader, started with a cached program id other than the
    shader's: the sequence runs to its end and calls [glUseProgram] at most
    once, namely in the first call that resolves a location, which also
    updates the cache; every later call skips the bind. *)
Theorem setUniform_binds_at_most_once calls s sh w :
  shaders w !! s = Some sh →
  Forall (λ c, uc_shader c = s ∧ uniform_call_ok c) calls →
  m_last_program_id (renderer w) ≠ Shader_getProgramId sh →
  ∃ w' tr,
    run_all setUniform calls w = Some (tt, w', tr) ∧
    tr = setUniform_trace sh false calls ∧
    (bind_count tr ≤ 1)%nat ∧
    bind_count tr = (if existsb (resolves sh) calls then 1 else 0)%nat ∧
    m_last_program_id (renderer w') =
      (if existsb (resolves sh) calls then Shader_getProgramId sh
       else m_last_program_id (renderer w)).
Proof.
  intros Hs Hall Hcache.
  destruct (setUniform_seq_unbound calls s sh w Hs Hall Hcache) as (w' & Hrun & Hr).
  exists w', (setUniform_trace sh false calls).
  rewrite bind_count_unbound.
  repeat split; try done.
  destruct (existsb (resolves sh) calls); lia.
Qed.

(** ** The geometry binder *)

Lemma mesh_layout_run Σ a w :
  mesh_layout Σ (Some a) w =
  match scene_mesh_layout Σ a with
  | Some r => Some (r, w, [])
  | None => None
  end.
Proof.
  unfold mesh_layout, scene_mesh_layout. autorewrite with run.
  destruct (sc_meshes Σ !! a) as [m|]; [|done]. cbn [mbind option_bind].
  autorewrite with run.
  destruct (mesh_material m) as [mat|]; [|done]. cbn [mbind option_bind].
  autorewrite with run.
  destruct (sc_materials Σ !! mat) as [material|]; [|done]. cbn [mbind option_bind].
  autorewrite with run.
  destruct (mat_shader material) as [shader|]; done.
Qed.

Lemma bind_mesh_layout {B} Σ a (f : Mesh * addr → M B) w :
  (mesh_layout Σ (Some a) ≫= f) w =
  match scene_mesh_layout Σ a with Some r => f r w | None => None end.
Proof.
  rewrite bind_after, mesh_layout_run.
  destruct (scene_mesh_layout Σ a); [apply after_events_nil|done].
Qed.

Lemma bindGeometry_same X Σ geometry mesh w :
  m_last_bind_geometry_mesh (renderer w) = Some mesh →
  bindGeometry X Σ geometry mesh w = Some (tt, w, []).
Proof.
  intros Hlast. unfold bindGeometry. rewrite bind_run. unfold read at 1.
  rewrite Hlast. by rewrite decide_False by (intros H; by apply H).
Qed.

Lemma bindGeometry_rebind X Σ geometry mesh w m shader :
  m_last_bind_geometry_mesh (renderer w) ≠ Some mesh →
  scene_mesh_layout Σ mesh = Some (m, shader) →
  (∀ prev, m_last_bind_geometry_mesh (renderer w) = Some prev →
           is_Some (scene_mesh_layout Σ prev)) →
  let calls :=
    rebind_calls Σ (m_last_bind_geometry_mesh (renderer w)) geometry m shader in
  bindGeometry X Σ geometry mesh w =
  Some (tt,
        mkWorld (set_m_last_bind_geometry_mesh (Some mesh)
                   (set_m_last_bind_geometry (Some geometry) (renderer w)))
                (driver_after X calls w)
                (shaders w),
        map EvExt calls).
Proof.
  intros Hne Hmesh Hprev calls. subst calls.
  unfold bindGeometry, rebind_calls, driver_after.
  rewrite bind_read, decide_True by done.
  destruct (m_last_bind_geometry_mesh (renderer w)) as [prev|] eqn:Hlast.
  - destruct (Hprev prev eq_refl) as [[pm pshader] Hp].
    cbn [mbind option_bind]. rewrite Hp.
    rewrite bind_assoc_run, bind_mesh_layout, Hp.
    autorewrite with run. rewrite bind_mesh_layout, Hmesh.
    autorewrite with run. reflexivity.
  - autorewrite with run. rewrite bind_mesh_layout, Hmesh.
    autorewrite with run. reflexivity.
Qed.

Lemma bindGeometry_memo X Σ geometry mesh w w' tr :
  bindGeometry X Σ geometry mesh w = Some (tt, w', tr) →
  m_last_bind_geometry_mesh (renderer w') = Some mesh.
Proof.
  unfold bindGeometry. rewrite bind_read.
  destruct (decide (m_last_bind_geometry_mesh (renderer w) ≠ Some mesh)) as [Hne|He].
  - intros Hrun.
    destruct (m_last_bind_geometry_mesh (renderer w)) as [prev|] eqn:Hlast.
    + rewrite bind_assoc_run, bind_mesh_layout in Hrun.
      destruct (scene_mesh_layout Σ prev) as [[pm pshader]|]; [|done].
      autorewrite with run in Hrun. rewrite bind_mesh_layout in Hrun.
      destruct (scene_mesh_layout Σ mesh) as [[m shader]|]; [|done].
      autorewrite with run in Hrun. by injection Hrun as <- _.
    + autorewrite with run in Hrun. rewrite bind_mesh_layout in Hrun.
      destruct (scene_mesh_layout Σ mesh) as [[m shader]|]; [|done].
      autorewrite with run in Hrun. by injection Hrun as <- _.
  - intros Hrun. injection Hrun as <- _.
    by destruct (decide (m_last_bind_geometry_mesh (renderer w) = Some mesh)).
Qed.

(** C3.  [bindGeometry(renderer, geometry, mesh)]:
    - when [mesh] is the mesh bound last, the call does nothing at all;
    - otherwise, with the mesh bound before (if any) and the new mesh live,
      it tears down the layout of the mesh bound before against that mesh's
      own shader, binds the buffers of [geometry], records [geometry] and
      [mesh] in the memo and sets up the layout of [mesh] against the shader
      of [mesh] at its attribute-array offset, in this order and with no
      other call;
    - so a call that follows a completed call for the same mesh is a no-op. *)
Theorem bindGeometry_contract X Σ geometry mesh w :
  (m_last_bind_geometry_mesh (renderer w) = Some mesh →
   bindGeometry X Σ geometry mesh w = Some (tt, w, [])) ∧
  (∀ m shader,
     m_last_bind_geometry_mesh (renderer w) ≠ Some mesh →
     scene_mesh_layout Σ mesh = Some (m, shader) →
     (∀ prev, m_last_bind_geometry_mesh (renderer w) = Some prev →
              is_Some (scene_mesh_layout Σ prev)) →
     let calls :=
       rebind_calls Σ (m_last_bind_geometry_mesh (renderer w)) geometry m shader in
     bindGeometry X Σ geometry mesh w =
     Some (tt,
           mkWorld (set_m_last_bind_geometry_mesh (Some mesh)
                      (set_m_last_bind_geometry (Some geometry) (renderer w)))
                   (driver_after X calls w)
                   (shaders w),
           map EvExt calls)) ∧
  (∀ w' tr geometry',
     bindGeometry X Σ geometry mesh w = Some (tt, w', tr) →
     bindGeometry X Σ geometry' mesh w' = Some (tt, w', [])).
Proof.
  split; [apply bindGeometry_same|split].
  - intros m shader. apply bindGeometry_rebind.
  - intros w' tr geometry' Hrun.
    apply bindGeometry_same. exact (bindGeometry_memo _ _ _ _ _ _ _ Hrun).
Qed.

(** ** [cleanup] *)

Lemma cleanup_textures_run n i w :
  cleanup_textures n i w =
  Some (tt, set_gl (gl_run (cleanup_texture_calls n i) (gl w)) w,
        map EvGL (cleanup_texture_calls n i)).
Proof.
  revert i w. induction n as [|n IH]; intros i w.
  - by destruct w.
  - cbn [cleanup_textures cleanup_texture_calls]. autorewrite with run.
    rewrite IH. reflexivity.
Qed.

Lemma bind_cleanup_textures {B} n i (f : unit → M B) w :
  (cleanup_textures n i ≫= f) w =
  after_events (map EvGL (cleanup_texture_calls n i))
    (f tt (set_gl (gl_run (cleanup_texture_calls n i) (gl w)) w)).
Proof. by rewrite bind_after, cleanup_textures_run. Qed.

Lemma gl_run_cleanup g : gl_run cleanup_gl_calls g = gl_cleaned g.
Proof. reflexivity. Qed.

Lemma clear_units_lookup n i (t : gmap Z Z) k :
  clear_units n i t !! k =
  if decide (i ≤ k < i + Z.of_nat n) then Some 0 else t !! k.
Proof.
  revert i t. induction n as [|n IH]; intros i t.
  - cbn [clear_units]. case_decide; [lia|done].
  - cbn [clear_units]. rewrite IH, lookup_insert.
    repeat case_decide; try done; lia.
Qed.

Lemma gl_cleaned_idem g : gl_cleaned (gl_cleaned g) = gl_cleaned g.
Proof.
  unfold gl_cleaned at 1 3. cbn [gl_viewport gl_enabled gl_uniforms gl_attrib_enabled
    gl_attrib_divisor gl_unpack_alignment]. f_equal.
  apply map_eq. intros k. unfold gl_cleaned. cbn [gl_texture_2d].
  rewrite !clear_units_lookup. by case_decide.
Qed.

(** The tail of [cleanup], after the teardown. *)
Lemma cleanup_tail_run w :
  (write (set_m_last_bind_geometry None);;
   write (set_m_last_bind_geometry_mesh None);;
   gl_call (GlBindBuffer GL_ARRAY_BUFFER 0);;
   gl_call (GlBindBuffer GL_ELEMENT_ARRAY_BUFFER 0);;
   gl_call (GlUseProgram 0);;
   cleanup_textures 16 0;;
   gl_call (GlActiveTexture GL_TEXTURE0)) w =
  Some (tt, mkWorld (clear_memo (renderer w)) (gl_cleaned (gl w)) (shaders w),
        map EvGL cleanup_gl_calls).
Proof.
  autorewrite with run. rewrite bind_cleanup_textures. autorewrite with run.
  reflexivity.
Qed.

Lemma cleanup_unbound X Σ w :
  m_last_bind_geometry (renderer w) = None →
  cleanup X Σ w =
  Some (tt, mkWorld (clear_memo (renderer w)) (gl_cleaned (gl w)) (shaders w),
        map EvGL cleanup_gl_calls).
Proof.
  intros Hg. unfold cleanup. rewrite bind_read, Hg, bind_ret.
  apply cleanup_tail_run.
Qed.

Lemma cleanup_bound X Σ w g mesh m shader :
  m_last_bind_geometry (renderer w) = Some g →
  m_last_bind_geometry_mesh (renderer w) = Some mesh →
  scene_mesh_layout Σ mesh = Some (m, shader) →
  cleanup X Σ w =
  Some (tt,
        mkWorld (clear_memo (renderer w))
                (gl_cleaned
                   (ext_driver X (XVertexDefEnd (mesh_vertex_definition m) shader)
                      (shaders w) (gl w)))
                (shaders w),
        EvExt (XVertexDefEnd (mesh_vertex_definition m) shader)
        :: map EvGL cleanup_gl_calls).
Proof.
  intros Hg Hmesh Hlayout. unfold cleanup. rewrite bind_read, Hg.
  rewrite bind_assoc_run, bind_read, Hmesh, bind_assoc_run, bind_mesh_layout, Hlayout.
  rewrite bind_call_driver, cleanup_tail_run. reflexivity.
Qed.

(** Whatever [cleanup] starts from, the world it ends in is a cleaned one. *)
Lemma cleanup_result X Σ w w1 tr :
  cleanup X Σ w = Some (tt, w1, tr) →
  ∃ g, w1 = mkWorld (clear_memo (renderer w)) (gl_cleaned g) (shaders w).
Proof.
  destruct (m_last_bind_geometry (renderer w)) as [g|] eqn:Hg.
  - unfold cleanup. rewrite bind_read, Hg.
    rewrite bind_assoc_run, bind_read.
    destruct (m_last_bind_geometry_mesh (renderer w)) as [mesh|]; [|done].
    rewrite bind_assoc_run, bind_mesh_layout.
    destruct (scene_mesh_layout Σ mesh) as [[m shader]|]; [|done].
    rewrite bind_call_driver, cleanup_tail_run. intros [= <- _]. eauto.
  - rewrite (cleanup_unbound _ _ _ Hg). intros [= <- _]. eauto.
Qed.

Lemma gl_cleaned_texture g u : 0 ≤ u < 16 → bound_texture_2d (gl_cleaned g) u = 0.
Proof.
  intros Hu. unfold bound_texture_2d, gl_cleaned. cbn [gl_texture_2d].
  rewrite clear_units_lookup. by rewrite decide_True by lia.
Qed.

Lemma no_teardown_in_cleanup_gl_calls :
  filter is_teardown (map EvGL cleanup_gl_calls) = [].
Proof. reflexivity. Qed.

(** C5.  [cleanup] is idempotent.  When the recorded binding can be torn
    down, [cleanup] runs to its end; and from every world in which a first
    call has run to its end, a second call right after it
    - runs to its end in exactly the world the first call left,
    - makes only the driver calls of the unbinding, with no layout teardown,
      since the first call cleared the memo;
    and in that world no program is current, no vertex or index buffer is
    bound, units 0 to 15 have no 2D texture, unit 0 is active, and the
    geometry and mesh memo is cleared. *)
Theorem cleanup_idempotent X Σ w :
  (memo_live Σ w → ∃ w1 tr1, cleanup X Σ w = Some (tt, w1, tr1)) ∧
  (∀ w1 tr1,
     cleanup X Σ w = Some (tt, w1, tr1) →
     cleanup X Σ w1 = Some (tt, w1, map EvGL cleanup_gl_calls) ∧
     (cleanup X Σ;; cleanup X Σ) w = Some (tt, w1, tr1 ++ map EvGL cleanup_gl_calls) ∧
     filter is_teardown (map EvGL cleanup_gl_calls) = [] ∧
     gl_current_program (gl w1) = 0 ∧
     gl_array_buffer (gl w1) = 0 ∧
     gl_element_array_buffer (gl w1) = 0 ∧
     (∀ u, 0 ≤ u < 16 → bound_texture_2d (gl w1) u = 0) ∧
     gl_active_texture (gl w1) = 0 ∧
     m_last_bind_geometry (renderer w1) = None ∧
     m_last_bind_geometry_mesh (renderer w1) = None).
Proof.
  split.
  - intros Hlive.
    destruct (m_last_bind_geometry (renderer w)) as [g|] eqn:Hg.
    + destruct (Hlive (ltac:(eauto))) as (mesh & Hmesh & [[m shader] Hlayout]).
      rewrite (cleanup_bound _ _ _ _ _ _ _ Hg Hmesh Hlayout). eauto.
    + rewrite (cleanup_unbound _ _ _ Hg). eauto.
  - intros w1 tr1 Hrun.
    destruct (cleanup_result _ _ _ _ _ Hrun) as [g ->].
    assert (Hsecond :
      cleanup X Σ (mkWorld (clear_memo (renderer w)) (gl_cleaned g) (shaders w)) =
      Some (tt, mkWorld (clear_memo (renderer w)) (gl_cleaned g) (shaders w),
            map EvGL cleanup_gl_calls)).
    { rewrite cleanup_unbound by reflexivity. cbn [renderer gl shaders].
      by rewrite gl_cleaned_idem. }
    split; [exact Hsecond|].
    split; [by rewrite bind_after, Hrun, Hsecond|].
    split; [reflexivity|].
    repeat split; try reflexivity.
    intros u Hu. by apply gl_cleaned_texture.
Qed.

(** ** [renderModel] *)

Lemma renderModel_mesh_at X Σ model transform pipeline i mesh w :
  model_meshes model !! i = Some mesh →
  renderModel_mesh X Σ model transform pipeline i w =
  render_mesh X Σ (model_geometry model) transform pipeline mesh w.
Proof.
  intros Hi. unfold renderModel_mesh, render_mesh. by rewrite bind_deref, Hi.
Qed.

(** The index loop visits the meshes in the order of the list. *)
Lemma renderModel_loop_run X Σ model transform pipeline rest :
  ∀ i w,
    drop i (model_meshes model) = rest →
    renderModel_loop X Σ model transform pipeline (length rest) i w =
    run_all (render_mesh X Σ (model_geometry model) transform pipeline) rest w.
Proof.
  induction rest as [|mesh rest IH]; intros i w Hdrop; [done|].
  assert (Hi : model_meshes model !! i = Some mesh).
  { rewrite <- (Nat.add_0_r i), <- lookup_drop, Hdrop. done. }
  cbn [length renderModel_loop run_all]. rewrite !bind_after.
  rewrite (renderModel_mesh_at _ _ _ _ _ _ _ _ Hi).
  destruct (render_mesh _ _ _ _ _ _ w) as [[[[] w1] t1]|]; [|done].
  rewrite IH; [done|].
  rewrite (drop_S _ _ _ Hi) in Hdrop. by injection Hdrop.
Qed.

Lemma setFixedCachedUniform_Matrix_frame s name mtx w sh :
  shaders w !! s = Some sh →
  ∃ w' tr,
    setFixedCachedUniform_Matrix s name mtx w = Some (tt, w', tr) ∧
    shaders w' = shaders w ∧
    m_last_bind_geometry (renderer w') = m_last_bind_geometry (renderer w) ∧
    m_last_bind_geometry_mesh (renderer w') = m_last_bind_geometry_mesh (renderer w) ∧
    filter (λ e, is_material_apply e || is_draw e) tr = [].
Proof.
  intros Hs.
  change (setFixedCachedUniform_Matrix s name mtx)
    with (uniform_protocol (λ sh, Shader_getFixedCachedUniformLocation sh name)
            (λ loc, GlUniformMatrix4fv loc 1 false [mtx]) s).
  rewrite (uniform_protocol_run _ _ _ _ _ Hs).
  destruct (0 <=? _); [|by eauto 10].
  destruct (_ =? _); eexists _, _; (split; [reflexivity|done]).
Qed.

Lemma rebind_calls_filter Σ last geometry m shader :
  filter (λ e, is_material_apply e || is_draw e)
         (map EvExt (rebind_calls Σ last geometry m shader)) = [].
Proof.
  unfold rebind_calls. by destruct (last ≫= scene_mesh_layout Σ) as [[??]|].
Qed.

Lemma bindGeometry_live X Σ geometry mesh w :
  scene_live Σ w →
  is_Some (scene_mesh_layout Σ mesh) →
  ∃ w' tr,
    bindGeometry X Σ geometry mesh w = Some (tt, w', tr) ∧
    scene_live Σ w' ∧
    filter (λ e, is_material_apply e || is_draw e) tr = [].
Proof.
  intros [Hsh Hmemo] [[m shader] Hmesh].
  destruct (decide (m_last_bind_geometry_mesh (renderer w) = Some mesh)) as [He|Hne].
  - rewrite (bindGeometry_same _ _ _ _ _ He). exists w, []. done.
  - rewrite (bindGeometry_rebind _ _ _ _ _ _ _ Hne Hmesh Hmemo).
    eexists _, _. split; [reflexivity|]. split; [|apply rebind_calls_filter].
    split; cbn [renderer shaders set_m_last_bind_geometry_mesh
                m_last_bind_geometry_mesh]; [done|].
    intros prev [= <-]. by rewrite Hmesh.
Qed.

Lemma scene_mesh_layout_parts Σ mesh m shader :
  scene_mesh_layout Σ mesh = Some (m, shader) →
  ∃ mat material,
    sc_meshes Σ !! mesh = Some m ∧ mesh_material m = Some mat ∧
    sc_materials Σ !! mat = Some material ∧ mat_shader material = Some shader.
Proof.
  unfold scene_mesh_layout.
  destruct (sc_meshes Σ !! mesh) as [m'|]; [|done]. cbn [mbind option_bind].
  destruct (mesh_material m') as [mat|] eqn:Hmat; [|done]. cbn [mbind option_bind].
  destruct (sc_materials Σ !! mat) as [material|] eqn:Hmaterial; [|done].
  cbn [mbind option_bind].
  destruct (mat_shader material) as [shader'|] eqn:Hshader; [|done].
  intros [= -> ->]. eauto 10.
Qed.

Lemma render_mesh_run X Σ geometry transform pipeline mesh w :
  (∀ mat p w, scene_live Σ w → scene_live Σ (ext_world X (XMaterialApply mat p) w)) →
  scene_live Σ w →
  is_Some (scene_mesh_layout Σ mesh) →
  ∃ w' tr,
    render_mesh X Σ geometry transform pipeline mesh w = Some (tt, w', tr) ∧
    scene_live Σ w' ∧
    filter (λ e, is_material_apply e || is_draw e) tr =
      mesh_apply_and_draw Σ pipeline mesh.
Proof.
  intros HX Hlive [[m shader] Hmesh].
  destruct (scene_mesh_layout_parts _ _ _ _ Hmesh)
    as (mat & material & Hm & Hmat & Hmaterial & Hshader).
  unfold render_mesh, mesh_apply_and_draw. rewrite Hmesh.
  rewrite bind_deref, Hm, bind_deref, Hmat, bind_deref, Hmaterial, bind_call_world.
  rewrite bind_mesh_layout, Hmesh. cbn [default].
  specialize (HX mat pipeline w Hlive).
  set (w1 := ext_world X (XMaterialApply mat pipeline) w) in *.
  destruct (proj1 HX _ _ _ Hmesh) as [sh Hsh].
  destruct (setFixedCachedUniform_Matrix_frame shader
              (fixed_cached_uniform_index X WORLD_MATRIX) transform w1 sh Hsh)
    as (w2 & t2 & Hrun2 & Hsh2 & _ & Hmemo2 & Hf2).
  rewrite bind_after, Hrun2.
  assert (Hlive2 : scene_live Σ w2).
  { destruct HX as [H1 H2]. split; [by rewrite Hsh2|by rewrite Hmemo2]. }
  destruct (bindGeometry_live X Σ geometry mesh w2 Hlive2 (ltac:(by rewrite Hmesh)))
    as (w3 & t3 & Hrun3 & Hlive3 & Hf3).
  rewrite bind_after, Hrun3. unfold renderGeometry. rewrite gl_call_run.
  cbn [after_events]. eexists _, _. split; [reflexivity|]. split.
  - destruct Hlive3 as [H1 H2]. split; done.
  - by rewrite !filter_app, Hf2, Hf3.
Qed.

Lemma render_meshes_run X Σ geometry transform pipeline meshes :
  (∀ mat p w, scene_live Σ w → scene_live Σ (ext_world X (XMaterialApply mat p) w)) →
  Forall (λ mesh, is_Some (scene_mesh_layout Σ mesh)) meshes →
  ∀ w,
    scene_live Σ w →
    ∃ w' tr,
      run_all (render_mesh X Σ geometry transform pipeline) meshes w
        = Some (tt, w', tr) ∧
      scene_live Σ w' ∧
      filter (λ e, is_material_apply e || is_draw e) tr =
        flat_map (mesh_apply_and_draw Σ pipeline) meshes.
Proof.
  intros HX Hall. induction Hall as [|mesh rest Hmesh _ IH]; intros w Hlive.
  - exists w, []. done.
  - destruct (render_mesh_run X Σ geometry transform pipeline mesh w HX Hlive Hmesh)
      as (w1 & t1 & Hrun1 & Hlive1 & Hf1).
    destruct (IH w1 Hlive1) as (w' & tr & Hrun & Hlive' & Hf).
    rewrite run_all_cons, Hrun1, Hrun. exists w', (t1 ++ tr).
    split; [done|]. split; [done|].
    cbn [flat_map]. by rewrite filter_app, Hf1, Hf.
Qed.

(** C6.  [renderModel(model, transform, pipeline)]:
    - for a model that is not ready it returns at once: no call of any kind
      (no draw, no material application, no program bind) and the world
      unchanged;
    - for a ready model it handles the sub-meshes in the order of their
      indices, 0 to [getMeshCount() - 1], each one by applying its material,
      pushing [transform] as the world-matrix fixed uniform, binding its
      geometry through [bindGeometry] and drawing;
    - and when the meshes are live and material code keeps the scene live,
      it runs to its end, and the material applications and draws it issues
      are, in order, one application of the mesh's material and one
      [glDrawElements] with the mesh's index count and offset per mesh. *)
Theorem renderModel_contract X Σ model transform pipeline w :
  (model_ready model = false →
   renderModel X Σ model transform pipeline w = Some (tt, w, [])) ∧
  (model_ready model = true →
   renderModel X Σ model transform pipeline w =
   run_all (render_mesh X Σ (model_geometry model) transform pipeline)
           (model_meshes model) w) ∧
  (model_ready model = true →
   (∀ mat p w, scene_live Σ w → scene_live Σ (ext_world X (XMaterialApply mat p) w)) →
   Forall (λ mesh, is_Some (scene_mesh_layout Σ mesh)) (model_meshes model) →
   scene_live Σ w →
   ∃ w' tr,
     renderModel X Σ model transform pipeline w = Some (tt, w', tr) ∧
     filter (λ e, is_material_apply e || is_draw e) tr =
       flat_map (mesh_apply_and_draw Σ pipeline) (model_meshes model)).
Proof.
  assert (Hloop : model_ready model = true →
    renderModel X Σ model transform pipeline w =
    run_all (render_mesh X Σ (model_geometry model) transform pipeline)
            (model_meshes model) w).
  { intros Hready. unfold renderModel. rewrite Hready. cbn [negb].
    by apply renderModel_loop_run. }
  split; [|split].
  - intros Hready. unfold renderModel. by rewrite Hready.
  - exact Hloop.
  - intros Hready HX Hall Hlive. rewrite (Hloop Hready).
    destruct (render_meshes_run X Σ (model_geometry model) transform pipeline
                (model_meshes model) HX Hall w Hlive) as (w' & tr & Hrun & _ & Hf).
    eauto.
Qed.

(** ** The attribute-name registry *)

Lemma getAttributeNameIndex_search_run name w :
  ∀ remaining i,
    remaining = length (drop i (m_attribute_names (renderer w))) →
    getAttributeNameIndex_search name remaining i w =
    Some ((λ p, Z.of_nat (i + p.1)) <$>
            list_find (λ n, n = name) (drop i (m_attribute_names (renderer w))),
          w, []).
Proof.
  induction remaining as [|r IH]; intros i Hlen.
  - symmetry in Hlen. apply length_zero_iff_nil in Hlen. by rewrite Hlen.
  - destruct (drop i (m_attribute_names (renderer w))) as [|x rest] eqn:Hdrop;
      [done|].
    assert (Hi : m_attribute_names (renderer w) !! i = Some x).
    { rewrite <- (Nat.add_0_r i), <- lookup_drop, Hdrop. done. }
    assert (Hrest : drop (S i) (m_attribute_names (renderer w)) = rest).
    { rewrite (drop_S _ _ _ Hi) in Hdrop. by injection Hdrop. }
    cbn [getAttributeNameIndex_search]. rewrite bind_read, bind_deref, Hi.
    cbn [list_find]. destruct (String.eqb_spec x name) as [->|Hne].
    + rewrite decide_True by done. cbn. by rewrite Nat.add_0_r.
    + rewrite decide_False by done. rewrite IH, Hrest by (rewrite Hrest; by injection Hlen).
      destruct (list_find (λ n, n = name) rest) as [[k y]|]; [|done].
      cbn. by rewrite Nat.add_succ_r.
Qed.

Lemma getAttributeNameIndex_run name w :
  getAttributeNameIndex name w =
  match first_index name (m_attribute_names (renderer w)) with
  | Some k => Some (Z.of_nat k, w, [])
  | None =>
      Some (Z.of_nat (length (m_attribute_names (renderer w))),
            with_attribute_names (m_attribute_names (renderer w) ++ [name]) w, [])
  end.
Proof.
  unfold getAttributeNameIndex, first_index. rewrite bind_read, bind_after.
  rewrite (getAttributeNameIndex_search_run name w _ 0) by done.
  rewrite drop_0.
  destruct (list_find (λ n, n = name) (m_attribute_names (renderer w)))
    as [[k y]|]; [done|].
  cbn [fmap option_fmap option_map after_events app].
  autorewrite with run. cbn [renderer set_renderer m_attribute_names
    set_m_attribute_names]. unfold with_attribute_names.
  rewrite length_app. cbn [length]. do 3 f_equal. lia.
Qed.

Lemma first_index_Some name names k :
  first_index name names = Some k ↔
  names !! k = Some name ∧ ∀ j, (j < k)%nat → names !! j ≠ Some name.
Proof.
  unfold first_index. rewrite fmap_Some. split.
  - intros [[i x] [Hfind ->]]. apply list_find_Some in Hfind as (Hi & -> & Hleast).
    split; [done|]. intros j Hj Hjn. exact (Hleast j name Hjn Hj eq_refl).
  - intros [Hk Hleast]. exists (k, name). split; [|done].
    apply list_find_Some. split; [done|]. split; [done|].
    intros j y Hj Hlt ->. exact (Hleast j Hlt Hj).
Qed.

Lemma first_index_None name names : first_index name names = None ↔ name ∉ names.
Proof.
  unfold first_index. rewrite fmap_None, list_find_None, Forall_forall.
  split.
  - intros H Hin. exact (H name Hin eq_refl).
  - intros H x Hx ->. done.
Qed.

Lemma first_index_app_l name names ext k :
  first_index name names = Some k → first_index name (names ++ ext) = Some k.
Proof.
  unfold first_index. rewrite !fmap_Some. intros [[i x] [Hfind ->]].
  exists (i, x). split; [|done]. by apply list_find_app_l.
Qed.

Lemma first_index_fresh name names :
  name ∉ names → first_index name (names ++ [name]) = Some (length names).
Proof.
  intros Hnot. apply first_index_Some. split.
  - by rewrite lookup_app_r, Nat.sub_diag by lia.
  - intros j Hj Hjn. rewrite lookup_app_l in Hjn by done.
    apply Hnot. by eapply list_elem_of_lookup_2.
Qed.

(** After a call, the name sits in the registry at the index returned, as
    its first occurrence, and the registry has only grown at its end. *)
Lemma getAttributeNameIndex_after name w i w1 tr :
  getAttributeNameIndex name w = Some (i, w1, tr) →
  ∃ k ext,
    i = Z.of_nat k ∧ tr = [] ∧
    w1 = with_attribute_names (m_attribute_names (renderer w) ++ ext) w ∧
    first_index name (m_attribute_names (renderer w) ++ ext) = Some k.
Proof.
  rewrite getAttributeNameIndex_run.
  destruct (first_index name (m_attribute_names (renderer w))) as [k|] eqn:Hfirst.
  - intros [= <- <- <-]. exists k, []. rewrite app_nil_r.
    repeat split; [|done]. by destruct w as [[] ? ?].
  - intros [= <- <- <-]. exists (length (m_attribute_names (renderer w))), [name].
    repeat split. apply first_index_fresh. by apply first_index_None.
Qed.

Lemma collect_cons {A B} (run : A → M B) c rest w :
  collect run (c :: rest) w =
  match run c w with
  | Some (b, w1, t1) =>
      match collect run rest w1 with
      | Some (bs, w2, t2) => Some (b :: bs, w2, t1 ++ t2)
      | None => None
      end
  | None => None
  end.
Proof.
  cbn [collect]. rewrite bind_after. destruct (run c w) as [[[b w1] t1]|]; [|done].
  rewrite bind_after. destruct (collect run rest w1) as [[[bs w2] t2]|]; [|done].
  cbn. by rewrite app_nil_r.
Qed.

Lemma getAttributeNameIndex_collect_grows names_called :
  ∀ w rs w2 tr,
    collect getAttributeNameIndex names_called w = Some (rs, w2, tr) →
    ∃ ext, w2 = with_attribute_names (m_attribute_names (renderer w) ++ ext) w.
Proof.
  induction names_called as [|n rest IH]; intros w rs w2 tr.
  - intros [= <- <- <-]. exists []. rewrite app_nil_r. by destruct w as [[] ? ?].
  - rewrite collect_cons.
    destruct (getAttributeNameIndex n w) as [[[i w1] t1]|] eqn:Hrun; [|done].
    destruct (collect getAttributeNameIndex rest w1) as [[[bs w2'] t2]|] eqn:Hrest;
      [|done].
    intros [= <- <- <-].
    destruct (getAttributeNameIndex_after _ _ _ _ _ Hrun) as (k & ext1 & _ & _ & -> & _).
    destruct (IH _ _ _ _ Hrest) as [ext2 ->].
    exists (ext1 ++ ext2). cbn. by rewrite app_assoc.
Qed.

Lemma getAttributeNameIndex_fresh_sequence fresh :
  ∀ w,
    NoDup (m_attribute_names (renderer w) ++ fresh) →
    collect getAttributeNameIndex fresh w =
    Some (map (λ k, Z.of_nat (length (m_attribute_names (renderer w)) + k))
              (seq 0 (length fresh)),
          with_attribute_names (m_attribute_names (renderer w) ++ fresh) w, []).
Proof.
  induction fresh as [|n rest IH]; intros w Hnodup.
  - cbn. rewrite app_nil_r. by destruct w as [[] ? ?].
  - rewrite collect_cons, getAttributeNameIndex_run.
    assert (Hnot : n ∉ m_attribute_names (renderer w)).
    { apply NoDup_app in Hnodup as (_ & Hdisj & _). intros Hin.
      apply (Hdisj n Hin). left. }
    rewrite (proj2 (first_index_None _ _) Hnot).
    rewrite IH; cbn [with_attribute_names renderer set_renderer m_attribute_names
                     set_m_attribute_names].
    + rewrite <- app_assoc. cbn [app length seq map]. rewrite <- seq_shift, map_map.
      rewrite length_app. cbn [length]. do 3 f_equal.
      f_equal; [f_equal; lia|]. apply map_ext. intros k. f_equal. lia.
    + by rewrite <- app_assoc.
Qed.

(** C8.  [getAttributeNameIndex] looks a name up in the registry and appends
    it when it is missing:
    - a name in the registry: the index of its first occurrence is returned
      and nothing changes;
    - a name not in the registry: it is appended and the new last index is
      returned;
    - a later call with the same name, whatever names were asked for in
      between, returns the same index and changes nothing;
    - names that are new and distinct receive the consecutive indices that
      follow the registry's length, in the order of the calls (0, 1, 2, ...
      from the empty registry of a new renderer);
    - a call never removes or moves an entry: the old registry is a prefix
      of the new one;
    and the call makes no driver call. *)
Theorem getAttributeNameIndex_contract name w :
  let names := m_attribute_names (renderer w) in
  (∀ k, names !! k = Some name → (∀ j, (j < k)%nat → names !! j ≠ Some name) →
        getAttributeNameIndex name w = Some (Z.of_nat k, w, [])) ∧
  (name ∉ names →
   getAttributeNameIndex name w =
   Some (Z.of_nat (length names), with_attribute_names (names ++ [name]) w, [])) ∧
  (∀ i w1 t1 between rs w2 t2,
     getAttributeNameIndex name w = Some (i, w1, t1) →
     collect getAttributeNameIndex between w1 = Some (rs, w2, t2) →
     getAttributeNameIndex name w2 = Some (i, w2, [])) ∧
  (∀ fresh,
     NoDup (names ++ fresh) →
     collect getAttributeNameIndex fresh w =
     Some (map (λ k, Z.of_nat (length names + k)) (seq 0 (length fresh)),
           with_attribute_names (names ++ fresh) w, [])) ∧
  (∀ i w1 t1,
     getAttributeNameIndex name w = Some (i, w1, t1) →
     t1 = [] ∧ names `prefix_of` m_attribute_names (renderer w1)) ∧
  (∃ i w1, getAttributeNameIndex name w = Some (i, w1, [])).
Proof.
  intros names. subst names. split_and!.
  - intros k Hk Hleast. rewrite getAttributeNameIndex_run.
    by rewrite (proj2 (first_index_Some _ _ _) (conj Hk Hleast)).
  - intros Hnot. rewrite getAttributeNameIndex_run.
    by rewrite (proj2 (first_index_None _ _) Hnot).
  - intros i w1 t1 between rs w2 t2 Hrun Hbetween.
    destruct (getAttributeNameIndex_after _ _ _ _ _ Hrun) as (k & ext & -> & _ & -> & Hk).
    destruct (getAttributeNameIndex_collect_grows _ _ _ _ _ Hbetween) as [ext2 ->].
    rewrite getAttributeNameIndex_run. cbn -[first_index].
    by rewrite (first_index_app_l _ _ ext2 _ Hk).
  - intros fresh. apply getAttributeNameIndex_fresh_sequence.
  - intros i w1 t1 Hrun.
    destruct (getAttributeNameIndex_after _ _ _ _ _ Hrun) as (k & ext & _ & -> & -> & _).
    split; [done|]. cbn. by apply prefix_app_r.
  - rewrite getAttributeNameIndex_run.
    destruct (first_index name (m_attribute_names (renderer w))); eauto.
Qed.

(** ** The memo invariant *)

Lemma preserves_ret {A} P (a : A) : preserves P (mret a).
Proof. intros w a' w' tr HP [= _ <- _]. done. Qed.

Lemma preserves_crash {A} P : preserves P (@crash A).
Proof. intros w a w' tr HP. done. Qed.

Lemma preserves_bind {A B} P (m : M A) (f : A → M B) :
  preserves P m → (∀ a, preserves P (f a)) → preserves P (m ≫= f).
Proof.
  intros Hm Hf w b w' tr HP. rewrite bind_after.
  destruct (m w) as [[[a w1] t1]|] eqn:Hrun; [|done].
  destruct (f a w1) as [[[b' w2] t2]|] eqn:Hrun2; [|done].
  intros [= _ <- _]. eapply Hf; [|exact Hrun2]. eapply Hm; [exact HP|exact Hrun].
Qed.

Lemma preserves_read {A} P (g : RendererImpl → A) : preserves P (read g).
Proof. intros w a w' tr HP [= _ <- _]. done. Qed.

Lemma preserves_deref {A} P (o : option A) : preserves P (deref o).
Proof. destruct o; [apply preserves_ret|apply preserves_crash]. Qed.

Lemma preserves_load_shader P s : preserves P (load_shader s).
Proof.
  intros w a w' tr HP. unfold load_shader.
  destruct (shaders w !! s); [|done]. by intros [= _ <- _].
Qed.

Lemma preserves_store_shader s sh : preserves memo_inv (store_shader s sh).
Proof. intros w a w' tr HP [= _ <- _]. done. Qed.

Lemma preserves_gl_call c : preserves memo_inv (gl_call c).
Proof. intros w a w' tr HP [= _ <- _]. done. Qed.

Lemma preserves_call_driver X c : preserves memo_inv (call_driver X c).
Proof. intros w a w' tr HP [= _ <- _]. done. Qed.

Lemma preserves_write f : memo_frame f → preserves memo_inv (write f).
Proof.
  intros Hf w a w' tr HP [= _ <- _]. unfold memo_inv in *. cbn [renderer set_renderer].
  destruct (Hf (renderer w)) as [-> ->]. done.
Qed.

Lemma preserves_call_world X c :
  (∀ c w, memo_inv w → memo_inv (ext_world X c w)) →
  preserves memo_inv (call_world X c).
Proof. intros HX w a w' tr HP [= _ <- _]. by apply HX. Qed.

Create HintDb preserve.

Ltac preserve :=
  repeat first
    [ solve [auto with preserve]
    | apply preserves_ret
    | apply preserves_crash
    | apply preserves_read
    | apply preserves_deref
    | apply preserves_load_shader
    | apply preserves_store_shader
    | apply preserves_gl_call
    | apply preserves_call_driver
    | apply preserves_call_world; assumption
    | apply preserves_write; intros []; split; reflexivity
    | apply preserves_bind; [|intros ?]
    | progress cbv zeta
    | match goal with
      | |- preserves _ (if ?b then _ else _) => destruct b
      | |- preserves _ (match ?x with _ => _ end) => destruct x
      end ].

Lemma uniform_protocol_preserves locate emit s :
  preserves memo_inv (uniform_protocol locate emit s).
Proof. unfold uniform_protocol. preserve. Qed.

Lemma setUniform_preserves c : preserves memo_inv (setUniform c).
Proof.
  destruct c as [s n h []]; cbn [setUniform uc_arg];
    unfold setUniform_int, setUniform_float, setUniform_Vec3, setUniform_Matrix,
      setUniform_Matrices; preserve.
Qed.

Lemma setFixedCachedUniform_preserves c : preserves memo_inv (setFixedCachedUniform c).
Proof.
  destruct c as [s n []]; cbn [setFixedCachedUniform fc_arg];
    unfold setFixedCachedUniform_float, setFixedCachedUniform_Vec3,
      setFixedCachedUniform_Vec4, setFixedCachedUniform_Matrix,
      setFixedCachedUniform_Matrices; preserve.
Qed.

Lemma setFixedCachedUniform_Matrix_preserves s n m :
  preserves memo_inv (setFixedCachedUniform_Matrix s n m).
Proof. unfold setFixedCachedUniform_Matrix. preserve. Qed.

Lemma cleanup_preserves X Σ : preserves memo_inv (cleanup X Σ).
Proof.
  intros w [] w' tr _ Hrun.
  destruct (cleanup_result _ _ _ _ _ Hrun) as [g ->].
  unfold memo_inv. cbn. split; intros [? ?]; done.
Qed.

Lemma bindGeometry_geometry X Σ geometry mesh w w' tr :
  bindGeometry X Σ geometry mesh w = Some (tt, w', tr) →
  w' = w ∨ is_Some (m_last_bind_geometry (renderer w')).
Proof.
  unfold bindGeometry. rewrite bind_read.
  destruct (decide (m_last_bind_geometry_mesh (renderer w) ≠ Some mesh)) as [Hne|He].
  - intros Hrun. right.
    destruct (m_last_bind_geometry_mesh (renderer w)) as [prev|] eqn:Hlast.
    + rewrite bind_assoc_run, bind_mesh_layout in Hrun.
      destruct (scene_mesh_layout Σ prev) as [[pm pshader]|]; [|done].
      autorewrite with run in Hrun. rewrite bind_mesh_layout in Hrun.
      destruct (scene_mesh_layout Σ mesh) as [[m shader]|]; [|done].
      autorewrite with run in Hrun. injection Hrun as <- _. cbn. eauto.
    + autorewrite with run in Hrun. rewrite bind_mesh_layout in Hrun.
      destruct (scene_mesh_layout Σ mesh) as [[m shader]|]; [|done].
      autorewrite with run in Hrun. injection Hrun as <- _. cbn. eauto.
  - intros [= <- _]. by left.
Qed.

Lemma bindGeometry_preserves X Σ geometry mesh :
  preserves memo_inv (bindGeometry X Σ geometry mesh).
Proof.
  intros w [] w' tr Hinv Hrun.
  destruct (bindGeometry_geometry _ _ _ _ _ _ _ Hrun) as [->|Hg]; [done|].
  unfold memo_inv. rewrite (bindGeometry_memo _ _ _ _ _ _ _ Hrun). split; eauto.
Qed.

#[local] Hint Resolve uniform_protocol_preserves setUniform_preserves
  setFixedCachedUniform_preserves setFixedCachedUniform_Matrix_preserves
  cleanup_preserves bindGeometry_preserves : preserve.

Section MemoInvariant.
Variable X : Extern.
Variable L : MathLib.
Variable Σ : Scene.
Hypothesis HX : ∀ c w, memo_inv w → memo_inv (ext_world X c w).

Lemma cleanup_textures_preserves n i : preserves memo_inv (cleanup_textures n i).
Proof. revert i. induction n as [|n IH]; intros i; cbn [cleanup_textures]; preserve. Qed.

Lemma register_properties_preserves ds :
  preserves memo_inv (register_properties X ds).
Proof.
  induction ds as [|[[c k] n] rest IH]; cbn [register_properties]; preserve.
Qed.

Lemma reset_divisors_preserves sh n i : preserves memo_inv (reset_divisors sh n i).
Proof. revert i. induction n as [|n IH]; intros i; cbn [reset_divisors]; preserve. Qed.

Lemma getAttributeNameIndex_search_preserves name n i :
  preserves memo_inv (getAttributeNameIndex_search name n i).
Proof.
  revert i. induction n as [|n IH]; intros i;
    cbn [getAttributeNameIndex_search]; preserve.
Qed.

Lemma live_device_preserves d : preserves memo_inv (live_device Σ d).
Proof. unfold live_device. preserve. Qed.

Lemma mesh_layout_preserves o : preserves memo_inv (mesh_layout Σ o).
Proof. unfold mesh_layout. preserve. Qed.

Lemma renderGeometry_preserves o c : preserves memo_inv (renderGeometry o c).
Proof. unfold renderGeometry. preserve. Qed.

Lemma render_device_preserves : preserves memo_inv (render_device Σ).
Proof. unfold render_device, live_device. preserve. Qed.

Hint Resolve cleanup_textures_preserves register_properties_preserves
  reset_divisors_preserves getAttributeNameIndex_search_preserves
  live_device_preserves mesh_layout_preserves renderGeometry_preserves
  render_device_preserves : preserve.

Lemma renderModel_mesh_preserves model transform pipeline i :
  preserves memo_inv (renderModel_mesh X Σ model transform pipeline i).
Proof. unfold renderModel_mesh. preserve. Qed.

Hint Resolve renderModel_mesh_preserves : preserve.

Lemma renderModel_loop_preserves model transform pipeline n i :
  preserves memo_inv (renderModel_loop X Σ model transform pipeline n i).
Proof. revert i. induction n as [|n IH]; intros i; cbn [renderModel_loop]; preserve. Qed.

Lemma render_preserves device : preserves memo_inv (render X Σ device).
Proof. unfold render. preserve. Qed.

Lemma registerPropertyDescriptors_preserves :
  preserves memo_inv (registerPropertyDescriptors X).
Proof. unfold registerPropertyDescriptors. preserve. Qed.

Hint Resolve renderModel_loop_preserves render_preserves
  registerPropertyDescriptors_preserves : preserve.

Lemma run_op_preserves op : preserves memo_inv (run_op X L Σ op).
Proof.
  destruct op; cbn [run_op];
    unfold createScene, destroyScene, setViewMatrix, setProjectionMatrix,
      setViewport, setProjection, setRenderDevice, renderGame,
      getCurrentViewMatrix, getCurrentProjectionMatrix, getPass, setPass,
      getDebugShader, applyShader, create, destroy, enableAlphaToCoverage,
      enableZTest, makeScreenshot, renderModel, setEditorWireframe,
      isEditorWireframe, getAttributeNameIndex, renderInstancedGeometry,
      renderGeometry, getUniformLocation, setUniform_at_Matrix,
      setUniform_at_Matrices, setUniform_at_Vec3, setUniform_at_float;
    preserve.
Qed.
End MemoInvariant.

(** C10.  The two memo members [m_last_bind_geometry] and
    [m_last_bind_geometry_mesh] are null together or set together:
    - right after construction, whatever the storage held;
    - after every operation of the file that runs to its end, when it
      started so (code outside the file reaches the members only through
      these operations, hence keeps the property too), and so in every
      world reached from a new renderer by any sequence of operations;
    and this is what [cleanup] relies on: with the property, and the recorded
    mesh live, [cleanup] runs to its end, while with a geometry recorded and
    a null mesh pointer it reads through the null pointer. *)
Theorem memo_invariant X L Σ :
  (∀ mem g shs, memo_inv (mkWorld (RendererImpl_new X mem) g shs)) ∧
  ((∀ c w, memo_inv w → memo_inv (ext_world X c w)) →
   (∀ op w w' tr,
      memo_inv w → run_op X L Σ op w = Some (tt, w', tr) → memo_inv w') ∧
   (∀ ops mem g shs w' tr,
      run_all (run_op X L Σ) ops (mkWorld (RendererImpl_new X mem) g shs)
        = Some (tt, w', tr) →
      memo_inv w')) ∧
  (∀ w,
     memo_inv w →
     (∀ mesh, m_last_bind_geometry_mesh (renderer w) = Some mesh →
              is_Some (scene_mesh_layout Σ mesh)) →
     ∃ w1 tr, cleanup X Σ w = Some (tt, w1, tr)) ∧
  (∀ w g,
     m_last_bind_geometry (renderer w) = Some g →
     m_last_bind_geometry_mesh (renderer w) = None →
     cleanup X Σ w = None).
Proof.
  assert (Hnew : ∀ mem g shs, memo_inv (mkWorld (RendererImpl_new X mem) g shs)).
  { intros mem g shs. unfold memo_inv. cbn. split; intros [? ?]; done. }
  split_and!.
  - exact Hnew.
  - intros HX.
    assert (Hop : ∀ op w w' tr,
      memo_inv w → run_op X L Σ op w = Some (tt, w', tr) → memo_inv w').
    { intros op w w' tr Hinv Hrun. exact (run_op_preserves X L Σ HX op w tt w' tr Hinv Hrun). }
    split; [exact Hop|].
    intros ops mem g shs. generalize (Hnew mem g shs).
    generalize (mkWorld (RendererImpl_new X mem) g shs).
    induction ops as [|op rest IH]; intros w Hinv w' tr.
    + by intros [= <- _].
    + rewrite run_all_cons.
      destruct (run_op X L Σ op w) as [[[[] w1] t1]|] eqn:Hrun; [|done].
      destruct (run_all (run_op X L Σ) rest w1) as [[[[] w2] t2]|] eqn:Hrest; [|done].
      intros [= <- _]. exact (IH w1 (Hop _ _ _ _ Hinv Hrun) w2 t2 Hrest).
  - intros w Hinv Hlive.
    destruct (m_last_bind_geometry (renderer w)) as [g|] eqn:Hg.
    + destruct (proj1 Hinv) as [mesh Hmesh]; [by rewrite Hg|].
      destruct (Hlive mesh Hmesh) as [[m shader] Hlayout].
      rewrite (cleanup_bound _ _ _ _ _ _ _ Hg Hmesh Hlayout). eauto.
    + rewrite (cleanup_unbound _ _ _ Hg). eauto.
  - intros w g Hg Hmesh. unfold cleanup.
    by rewrite bind_read, Hg, bind_assoc_run, bind_read, Hmesh.
Qed.

(** ** The projection matrix *)

(** C9.  [getProjectionMatrix(fov, width, height, near, far)]: with
    [f = 1 / tanf(degreesToRadians(fov) * 0.5f)], the result has
    [m11 = f / (width / height)], [m22 = f],
    [m33 = (far + near) / (near - far)], [m44 = 0],
    [m43 = (2 * far * near) / (near - far)], [m34 = -1], and every other
    element is the element of [Matrix::IDENTITY]; all in binary32
    arithmetic, the halving written as the source writes it.  For fov = 90,
    width = height = 1, near = 0.1f and far = 100, when [tanf] of half of
    90 degrees in radians is 1: [m22 = 1], [m44 = 0] and [m34 = -1]. *)
Theorem getProjectionMatrix_elements (L : MathLib) :
  (∀ fov width height near_plane far_plane,
     let f := F32.div (F32.of_int 1)
                (tanf L (F32.mul (degreesToRadians L fov) F32.half)) in
     let m := getProjectionMatrix L fov width height near_plane far_plane in
     m11 m = F32.div f (F32.div width height) ∧
     m22 m = f ∧
     m33 m = F32.div (F32.add far_plane near_plane) (F32.sub near_plane far_plane) ∧
     m44 m = F32.of_int 0 ∧
     m43 m = F32.div (F32.mul (F32.mul (F32.of_int 2) far_plane) near_plane)
                     (F32.sub near_plane far_plane) ∧
     m34 m = F32.of_int (-1) ∧
     m12 m = m12 (IDENTITY L) ∧ m13 m = m13 (IDENTITY L) ∧
     m14 m = m14 (IDENTITY L) ∧ m21 m = m21 (IDENTITY L) ∧
     m23 m = m23 (IDENTITY L) ∧ m24 m = m24 (IDENTITY L) ∧
     m31 m = m31 (IDENTITY L) ∧ m32 m = m32 (IDENTITY L) ∧
     m41 m = m41 (IDENTITY L) ∧ m42 m = m42 (IDENTITY L)) ∧
  (tanf L (F32.mul (degreesToRadians L (F32.of_int 90)) F32.half) = F32.of_int 1 →
   let m := getProjectionMatrix L (F32.of_int 90) (F32.of_int 1) (F32.of_int 1)
              (S754_finite false 13421773 (-27)) (F32.of_int 100) in
   m22 m = F32.of_int 1 ∧ m44 m = F32.of_int 0 ∧ m34 m = F32.of_int (-1)).
Proof.
  split.
  - intros. repeat split.
  - intros Htan m. subst m. repeat split.
    cbn [getProjectionMatrix m22 set_m11 set_m22 set_m33 set_m34 set_m43 set_m44].
    rewrite Htan. reflexivity.
Qed.

(** ** The program cache across [cleanup] *)

Lemma cleanup_program_cache X Σ w w1 tr :
  cleanup X Σ w = Some (tt, w1, tr) →
  gl_current_program (gl w1) = 0 ∧
  m_last_program_id (renderer w1) = m_last_program_id (renderer w).
Proof. intros Hrun. by destruct (cleanup_result _ _ _ _ _ Hrun) as [g ->]. Qed.

Lemma uniform_protocol_consistent locate arg s :
  preserves program_cache_consistent (uniform_protocol locate (uniform_write arg) s).
Proof.
  intros w [] w' tr Hc. unfold program_cache_consistent in *.
  destruct (shaders w !! s) as [sh|] eqn:Hs.
  - rewrite (uniform_protocol_run _ _ _ _ _ Hs).
    destruct (0 <=? locate sh); [|by intros [= <- _]].
    destruct (m_last_program_id (renderer w) =? Shader_getProgramId sh);
      intros [= <- _]; cbn [gl set_gl renderer];
      by rewrite gl_exec_uniform_write, gl_write_uniform_program.
  - unfold uniform_protocol. by rewrite bind_load_shader, Hs.
Qed.

Lemma setFixedCachedUniform_Matrix_consistent s n m :
  preserves program_cache_consistent (setFixedCachedUniform_Matrix s n m).
Proof.
  exact (uniform_protocol_consistent
           (λ sh, Shader_getFixedCachedUniformLocation sh n) (ArgMatrix m) s).
Qed.

Lemma applyShader_uniforms_consistent X s :
  preserves program_cache_consistent
    (view ← read m_view_matrix;
     setFixedCachedUniform_Matrix s (fixed_cached_uniform_index X VIEW_MATRIX) view;;
     projection ← read m_projection_matrix;
     setFixedCachedUniform_Matrix s
       (fixed_cached_uniform_index X PROJECTION_MATRIX) projection).
Proof.
  repeat first [ apply setFixedCachedUniform_Matrix_consistent
               | apply preserves_read
               | apply preserves_bind; [|intros ?] ].
Qed.

(** [applyShader] leaves the cache and the driver agreeing on the program. *)
Lemma applyShader_consistent X s combination w w' tr :
  applyShader X s combination w = Some (tt, w', tr) →
  program_cache_consistent w'.
Proof.
  unfold applyShader. rewrite bind_read, bind_load_shader.
  destruct (shaders w !! s) as [sh0|]; [|done].
  rewrite bind_store_shader, bind_load_shader. cbn [shaders set_shaders].
  rewrite lookup_insert_eq. rewrite bind_write, bind_gl_call.
  intros Hrun.
  match type of Hrun with
  | after_events _ (?m ?w1) = _ =>
      destruct (m w1) as [[[[] w2] t2]|] eqn:Htail; [|done];
      injection Hrun as <- _;
      exact (applyShader_uniforms_consistent X s w1 tt w2 t2 eq_refl Htail)
  end.
Qed.

(** C4.  The program cache is not kept in step with the driver by
    [cleanup].  Running the model: after [applyShader] on the shader at
    address 10 (program 7) the cache and the driver both hold 7; [cleanup]
    then makes program 0 current on the driver and leaves 7 in the cache; a
    [setUniform] on the same shader after that skips the bind, so its write
    is issued with no program current and the driver stores nothing. *)
Theorem cleanup_leaves_program_cache_stale :
  ∃ w1 t1 w2 t2 w3,
    applyShader Demo.extern 10 0 Demo.world0 = Some (tt, w1, t1) ∧
    m_last_program_id (renderer w1) = 7 ∧
    gl_current_program (gl w1) = 7 ∧
    cleanup Demo.extern Demo.scene w1 = Some (tt, w2, t2) ∧
    gl_current_program (gl w2) = 0 ∧
    m_last_program_id (renderer w2) = 7 ∧
    setUniform_int 10 "u_color" 0 4 w2 = Some (tt, w3, [EvGL (GlUniform1i 3 4)]) ∧
    gl_current_program (gl w3) = 0 ∧
    gl_uniforms (gl w3) !! (7, 3) = None.
Proof.
  do 5 eexists. split_and!.
  - vm_compute. reflexivity.
  - reflexivity.
  - reflexivity.
  - vm_compute. reflexivity.
  - reflexivity.
  - reflexivity.
  - vm_compute. reflexivity.
  - reflexivity.
  - vm_compute. reflexivity.
Qed.

(** ** [renderGame] *)

Lemma RendererImpl_new_render_device X mem :
  m_render_device (RendererImpl_new X mem) = m_render_device mem.
Proof. reflexivity. Qed.

Lemma renderGame_null X Σ w :
  m_render_device (renderer w) = None → renderGame X Σ w = Some (tt, w, []).
Proof. intros Hd. unfold renderGame. by rewrite bind_read, Hd. Qed.

Lemma renderGame_dangling X Σ w d :
  m_render_device (renderer w) = Some d → d ∉ sc_devices Σ →
  renderGame X Σ w = None.
Proof.
  intros Hd Hdead. unfold renderGame, render_device, live_device.
  rewrite bind_read, Hd. autorewrite with run. rewrite Hd.
  by rewrite decide_False.
Qed.

(** With a live device set, and outside code that leaves the device pointer
    alone, a frame is [beginFrame], then [render] (depth test on, blending
    off, the pipeline, [cleanup]), then [endFrame]. *)
Lemma renderGame_frame X Σ w d :
  (∀ c w, m_render_device (renderer (ext_world X c w)) = m_render_device (renderer w)) →
  m_render_device (renderer w) = Some d → d ∈ sc_devices Σ →
  let w1 := ext_world X (XBeginFrame d) w in
  let w2 :=
    ext_world X (XPipelineRender d)
      (set_gl (gl_exec (GlDisable GL_BLEND) (gl_exec (GlEnable GL_DEPTH_TEST) (gl w1)))
              w1) in
  renderGame X Σ w =
  match cleanup X Σ w2 with
  | Some (_, w3, t3) =>
      Some (tt, ext_world X (XEndFrame d) w3,
            [EvExt (XBeginFrame d); EvGL (GlEnable GL_DEPTH_TEST);
             EvGL (GlDisable GL_BLEND); EvExt (XPipelineRender d)]
            ++ t3 ++ [EvExt (XEndFrame d)])
  | None => None
  end.
Proof.
  intros HX Hd Hlive w1 w2.
  assert (Hd1 : m_render_device (renderer w1) = Some d)
    by (unfold w1; by rewrite HX).
  assert (Hd2 : m_render_device (renderer w2) = Some d)
    by (unfold w2; by rewrite HX).
  unfold renderGame, render, render_device, live_device.
  rewrite bind_read, Hd. autorewrite with run. rewrite Hd.
  rewrite decide_True by done. autorewrite with run. fold w1.
  rewrite Hd1, decide_True by done. autorewrite with run.
  rewrite decide_True by done. autorewrite with run. rewrite bind_after.
  match goal with |- context [cleanup X Σ ?w'] => change w' with w2 end.
  destruct (cleanup X Σ w2) as [[[[] w3] t3]|] eqn:Hclean; [|done].
  destruct (cleanup_result _ _ _ _ _ Hclean) as [g ->].
  autorewrite with run. cbn [renderer clear_memo m_render_device
    set_m_last_bind_geometry set_m_last_bind_geometry_mesh].
  rewrite Hd2, decide_True by done.
  autorewrite with run. rewrite app_nil_r. repeat rewrite <- app_assoc. reflexivity.
Qed.

(** C7.  [renderGame] with no device ever set.  The constructor does not
    write [m_render_device], so the member holds what the storage held.
    In the model, with the storage filled with the debug pattern and
    [setRenderDevice] never called, the pointer is not null and
    [renderGame] calls [beginFrame] through it, where no device lives; and
    had the storage held the address of a live device, [renderGame] would
    run a whole frame on it, [beginFrame] first. *)
Theorem renderGame_with_no_device_set :
  (∀ X mem, m_render_device (RendererImpl_new X mem) = m_render_device mem) ∧
  m_render_device (renderer Demo.world0) = Some 0xCDCDCDCD ∧
  renderGame Demo.extern Demo.scene Demo.world0 = None ∧
  ∃ w' tr,
    renderGame Demo.extern Demo.scene Demo.world0_device_in_storage
      = Some (tt, w', EvExt (XBeginFrame 50) :: tr).
Proof.
  split_and!.
  - reflexivity.
  - reflexivity.
  - apply (renderGame_dangling _ _ _ 0xCDCDCDCD); [reflexivity|].
    vm_compute. discriminate.
  - do 2 eexists. vm_compute. reflexivity.
Qed.

(** ** The concrete engine satisfies what the theorems ask of outside code *)

Lemma applyShader_frame X s combination w w' tr :
  applyShader X s combination w = Some (tt, w', tr) →
  (∃ sh, shaders w' = <[s := sh]> (shaders w)) ∧
  is_Some (shaders w !! s) ∧
  m_last_bind_geometry (renderer w') = m_last_bind_geometry (renderer w) ∧
  m_last_bind_geometry_mesh (renderer w') = m_last_bind_geometry_mesh (renderer w).
Proof.
  unfold applyShader. rewrite bind_read, bind_load_shader.
  destruct (shaders w !! s) as [sh0|] eqn:Hs0; [|done].
  rewrite bind_store_shader, bind_load_shader. cbn [shaders set_shaders].
  rewrite lookup_insert_eq. rewrite bind_write, bind_gl_call, bind_read.
  set (sh := Shader_setCurrentCombination combination (m_current_pass_hash (renderer w)) sh0).
  match goal with |- after_events _ (_ ?w1') = _ → _ => set (w1 := w1') end.
  assert (Hs1 : shaders w1 !! s = Some sh) by apply lookup_insert_eq.
  destruct (setFixedCachedUniform_Matrix_frame s
              (fixed_cached_uniform_index X VIEW_MATRIX)
              (m_view_matrix (renderer w1)) w1 sh Hs1)
    as (w2 & t2 & Hrun2 & Hsh2 & Hg2 & Hm2 & _).
  rewrite bind_after, Hrun2, bind_read.
  assert (Hs2 : shaders w2 !! s = Some sh) by by rewrite Hsh2.
  destruct (setFixedCachedUniform_Matrix_frame s
              (fixed_cached_uniform_index X PROJECTION_MATRIX)
              (m_projection_matrix (renderer w2)) w2 sh Hs2)
    as (w3 & t3 & Hrun3 & Hsh3 & Hg3 & Hm3 & _).
  rewrite Hrun3. intros [= <- _].
  rewrite Hsh3, Hsh2, Hg3, Hg2, Hm3, Hm2. split_and!; eauto.
Qed.

Lemma Demo_world_effect_frame c w :
  (∀ s, is_Some (shaders w !! s) → is_Some (shaders (Demo.world_effect c w) !! s)) ∧
  m_last_bind_geometry (renderer (Demo.world_effect c w))
    = m_last_bind_geometry (renderer w) ∧
  m_last_bind_geometry_mesh (renderer (Demo.world_effect c w))
    = m_last_bind_geometry_mesh (renderer w).
Proof.
  destruct c; try done. cbn [Demo.world_effect].
  destruct (sc_materials Demo.scene !! material ≫= mat_shader) as [shader|]; [|done].
  destruct (applyShader Demo.extern_passive shader 0 w) as [[[[] w'] tr]|] eqn:Hrun;
    [|done].
  destruct (applyShader_frame _ _ _ _ _ _ Hrun) as ([sh Hsh] & _ & Hg & Hm).
  split_and!; [|done..]. intros s Hs. rewrite Hsh.
  apply lookup_insert_is_Some. destruct (decide (shader = s)); eauto.
Qed.

Lemma Demo_extern_memo_inv c w :
  memo_inv w → memo_inv (ext_world Demo.extern c w).
Proof.
  unfold memo_inv. cbn [ext_world Demo.extern].
  destruct (Demo_world_effect_frame c w) as (_ & -> & ->). done.
Qed.

Lemma Demo_extern_scene_live mat p w :
  scene_live Demo.scene w →
  scene_live Demo.scene (ext_world Demo.extern (XMaterialApply mat p) w).
Proof.
  intros [Hsh Hmemo]. cbn [ext_world Demo.extern].
  destruct (Demo_world_effect_frame (XMaterialApply mat p) w) as (Hs & _ & Hm).
  split.
  - intros mesh m shader Hlayout. apply Hs. eauto.
  - intros prev. rewrite Hm. apply Hmemo.
Qed.

Lemma Demo_scene_shaders w :
  shaders w = Demo.shaders0 →
  ∀ mesh m shader,
    scene_mesh_layout Demo.scene mesh = Some (m, shader) →
    is_Some (shaders w !! shader).
Proof.
  intros -> mesh m shader Hlayout.
  destruct (scene_mesh_layout_parts _ _ _ _ Hlayout)
    as (mat & material & Hm & Hmat & Hmaterial & Hshader).
  cbn [Demo.scene sc_meshes sc_materials] in Hm, Hmaterial.
  apply lookup_insert_Some in Hm as [[<- <-]|[_ Hm]].
  - injection Hmat as <-. vm_compute in Hmaterial. injection Hmaterial as <-.
    injection Hshader as <-. vm_compute. eauto.
  - apply lookup_singleton_Some in Hm as [<- <-].
    injection Hmat as <-. vm_compute in Hmaterial. injection Hmaterial as <-.
    injection Hshader as <-. vm_compute. eauto.
Qed.

Lemma Demo_world0_live : scene_live Demo.scene Demo.world0.
Proof. split; [by apply Demo_scene_shaders|]. intros prev. by vm_compute. Qed.

(** ** The theorems at work on the concrete engine *)

Lemma setUniform_binds_at_most_once_witness :
  ∃ w' tr,
    run_all setUniform Demo.uniform_calls Demo.world0 = Some (tt, w', tr) ∧
    tr = setUniform_trace Demo.shader_a false Demo.uniform_calls ∧
    (bind_count tr ≤ 1)%nat ∧
    bind_count tr = 1%nat ∧
    m_last_program_id (renderer w') = 7.
Proof.
  apply (setUniform_binds_at_most_once Demo.uniform_calls 10 Demo.shader_a Demo.world0).
  - reflexivity.
  - repeat constructor.
  - vm_compute. discriminate.
Defined.

Lemma setUniform_contract_witness :
  (∃ w',
     setUniform (mkUniformCall 10 "u_color" 0 (ArgInt 4)) Demo.world0 =
       Some (tt, w', [EvGL (GlUseProgram 7); EvGL (GlUniform1i 3 4)]) ∧
     m_last_program_id (renderer w') = 7 ∧
     gl_uniforms (gl w') !! (7, 3) = Some (U1i 4)) ∧
  setUniform (mkUniformCall 10 "u_fog" 0 (ArgInt 4)) Demo.world0 =
    Some (tt, Demo.world0, []) ∧
  (∃ w',
     setFixedCachedUniform (mkFixedUniformCall 11 1 (ArgFloat F32.half)) Demo.world0 =
       Some (tt, w', [EvGL (GlUseProgram 9); EvGL (GlUniform1f 1 F32.half)]) ∧
     m_last_program_id (renderer w') = 9).
Proof.
  split_and!.
  - destruct (proj1 setUniform_contract (mkUniformCall 10 "u_color" 0 (ArgInt 4))
                Demo.world0 Demo.shader_a I eq_refl) as (_ & Hbind & _).
    destruct (Hbind ltac:(by vm_compute) ltac:(by vm_compute))
      as (w' & Hrun & Hr & _ & _ & _ & _ & Hu).
    exists w'. split; [exact Hrun|]. split; [by rewrite Hr|].
    apply Hu. by vm_compute.
  - destruct (proj1 setUniform_contract (mkUniformCall 10 "u_fog" 0 (ArgInt 4))
                Demo.world0 Demo.shader_a I eq_refl) as (Hnone & _).
    apply Hnone. by vm_compute.
  - destruct (proj2 setUniform_contract (mkFixedUniformCall 11 1 (ArgFloat F32.half))
                Demo.world0 Demo.shader_b I eq_refl) as (_ & Hbind & _).
    destruct (Hbind ltac:(by vm_compute) ltac:(by vm_compute))
      as (w' & Hrun & Hr & _).
    exists w'. split; [exact Hrun|]. by rewrite Hr.
Defined.

Lemma bindGeometry_contract_witness :
  bindGeometry Demo.extern Demo.scene 40 30 Demo.world0 =
    Some (tt, Demo.world_bound,
          [EvExt (XGeometryBindBuffers 40);
           EvExt (XVertexDefBegin (mkVertexDef [0; 1; 2]) 10 0)]) ∧
  bindGeometry Demo.extern Demo.scene 40 30 Demo.world_bound =
    Some (tt, Demo.world_bound, []) ∧
  ∃ w',
    bindGeometry Demo.extern Demo.scene 40 31 Demo.world_bound =
      Some (tt, w',
            [EvExt (XVertexDefEnd (mkVertexDef [0; 1; 2]) 10);
             EvExt (XGeometryBindBuffers 40);
             EvExt (XVertexDefBegin (mkVertexDef [0; 1]) 11 864)]).
Proof.
  assert (Hfirst :
    bindGeometry Demo.extern Demo.scene 40 30 Demo.world0 =
    Some (tt, Demo.world_bound,
          [EvExt (XGeometryBindBuffers 40);
           EvExt (XVertexDefBegin (mkVertexDef [0; 1; 2]) 10 0)])).
  { rewrite (proj1 (proj2 (bindGeometry_contract Demo.extern Demo.scene 40 30
                             Demo.world0)) Demo.mesh_a 10).
    - by vm_compute.
    - by vm_compute.
    - reflexivity.
    - intros prev Hprev. by vm_compute in Hprev. }
  split_and!.
  - exact Hfirst.
  - exact (proj2 (proj2 (bindGeometry_contract Demo.extern Demo.scene 40 30
                           Demo.world0)) _ _ 40 Hfirst).
  - eexists.
    rewrite (proj1 (proj2 (bindGeometry_contract Demo.extern Demo.scene 40 31
                             Demo.world_bound)) Demo.mesh_b 11).
    + reflexivity.
    + by vm_compute.
    + reflexivity.
    + intros prev Hprev. vm_compute in Hprev. injection Hprev as <-. vm_compute. eauto.
Defined.

Lemma cleanup_idempotent_witness :
  ∃ w1 tr1,
    cleanup Demo.extern Demo.scene Demo.world_bound = Some (tt, w1, tr1) ∧
    cleanup Demo.extern Demo.scene w1 = Some (tt, w1, map EvGL cleanup_gl_calls) ∧
    gl_current_program (gl w1) = 0 ∧
    m_last_bind_geometry_mesh (renderer w1) = None.
Proof.
  destruct (proj1 (cleanup_idempotent Demo.extern Demo.scene Demo.world_bound))
    as (w1 & tr1 & Hrun).
  { intros _. exists 30. split; [reflexivity|]. vm_compute. eauto. }
  destruct (proj2 (cleanup_idempotent Demo.extern Demo.scene Demo.world_bound)
              w1 tr1 Hrun)
    as (Hsecond & _ & _ & Hprogram & _ & _ & _ & _ & _ & Hmesh).
  exists w1, tr1. done.
Defined.

Lemma renderModel_contract_witness :
  renderModel Demo.extern Demo.scene Demo.model_loading Demo.identity 70 Demo.world0 =
    Some (tt, Demo.world0, []) ∧
  ∃ w' tr,
    renderModel Demo.extern Demo.scene Demo.model Demo.identity 70 Demo.world0 =
      Some (tt, w', tr) ∧
    filter (λ e, is_material_apply e || is_draw e) tr =
      [EvExt (XMaterialApply 20 70); EvGL (GlDrawElements 4 36 5125 0);
       EvExt (XMaterialApply 21 70); EvGL (GlDrawElements 4 12 5125 144)].
Proof.
  split.
  - apply (proj1 (renderModel_contract Demo.extern Demo.scene Demo.model_loading
                    Demo.identity 70 Demo.world0)).
    reflexivity.
  - apply (proj2 (proj2 (renderModel_contract Demo.extern Demo.scene Demo.model
                           Demo.identity 70 Demo.world0))).
    + reflexivity.
    + exact Demo_extern_scene_live.
    + repeat constructor; vm_compute; eauto.
    + exact Demo_world0_live.
Defined.

Lemma getAttributeNameIndex_contract_witness :
  getAttributeNameIndex "position" Demo.world0 =
    Some (0, with_attribute_names ["position"] Demo.world0, []) ∧
  collect getAttributeNameIndex ["position"; "normal"; "uv"] Demo.world0 =
    Some ([0; 1; 2], with_attribute_names ["position"; "normal"; "uv"] Demo.world0, []).
Proof.
  split.
  - apply (proj1 (proj2 (getAttributeNameIndex_contract "position" Demo.world0))).
    apply not_elem_of_nil.
  - apply (proj1 (proj2 (proj2 (proj2
             (getAttributeNameIndex_contract "position" Demo.world0))))
             ["position"; "normal"; "uv"]).
    by apply (bool_decide_unpack (NoDup ([] ++ ["position"; "normal"; "uv"]))).
Defined.

Lemma getProjectionMatrix_elements_witness :
  let m := getProjectionMatrix Demo.math (F32.of_int 90) (F32.of_int 1) (F32.of_int 1)
             Demo.tenth (F32.of_int 100) in
  m22 m = F32.of_int 1 ∧ m44 m = F32.of_int 0 ∧ m34 m = F32.of_int (-1).
Proof.
  apply (proj2 (getProjectionMatrix_elements Demo.math)).
  vm_compute. reflexivity.
Defined.

Lemma memo_invariant_witness :
  memo_inv Demo.world0 ∧
  memo_inv Demo.world_bound ∧
  ∃ w1 tr, cleanup Demo.extern Demo.scene Demo.world_bound = Some (tt, w1, tr).
Proof.
  pose proof (memo_invariant Demo.extern Demo.math Demo.scene)
    as (Hnew & Hops & Hsafe & _).
  assert (H0 : memo_inv Demo.world0) by apply Hnew.
  assert (Hb : memo_inv Demo.world_bound).
  { apply (proj1 (Hops Demo_extern_memo_inv) (OpBindGeometry 40 30) Demo.world0
             Demo.world_bound
             [EvExt (XGeometryBindBuffers 40);
              EvExt (XVertexDefBegin (mkVertexDef [0; 1; 2]) 10 0)] H0).
    by vm_compute. }
  split_and!; [exact H0|exact Hb|].
  apply Hsafe; [exact Hb|].
  intros mesh Hmesh. vm_compute in Hmesh. injection Hmesh as <-. vm_compute. eauto.
Defined.

(** * Further theorems *)

(** ** [getGLSLVersion] *)

Lemma append_empty_l (s : string) : "" +:+ s = s.
Proof. reflexivity. Qed.

Lemma append_String c (s t : string) : String c s +:+ t = String c (s +:+ t).
Proof. reflexivity. Qed.

Lemma is_digit_range c :
  is_digit c = true → 48 ≤ Z.of_N (Ascii.N_of_ascii c) ≤ 57.
Proof.
  unfold is_digit. cbv zeta. intros [Hlo Hhi]%andb_true_iff.
  apply Z.leb_le in Hlo. apply Z.leb_le in Hhi. lia.
Qed.

Lemma decimal_value_bound digits :
  all_digits digits = true →
  ∀ acc, 0 ≤ acc →
    0 ≤ decimal_value digits acc < (acc + 1) * 10 ^ Z.of_nat (String.length digits).
Proof.
  induction digits as [|c rest IH]; intros Hd acc Hacc.
  - cbn. lia.
  - cbn [all_digits] in Hd. apply andb_true_iff in Hd as [Hc Hrest].
    apply is_digit_range in Hc.
    cbn [decimal_value String.length].
    specialize (IH Hrest (acc * 10 + (Z.of_N (Ascii.N_of_ascii c) - 48)) ltac:(lia)).
    rewrite Nat2Z.inj_succ, Z.pow_succ_r by lia. nia.
Qed.

Lemma decimal_value_app major minor acc :
  decimal_value (major +:+ minor) acc = decimal_value minor (decimal_value major acc).
Proof. revert acc. induction major as [|c rest IH]; intros acc; [done|]. apply IH. Qed.

Lemma decimal_value_shift digits :
  ∀ acc, decimal_value digits acc =
         acc * 10 ^ Z.of_nat (String.length digits) + decimal_value digits 0.
Proof.
  induction digits as [|c rest IH]; intros acc.
  - cbn. lia.
  - cbn [decimal_value String.length]. rewrite IH.
    rewrite (IH (0 * 10 + _)), Nat2Z.inj_succ, Z.pow_succ_r by lia. lia.
Qed.

Lemma wrap_i32_small z : - 2 ^ 31 ≤ z < 2 ^ 31 → wrap_i32 z = z.
Proof. intros Hz. unfold wrap_i32. rewrite Z.mod_small; lia. Qed.

(** The digit loop reads a run of digits as a decimal number, as long as
    the number fits an [int]. *)
Lemma getGLSLVersion_digits_run digits rest :
  all_digits digits = true →
  no_leading_digit rest = true →
  ∀ version,
    0 ≤ version →
    (version + 1) * 10 ^ Z.of_nat (String.length digits) ≤ 2 ^ 31 →
    getGLSLVersion_digits (digits +:+ rest) version
      = (decimal_value digits version, rest).
Proof.
  intros Hd Hrest. induction digits as [|c ds IH]; intros version Hv Hfit.
  - rewrite append_empty_l. cbn [decimal_value]. destruct rest as [|r rest']; [done|].
    cbn [getGLSLVersion_digits]. cbn [no_leading_digit] in Hrest.
    by destruct (is_digit r).
  - cbn [all_digits] in Hd. apply andb_true_iff in Hd as [Hc Hds].
    rewrite append_String. cbn [getGLSLVersion_digits decimal_value]. rewrite Hc.
    apply is_digit_range in Hc.
    cbn [String.length] in Hfit. rewrite Nat2Z.inj_succ, Z.pow_succ_r in Hfit by lia.
    assert (Hpow : 1 ≤ 10 ^ Z.of_nat (String.length ds)) by (apply Z.pow_le_mono_r with (b := 0) (c := Z.of_nat (String.length ds)) (a := 10); lia).
    rewrite (wrap_i32_small (version * 10)) by nia.
    rewrite wrap_i32_small by nia.
    apply (IH Hds); [lia|nia].
Qed.

Lemma pow10_le_1e9 (n : nat) : (n ≤ 9)%nat → 10 ^ Z.of_nat n ≤ 2 ^ 31.
Proof.
  intros Hn. transitivity (10 ^ 9); [|by vm_compute].
  apply Z.pow_le_mono_r; lia.
Qed.

Lemma getGLSLVersion_dot_no_dot rest :
  no_leading_digit_or_dot rest = true → getGLSLVersion_dot rest = rest.
Proof.
  destruct rest as [|c rest]; [done|]. cbn [no_leading_digit_or_dot getGLSLVersion_dot].
  intros [_ Hdot]%andb_true_iff. by destruct (Ascii.eqb c dot).
Qed.

Lemma getGLSLVersion_digits_none rest version :
  no_leading_digit rest = true → getGLSLVersion_digits rest version = (version, rest).
Proof.
  destruct rest as [|c rest]; [done|]. cbn [no_leading_digit getGLSLVersion_digits].
  by destruct (is_digit c).
Qed.

(** X1.  [getGLSLVersion] reads the driver's version string as
    major digits, a dot, minor digits, and returns the number the digits of
    both groups write one after the other ([4.30 ...] gives 430), ignoring
    whatever follows the second group; a string with one group of digits and
    no dot gives that number; a null string gives 0.  (Up to nine digits in
    all, so that the [int] does not overflow.) *)
Theorem getGLSLVersion_parses :
  getGLSLVersion None = 0 ∧
  (∀ major minor rest,
     all_digits major = true → all_digits minor = true →
     no_leading_digit rest = true →
     (String.length major + String.length minor ≤ 9)%nat →
     getGLSLVersion (Some (major +:+ String dot (minor +:+ rest))) =
       decimal_value major 0 * 10 ^ Z.of_nat (String.length minor)
       + decimal_value minor 0) ∧
  (∀ major rest,
     all_digits major = true →
     no_leading_digit_or_dot rest = true →
     (String.length major ≤ 9)%nat →
     getGLSLVersion (Some (major +:+ rest)) = decimal_value major 0).
Proof.
  split_and!.
  - reflexivity.
  - intros major minor rest Hmajor Hminor Hrest Hlen.
    cbn [getGLSLVersion getGLSLVersion_groups].
    rewrite (getGLSLVersion_digits_run major (String dot (minor +:+ rest)) Hmajor);
      [|reflexivity|lia|rewrite Z.mul_1_l; apply pow10_le_1e9; lia].
    cbn [getGLSLVersion_dot]. rewrite Ascii.eqb_refl.
    pose proof (decimal_value_bound major Hmajor 0 ltac:(lia)) as Hb.
    rewrite (getGLSLVersion_digits_run minor rest Hminor Hrest); [| lia |].
    + apply decimal_value_shift.
    + transitivity (10 ^ Z.of_nat (String.length major)
                    * 10 ^ Z.of_nat (String.length minor)).
      * apply Z.mul_le_mono_nonneg_r; [apply Z.pow_nonneg|]; lia.
      * rewrite <- Z.pow_add_r, <- Nat2Z.inj_add by lia. by apply pow10_le_1e9.
  - intros major rest Hmajor Hrest Hlen.
    assert (Hnd : no_leading_digit rest = true).
    { destruct rest as [|c rest]; [done|]. cbn in Hrest |- *.
      by apply andb_true_iff in Hrest as [? _]. }
    cbn [getGLSLVersion getGLSLVersion_groups].
    rewrite (getGLSLVersion_digits_run major rest Hmajor Hnd);
      [|lia|rewrite Z.mul_1_l; apply pow10_le_1e9; lia].
    rewrite (getGLSLVersion_dot_no_dot rest Hrest).
    by rewrite (getGLSLVersion_digits_none rest _ Hnd).
Qed.

Lemma getGLSLVersion_parses_witness :
  getGLSLVersion (Some "4.30 NVIDIA via Cg compiler") = 430 ∧
  getGLSLVersion (Some "1.20.8") = 120 ∧
  getGLSLVersion (Some "330 core") = 330.
Proof.
  split_and!.
  - exact (proj1 (proj2 getGLSLVersion_parses) "4" "30" " NVIDIA via Cg compiler"
             eq_refl eq_refl eq_refl ltac:(cbn; lia)).
  - exact (proj1 (proj2 getGLSLVersion_parses) "1" "20" ".8"
             eq_refl eq_refl eq_refl ltac:(cbn; lia)).
  - exact (proj2 (proj2 getGLSLVersion_parses) "330" " core"
             eq_refl eq_refl ltac:(cbn; lia)).
Defined.

(** ** [applyShader] *)

Lemma setFixedCachedUniform_Matrix_bound s name mtx w sh :
  shaders w !! s = Some sh →
  m_last_program_id (renderer w) = Shader_getProgramId sh →
  ∃ g,
    setFixedCachedUniform_Matrix s name mtx w =
      Some (tt, set_gl g w, fixed_matrix_push sh name mtx) ∧
    gl_current_program g = gl_current_program (gl w).
Proof.
  intros Hs Hc.
  change (setFixedCachedUniform_Matrix s name mtx)
    with (uniform_protocol (λ sh, Shader_getFixedCachedUniformLocation sh name)
            (uniform_write (ArgMatrix mtx)) s).
  rewrite (uniform_protocol_run _ _ _ _ _ Hs), Hc, Z.eqb_refl.
  unfold fixed_matrix_push.
  destruct (0 <=? Shader_getFixedCachedUniformLocation sh name).
  - eexists. split; [reflexivity|].
    by rewrite gl_exec_uniform_write, gl_write_uniform_program.
  - exists (gl w). split; [|done]. by destruct w.
Qed.

Lemma applyShader_run X s combination w sh0 :
  shaders w !! s = Some sh0 →
  let sh :=
    Shader_setCurrentCombination combination (m_current_pass_hash (renderer w)) sh0 in
  let id := Shader_getProgramId sh in
  let tr :=
    EvGL (GlUseProgram id)
    :: fixed_matrix_push sh (fixed_cached_uniform_index X VIEW_MATRIX)
         (m_view_matrix (renderer w))
    ++ fixed_matrix_push sh (fixed_cached_uniform_index X PROJECTION_MATRIX)
         (m_projection_matrix (renderer w)) in
  ∃ w',
    applyShader X s combination w = Some (tt, w', tr) ∧
    bind_count tr = 1%nat ∧
    shaders w' = <[s := sh]> (shaders w) ∧
    renderer w' = set_m_last_program_id id (renderer w) ∧
    gl_current_program (gl w') = id.
Proof.
  intros Hs0 sh id tr. subst tr.
  unfold applyShader. rewrite bind_read, bind_load_shader, Hs0.
  rewrite bind_store_shader, bind_load_shader. cbn [shaders set_shaders].
  rewrite lookup_insert_eq. fold sh. fold id.
  rewrite bind_write, bind_gl_call, bind_read.
  match goal with |- context [after_events _ (_ ?w1')] => set (w1 := w1') end.
  assert (Hs1 : shaders w1 !! s = Some sh) by apply lookup_insert_eq.
  destruct (setFixedCachedUniform_Matrix_bound s
              (fixed_cached_uniform_index X VIEW_MATRIX)
              (m_view_matrix (renderer w1)) w1 sh Hs1 eq_refl)
    as (g2 & Hrun2 & Hg2).
  rewrite bind_after, Hrun2, bind_read.
  destruct (setFixedCachedUniform_Matrix_bound s
              (fixed_cached_uniform_index X PROJECTION_MATRIX)
              (m_projection_matrix (renderer (set_gl g2 w1))) (set_gl g2 w1) sh Hs1
              eq_refl)
    as (g3 & Hrun3 & Hg3).
  rewrite Hrun3. eexists. split; [reflexivity|].
  split_and!; try reflexivity.
  - unfold fixed_matrix_push.
    by destruct (0 <=? _), (0 <=? _).
  - cbn [gl set_gl]. rewrite Hg3. cbn [gl set_gl]. by rewrite Hg2.
Qed.

(** X2.  [applyShader(shader, combination)] on a live shader: it selects the
    program of the combination and of the current pass, calls
    [glUseProgram] for it whether or not the cache already names it, records
    it in the cache, and then pushes the current view matrix and the current
    projection matrix to the fixed uniforms the program has, without a
    second bind.  Afterwards the cache and the driver name that program. *)
Theorem applyShader_binds_and_pushes X s combination w sh0 :
  shaders w !! s = Some sh0 →
  let sh :=
    Shader_setCurrentCombination combination (m_current_pass_hash (renderer w)) sh0 in
  let id := Shader_getProgramId sh in
  let tr :=
    EvGL (GlUseProgram id)
    :: fixed_matrix_push sh (fixed_cached_uniform_index X VIEW_MATRIX)
         (m_view_matrix (renderer w))
    ++ fixed_matrix_push sh (fixed_cached_uniform_index X PROJECTION_MATRIX)
         (m_projection_matrix (renderer w)) in
  ∃ w',
    applyShader X s combination w = Some (tt, w', tr) ∧
    bind_count tr = 1%nat ∧
    shaders w' = <[s := sh]> (shaders w) ∧
    renderer w' = set_m_last_program_id id (renderer w) ∧
    gl_current_program (gl w') = id.
Proof. apply applyShader_run. Qed.

Lemma applyShader_binds_and_pushes_witness :
  ∃ w',
    applyShader Demo.extern 11 0 Demo.world0 =
      Some (tt, w',
            [EvGL (GlUseProgram 9);
             EvGL (GlUniformMatrix4fv 0 1 false [Demo.raw_matrix]);
             EvGL (GlUniformMatrix4fv 1 1 false [Demo.raw_matrix])]) ∧
    m_last_program_id (renderer w') = 9 ∧
    gl_current_program (gl w') = 9.
Proof.
  destruct (applyShader_binds_and_pushes Demo.extern 11 0 Demo.world0 Demo.shader_b
              eq_refl) as (w' & Hrun & _ & _ & Hr & Hg).
  exists w'. split; [exact Hrun|]. split; [by rewrite Hr|exact Hg].
Defined.

(** ** Uniform writes on several shaders *)

Lemma run_any_obeys c w sh :
  any_call_ok c →
  shaders w !! any_shader c = Some sh →
  uniform_contract (run_any c) sh (any_location sh c) (any_arg c) w.
Proof.
  destruct c as [c|c]; [apply setUniform_obeys|apply setFixedCachedUniform_obeys].
Qed.

Lemma uniform_writes_run calls :
  ∀ w,
    Forall (λ c, any_call_ok c ∧ is_Some (shaders w !! any_shader c)) calls →
    ∃ w',
      run_all run_any calls w =
        Some (tt, w', uniform_trace (shaders w) (m_last_program_id (renderer w)) calls) ∧
      shaders w' = shaders w.
Proof.
  induction calls as [|c rest IH]; intros w Hall.
  - exists w. done.
  - apply Forall_cons in Hall as [[Hok [sh Hs]] Hrest].
    rewrite run_all_cons. cbn [uniform_trace]. rewrite Hs.
    destruct (run_any_obeys c w sh Hok Hs) as (Hneg & Hne & Heq).
    destruct (Z.leb_spec 0 (any_location sh c)) as [Hpos|Hlt].
    + destruct (Z.eqb_spec (m_last_program_id (renderer w)) (Shader_getProgramId sh))
        as [Hc|Hc].
      * rewrite (Heq Hpos Hc).
        destruct (IH (set_gl (gl_exec (uniform_write (any_arg c) (any_location sh c))
                                (gl w)) w) Hrest) as (w' & Hrun & Hsh).
        rewrite Hrun. exists w'. cbn [shaders set_gl renderer] in *.
        rewrite Hc. done.
      * destruct (Hne Hpos Hc) as (w1 & Hrun1 & Hr1 & _ & Hsh1 & _).
        rewrite Hrun1.
        destruct (IH w1) as (w' & Hrun & Hsh).
        { by rewrite Hsh1. }
        rewrite Hrun, Hsh1, Hr1. exists w'. split; [done|]. by rewrite Hsh, Hsh1.
    + rewrite (Hneg Hlt).
      destruct (IH w Hrest) as (w' & Hrun & Hsh).
      rewrite Hrun. exists w'. done.
Qed.

Lemma bind_count_app t1 t2 : bind_count (t1 ++ t2) = (bind_count t1 + bind_count t2)%nat.
Proof. unfold bind_count. by rewrite filter_app, length_app. Qed.

Lemma bind_count_uniform_trace shs calls :
  ∀ cached, bind_count (uniform_trace shs cached calls) = program_switches shs cached calls.
Proof.
  induction calls as [|c rest IH]; intros cached; [done|].
  cbn [uniform_trace program_switches].
  destruct (shs !! any_shader c) as [sh|]; [|done].
  destruct (0 <=? any_location sh c); [|apply IH].
  rewrite bind_count_app, bind_count_uniform_write, IH.
  by destruct (cached =? Shader_getProgramId sh).
Qed.

(** X3.  Any sequence of [setUniform] and [setFixedCachedUniform] calls, on
    any live shaders: the sequence runs to its end, a call issues
    [glUseProgram] exactly when it resolves a location and its shader's
    program is not the one cached at that moment, and so the number of
    binds is the number of program changes along the resolving calls (not
    the number of distinct programs: going back to an earlier program binds
    again). *)
Theorem uniform_writes_bind_on_program_change calls w :
  Forall (λ c, any_call_ok c ∧ is_Some (shaders w !! any_shader c)) calls →
  ∃ w' tr,
    run_all run_any calls w = Some (tt, w', tr) ∧
    tr = uniform_trace (shaders w) (m_last_program_id (renderer w)) calls ∧
    bind_count tr =
      program_switches (shaders w) (m_last_program_id (renderer w)) calls.
Proof.
  intros Hall. destruct (uniform_writes_run calls w Hall) as (w' & Hrun & _).
  eexists _, _. split; [exact Hrun|]. split; [done|].
  apply bind_count_uniform_trace.
Qed.

Lemma uniform_writes_bind_on_program_change_witness :
  ∃ w' tr,
    run_all run_any demo_alternating_calls Demo.world0 = Some (tt, w', tr) ∧
    tr = [EvGL (GlUseProgram 7); EvGL (GlUniform1i 3 4);
          EvGL (GlUseProgram 9); EvGL (GlUniform1f 1 F32.half);
          EvGL (GlUseProgram 7); EvGL (GlUniform1f 5 Demo.tenth)] ∧
    bind_count tr = 3%nat.
Proof.
  apply (uniform_writes_bind_on_program_change demo_alternating_calls Demo.world0).
  repeat constructor; vm_compute; eauto.
Defined.

(** ** Frames *)

Lemma cleanup_context_clean X Σ w w1 tr :
  cleanup X Σ w = Some (tt, w1, tr) → context_clean w1.
Proof.
  intros Hrun. destruct (cleanup_result _ _ _ _ _ Hrun) as [g ->].
  unfold context_clean. cbn [renderer gl]. split_and!; try reflexivity.
  intros u Hu. by apply gl_cleaned_texture.
Qed.

Lemma render_run X Σ device w :
  device ∈ sc_devices Σ →
  render X Σ device w =
  after_events [EvGL (GlEnable GL_DEPTH_TEST); EvGL (GlDisable GL_BLEND);
                EvExt (XPipelineRender device)]
    (cleanup X Σ (ext_world X (XPipelineRender device) (render_prepared w))).
Proof.
  intros Hlive. unfold render, live_device. autorewrite with run.
  rewrite decide_True by done. autorewrite with run.
  destruct (cleanup X Σ _) as [[[[] ?] ?]|]; reflexivity.
Qed.

(** X4.  [render(device)] on a live device: it switches the depth test on
    and blending off, in this state lets the device's pipeline render, and
    ends with [cleanup].  So whatever the pipeline bound, when [render]
    returns no program is current, no vertex or index buffer and no 2D
    texture on units 0 to 15 is bound, unit 0 is active and the geometry
    memo is empty; and [render] returns whenever the binding the pipeline
    left recorded can be torn down. *)
Theorem render_leaves_clean_context X Σ device w :
  device ∈ sc_devices Σ →
  let handed := render_prepared w in
  let drawn := ext_world X (XPipelineRender device) handed in
  (GL_DEPTH_TEST ∈ gl_enabled (gl handed) ∧ GL_BLEND ∉ gl_enabled (gl handed)) ∧
  render X Σ device w =
    after_events [EvGL (GlEnable GL_DEPTH_TEST); EvGL (GlDisable GL_BLEND);
                  EvExt (XPipelineRender device)]
      (cleanup X Σ drawn) ∧
  (∀ w' tr, render X Σ device w = Some (tt, w', tr) → context_clean w') ∧
  (memo_live Σ drawn → ∃ w' tr, render X Σ device w = Some (tt, w', tr)).
Proof.
  intros Hlive handed drawn. split_and!.
  - unfold handed, render_prepared. cbn [gl set_gl gl_exec gl_set_enabled gl_enabled].
    apply elem_of_difference. split; [apply elem_of_union_r; by apply elem_of_singleton|].
    rewrite elem_of_singleton. by vm_compute.
  - unfold handed, render_prepared. cbn [gl set_gl gl_exec gl_set_enabled gl_enabled].
    rewrite elem_of_difference, elem_of_singleton. by intros [_ []].
  - by apply render_run.
  - intros w' tr. rewrite (render_run _ _ _ _ Hlive).
    destruct (cleanup X Σ _) as [[[[] w1] t1]|] eqn:Hclean; [|done].
    intros [= <- _]. exact (cleanup_context_clean _ _ _ _ _ Hclean).
  - intros Hmemo. rewrite (render_run _ _ _ _ Hlive). fold handed. fold drawn.
    destruct (m_last_bind_geometry (renderer drawn)) as [g|] eqn:Hg.
    + destruct (Hmemo (ltac:(eauto))) as (mesh & Hmesh & [[m shader] Hlayout]).
      rewrite (cleanup_bound _ _ _ _ _ _ _ Hg Hmesh Hlayout). cbn. eauto.
    + rewrite (cleanup_unbound _ _ _ Hg). cbn. eauto.
Qed.

Lemma render_leaves_clean_context_witness :
  ∃ w' tr,
    render Demo.extern Demo.scene 50 Demo.world_bound = Some (tt, w', tr) ∧
    context_clean w'.
Proof.
  pose proof (render_leaves_clean_context Demo.extern Demo.scene 50 Demo.world_bound)
    as Hrender.
  destruct Hrender as (_ & _ & Hclean & Hruns).
  { by vm_compute. }
  destruct Hruns as (w' & tr & Hrun).
  { intros _. exists 30. split; [reflexivity|]. vm_compute. eauto. }
  exists w', tr. split; [exact Hrun|]. exact (Hclean w' tr Hrun).
Defined.

(** X5.  [renderGame] after [setRenderDevice(device)] with a live device,
    from any renderer (whatever the device pointer held before), when
    outside code leaves the device pointer alone: one frame on that device,
    that is [beginFrame], the calls of [render] (depth test on, blending
    off, the pipeline, [cleanup]) and [endFrame], in this order.  With a
    null device pointer [renderGame] does nothing. *)
Theorem renderGame_after_setRenderDevice X Σ w :
  (m_render_device (renderer w) = None → renderGame X Σ w = Some (tt, w, [])) ∧
  (∀ d,
     (∀ c w, m_render_device (renderer (ext_world X c w))
             = m_render_device (renderer w)) →
     d ∈ sc_devices Σ →
     let w0 := set_renderer (set_m_render_device (Some d) (renderer w)) w in
     let drawn :=
       ext_world X (XPipelineRender d)
         (render_prepared (ext_world X (XBeginFrame d) w0)) in
     (setRenderDevice d;; renderGame X Σ) w =
     match cleanup X Σ drawn with
     | Some (_, w3, t3) =>
         Some (tt, ext_world X (XEndFrame d) w3,
               [EvExt (XBeginFrame d); EvGL (GlEnable GL_DEPTH_TEST);
                EvGL (GlDisable GL_BLEND); EvExt (XPipelineRender d)]
               ++ t3 ++ [EvExt (XEndFrame d)])
     | None => None
     end).
Proof.
  split; [apply renderGame_null|].
  intros d HX Hlive w0 drawn. unfold setRenderDevice. rewrite bind_write. fold w0.
  by rewrite (renderGame_frame X Σ w0 d HX eq_refl Hlive).
Qed.

Lemma Demo_extern_render_device c w :
  m_render_device (renderer (ext_world Demo.extern c w)) = m_render_device (renderer w).
Proof.
  cbn [ext_world Demo.extern]. destruct c; try done. cbn [Demo.world_effect].
  destruct (sc_materials Demo.scene !! material ≫= mat_shader) as [shader|]; [|done].
  destruct (applyShader Demo.extern_passive shader 0 w) as [[[[] w'] tr]|] eqn:Hrun;
    [|done].
  destruct (shaders w !! shader) as [sh0|] eqn:Hs.
  - destruct (applyShader_run Demo.extern_passive shader 0 w sh0 Hs)
      as (w'' & Hrun' & _ & _ & Hr & _).
    rewrite Hrun in Hrun'. injection Hrun' as <-. by rewrite Hr.
  - unfold applyShader in Hrun. by rewrite bind_read, bind_load_shader, Hs in Hrun.
Qed.

Lemma renderGame_after_setRenderDevice_witness :
  ∃ w',
    (setRenderDevice 50;; renderGame Demo.extern Demo.scene) Demo.world0 =
      Some (tt, w',
            [EvExt (XBeginFrame 50); EvGL (GlEnable GL_DEPTH_TEST);
             EvGL (GlDisable GL_BLEND); EvExt (XPipelineRender 50)]
            ++ map EvGL cleanup_gl_calls ++ [EvExt (XEndFrame 50)]).
Proof.
  pose proof (proj2 (renderGame_after_setRenderDevice Demo.extern Demo.scene
                       Demo.world0) 50 Demo_extern_render_device) as Hframe.
  cbv zeta in Hframe. rewrite Hframe by (by vm_compute).
  rewrite cleanup_unbound by reflexivity. eexists. reflexivity.
Defined.

(** ** Fixed-function flags *)

(** X6.  [enableZTest] and [enableAlphaToCoverage] make one
    [glEnable]/[glDisable] call per capability; afterwards the depth test
    (respectively multisampling and alpha-to-coverage, both) is enabled
    exactly when the argument is true, whatever it was before, every other
    capability is as before, and the renderer's own state is untouched. *)
Theorem enable_flags_follow_argument enable w :
  (∃ g,
     enableZTest enable w = Some (tt, set_gl g w,
       [EvGL ((if enable then GlEnable else GlDisable) GL_DEPTH_TEST)]) ∧
     (GL_DEPTH_TEST ∈ gl_enabled g ↔ enable = true) ∧
     (∀ cap, cap ≠ GL_DEPTH_TEST → cap ∈ gl_enabled g ↔ cap ∈ gl_enabled (gl w))) ∧
  (∃ g,
     enableAlphaToCoverage enable w = Some (tt, set_gl g w,
       [EvGL ((if enable then GlEnable else GlDisable) GL_MULTISAMPLE);
        EvGL ((if enable then GlEnable else GlDisable) GL_SAMPLE_ALPHA_TO_COVERAGE)]) ∧
     (GL_MULTISAMPLE ∈ gl_enabled g ↔ enable = true) ∧
     (GL_SAMPLE_ALPHA_TO_COVERAGE ∈ gl_enabled g ↔ enable = true) ∧
     (∀ cap, cap ≠ GL_MULTISAMPLE → cap ≠ GL_SAMPLE_ALPHA_TO_COVERAGE →
             cap ∈ gl_enabled g ↔ cap ∈ gl_enabled (gl w))).
Proof.
  assert (Hne : GL_MULTISAMPLE ≠ GL_SAMPLE_ALPHA_TO_COVERAGE) by by vm_compute.
  split.
  - unfold enableZTest. destruct enable; rewrite gl_call_run;
      (eexists; split; [reflexivity|]);
      cbn [gl_exec gl_set_enabled gl_enabled]; split.
    + rewrite elem_of_union, elem_of_singleton. tauto.
    + intros cap Hcap. rewrite elem_of_union, elem_of_singleton. tauto.
    + rewrite elem_of_difference, elem_of_singleton. split; [tauto|done].
    + intros cap Hcap. rewrite elem_of_difference, elem_of_singleton. tauto.
  - unfold enableAlphaToCoverage. destruct enable; autorewrite with run;
      (eexists; split; [reflexivity|]);
      cbn [gl set_gl gl_exec gl_set_enabled gl_enabled]; split_and!.
    + rewrite !elem_of_union, !elem_of_singleton. tauto.
    + rewrite !elem_of_union, !elem_of_singleton. tauto.
    + intros cap H1 H2. rewrite !elem_of_union, !elem_of_singleton. tauto.
    + rewrite !elem_of_difference, !elem_of_singleton. split; [tauto|done].
    + rewrite !elem_of_difference, !elem_of_singleton. split; [tauto|done].
    + intros cap H1 H2. rewrite !elem_of_difference, !elem_of_singleton. tauto.
Qed.

(** ** Setters and getters *)


(** ** Degenerate view volumes *)

Lemma F32_sub_self x : f32_is_number x = true → F32.sub x x = S754_zero false.
Proof.
  destruct x as [s| s | |s m e]; try done; intros _.
  - by destruct s.
  - unfold F32.sub, SFsub. cbv zeta. by rewrite Z.sub_diag.
Qed.

Lemma F32_div_by_zero y s : f32_is_number (F32.div y (S754_zero s)) = false.
Proof. by destruct y. Qed.

(** X8.  Neither matrix helper guards against a view volume of no extent.
    [getProjectionMatrix] with the near plane equal to the far plane (any
    number) divides by zero: [m33] and [m43] come out as an infinity or a
    NaN.  [getOrthoMatrix] with [right = left], [top = bottom] or
    [z_far = z_near] gives [m11], [m22] = +infinity, [m33] = -infinity and
    an infinity or a NaN in the matching translation term. *)
Theorem degenerate_volume_is_not_a_number (L : MathLib) x :
  f32_is_number x = true →
  (∀ fov width height,
     let m := getProjectionMatrix L fov width height x x in
     f32_is_number (m33 m) = false ∧ f32_is_number (m43 m) = false) ∧
  (∀ bottom top z_near z_far,
     let m := getOrthoMatrix L x x bottom top z_near z_far in
     m11 m = S754_infinity false ∧ f32_is_number (m41 m) = false) ∧
  (∀ left right z_near z_far,
     let m := getOrthoMatrix L left right x x z_near z_far in
     m22 m = S754_infinity false ∧ f32_is_number (m42 m) = false) ∧
  (∀ left right bottom top,
     let m := getOrthoMatrix L left right bottom top x x in
     m33 m = S754_infinity true ∧ f32_is_number (m43 m) = false).
Proof.
  intros Hx. pose proof (F32_sub_self x Hx) as Hsub.
  split_and!; intros; subst m;
    cbn [getProjectionMatrix getOrthoMatrix m11 m22 m33 m41 m42 m43
         set_m11 set_m22 set_m33 set_m34 set_m41 set_m42 set_m43 set_m44];
    rewrite Hsub; split; first [reflexivity | apply F32_div_by_zero].
Qed.

Lemma degenerate_volume_is_not_a_number_witness :
  let m := getProjectionMatrix Demo.math (F32.of_int 90) (F32.of_int 4) (F32.of_int 3)
             Demo.tenth Demo.tenth in
  f32_is_number (m33 m) = false ∧ f32_is_number (m43 m) = false.
Proof.
  apply (proj1 (degenerate_volume_is_not_a_number Demo.math Demo.tenth eq_refl)).
Defined.

(** ** Instanced draws *)

Lemma zero_divisors_lookup ids :
  ∀ (d : gmap Z Z) id,
    zero_divisors ids d !! id = if decide (id ∈ ids) then Some 0 else d !! id.
Proof.
  unfold zero_divisors. induction ids as [|x rest IH]; intros d id.
  - cbn. by rewrite decide_False by apply not_elem_of_nil.
  - cbn [foldl]. rewrite IH.
    destruct (decide (id ∈ rest)) as [Hin|Hnin].
    + by rewrite decide_True by (by right).
    + destruct (decide (id = x)) as [->|Hne].
      * rewrite lookup_insert_eq. by rewrite decide_True by left.
      * rewrite lookup_insert_ne by done.
        rewrite decide_False; [done|]. by intros [?|?]%elem_of_cons.
Qed.

Lemma gl_run_zero_divisors ids :
  ∀ g,
    gl_run (map (λ id, GlVertexAttribDivisor id 0) ids) g =
    gl_set_attrib_divisor (zero_divisors ids (gl_attrib_divisor g)) g.
Proof.
  unfold gl_run, zero_divisors. induction ids as [|x rest IH]; intros g.
  - by destruct g.
  - cbn [map foldl]. rewrite IH. reflexivity.
Qed.

Lemma reset_divisors_run sh rest :
  ∀ i w,
    drop i (prog_attrib_ids (sh_current sh)) = rest →
    reset_divisors sh (length rest) i w =
    Some (tt,
          set_gl (gl_run (map (λ id, GlVertexAttribDivisor id 0)
                            (filter (λ id, 0 ≤ id) rest)) (gl w)) w,
          map EvGL (map (λ id, GlVertexAttribDivisor id 0)
                      (filter (λ id, 0 ≤ id) rest))).
Proof.
  induction rest as [|x rest IH]; intros i w Hdrop.
  - by destruct w.
  - assert (Hi : prog_attrib_ids (sh_current sh) !! i = Some x).
    { rewrite <- (Nat.add_0_r i), <- lookup_drop, Hdrop. done. }
    assert (Hrest : drop (S i) (prog_attrib_ids (sh_current sh)) = rest).
    { rewrite (drop_S _ _ _ Hi) in Hdrop. by injection Hdrop. }
    cbn [length reset_divisors]. cbv zeta.
    assert (Hid : Shader_getAttribId sh i = x).
    { unfold Shader_getAttribId. by rewrite nth_lookup, Hi. }
    rewrite Hid, filter_cons.
    destruct (Z.leb_spec 0 x) as [Hpos|Hneg].
    + rewrite decide_True by done. autorewrite with run.
      rewrite (IH (S i) _ Hrest). reflexivity.
    + rewrite decide_False by lia. autorewrite with run.
      by rewrite (IH (S i) _ Hrest).
Qed.

(** X9.  [renderInstancedGeometry] on a live shader: for every attribute id
    of the shader that is a location it sets the vertex-attribute divisor
    to 0 (ids that are negative are passed over), then issues exactly one
    instanced draw, for the given counts and at byte offset
    [indices_offset * 4].  Afterwards the divisor of each of these
    attributes is 0, every other divisor is as before, the current program
    is as before (the function binds nothing), and the renderer is
    untouched. *)
Theorem renderInstancedGeometry_resets_divisors
    indices_offset vertex_count instance_count s sh w :
  shaders w !! s = Some sh →
  ∃ g,
    renderInstancedGeometry indices_offset vertex_count instance_count s w =
      Some (tt, set_gl g w,
            map (λ id, EvGL (GlVertexAttribDivisor id 0)) (located_attribs sh)
            ++ [EvGL (GlDrawElementsInstanced GL_TRIANGLES vertex_count
                        GL_UNSIGNED_INT (wrap_size_t (indices_offset * 4))
                        instance_count)]) ∧
    (∀ id, id ∈ located_attribs sh → gl_attrib_divisor g !! id = Some 0) ∧
    (∀ id, id ∉ located_attribs sh →
           gl_attrib_divisor g !! id = gl_attrib_divisor (gl w) !! id) ∧
    gl_current_program g = gl_current_program (gl w) ∧
    (0 ≤ indices_offset < 2 ^ 62 →
     wrap_size_t (indices_offset * 4) = indices_offset * 4).
Proof.
  intros Hs. unfold renderInstancedGeometry. rewrite bind_load_shader, Hs.
  unfold Shader_getAttributeCount. rewrite Nat2Z.id, bind_after.
  rewrite (reset_divisors_run sh (prog_attrib_ids (sh_current sh)) 0 w) by apply drop_0.
  fold (located_attribs sh). rewrite gl_run_zero_divisors.
  eexists. split.
  { rewrite gl_call_run. cbn [after_events]. rewrite map_map. reflexivity. }
  cbn [gl set_gl gl_exec gl_set_attrib_divisor gl_attrib_divisor gl_current_program].
  split_and!.
  - intros id Hin. by rewrite zero_divisors_lookup, decide_True.
  - intros id Hnin. by rewrite zero_divisors_lookup, decide_False.
  - reflexivity.
  - intros Hrange. unfold wrap_size_t. apply Z.mod_small. lia.
Qed.

Lemma renderInstancedGeometry_resets_divisors_witness :
  ∃ g,
    renderInstancedGeometry 36 12 8 10 Demo.world0 =
      Some (tt, set_gl g Demo.world0,
            [EvGL (GlVertexAttribDivisor 0 0); EvGL (GlVertexAttribDivisor 1 0);
             EvGL (GlVertexAttribDivisor 2 0);
             EvGL (GlDrawElementsInstanced GL_TRIANGLES 12 GL_UNSIGNED_INT 144 8)]) ∧
    gl_attrib_divisor g !! 2 = Some 0.
Proof.
  destruct (renderInstancedGeometry_resets_divisors 36 12 8 10 Demo.shader_a
              Demo.world0 eq_refl) as (g & Hrun & Hset & _).
  exists g. split; [exact Hrun|]. apply Hset.
  apply (list_elem_of_lookup_2 _ 2%nat). vm_compute. reflexivity.
Defined.

(** ** Vertex layouts across rebinding *)

Lemma bindGeometry_balanced X Σ geometry mesh w :
  memo_mesh_live Σ w →
  is_Some (scene_mesh_layout Σ mesh) →
  ∃ w' tr,
    bindGeometry X Σ geometry mesh w = Some (tt, w', tr) ∧
    memo_mesh_live Σ w' ∧
    (memo_inv w → memo_inv w') ∧
    ∀ rest,
      layouts_balanced (open_layout Σ w) (tr ++ rest)
      = layouts_balanced (open_layout Σ w') rest.
Proof.
  intros Hlive [[m shader] Hmesh].
  destruct (decide (m_last_bind_geometry_mesh (renderer w) = Some mesh)) as [He|Hne].
  - rewrite (bindGeometry_same _ _ _ _ _ He). exists w, []. done.
  - rewrite (bindGeometry_rebind _ _ _ _ _ _ _ Hne Hmesh Hlive).
    eexists _, _. split; [reflexivity|]. split_and!.
    + intros prev [= <-]. by rewrite Hmesh.
    + intros _. unfold memo_inv. cbn. split; eauto.
    + intros rest. unfold open_layout, rebind_calls.
      cbn [renderer m_last_bind_geometry_mesh set_m_last_bind_geometry_mesh].
      cbn [mbind option_bind]. rewrite Hmesh. cbn [mbind option_bind].
      destruct (m_last_bind_geometry_mesh (renderer w)) as [prev|] eqn:Hlast.
      * destruct (Hlive prev Hlast) as [[pm pshader] Hprev].
        cbn [mbind option_bind]. rewrite Hprev. cbn [mbind option_bind].
        cbn [map app layouts_balanced]. by rewrite decide_True.
      * reflexivity.
Qed.

Lemma cleanup_balanced X Σ w :
  memo_inv w → memo_mesh_live Σ w →
  ∃ w' tr,
    cleanup X Σ w = Some (tt, w', tr) ∧
    layouts_balanced (open_layout Σ w) tr = true.
Proof.
  intros Hinv Hlive. unfold open_layout.
  destruct (m_last_bind_geometry (renderer w)) as [g|] eqn:Hg.
  - destruct (proj1 Hinv) as [mesh Hmesh]; [by rewrite Hg|].
    destruct (Hlive mesh Hmesh) as [[m shader] Hlayout].
    rewrite (cleanup_bound _ _ _ _ _ _ _ Hg Hmesh Hlayout).
    eexists _, _. split; [reflexivity|].
    rewrite Hmesh. cbn [mbind option_bind]. rewrite Hlayout.
    cbn [mbind option_bind layouts_balanced]. by rewrite decide_True.
  - rewrite (cleanup_unbound _ _ _ Hg). eexists _, _. split; [reflexivity|].
    destruct (m_last_bind_geometry_mesh (renderer w)) as [mesh|] eqn:Hmesh.
    + destruct (proj2 Hinv) as [? ?]; [by rewrite Hmesh|]. congruence.
    + reflexivity.
Qed.

Lemma bindGeometry_sequence_balanced X Σ calls :
  Forall (λ c, is_Some (scene_mesh_layout Σ c.2)) calls →
  ∀ w,
    memo_inv w → memo_mesh_live Σ w →
    ∃ w' tr,
      (run_all (bindGeometry_call X Σ) calls;; cleanup X Σ) w = Some (tt, w', tr) ∧
      layouts_balanced (open_layout Σ w) tr = true.
Proof.
  intros Hall. induction Hall as [|[geometry mesh] rest Hmesh _ IH]; intros w Hinv Hlive.
  - cbn [run_all]. rewrite bind_ret. by apply cleanup_balanced.
  - cbn [run_all]. rewrite bind_assoc_run, bind_after.
    destruct (bindGeometry_balanced X Σ geometry mesh w Hlive Hmesh)
      as (w1 & t1 & Hrun1 & Hlive1 & Hinv1 & Hbal1).
    unfold bindGeometry_call at 1. cbn [fst snd]. rewrite Hrun1.
    destruct (IH w1 (Hinv1 Hinv) Hlive1) as (w' & tr & Hrun & Hbal).
    rewrite Hrun. cbn [after_events]. eexists _, _. split; [reflexivity|].
    by rewrite Hbal1.
Qed.

(** X10.  Vertex layouts stay paired.  From a renderer whose memo is
    consistent (both pointers null, as after construction or [cleanup], or a
    live mesh recorded), any sequence of [bindGeometry] calls on live
    meshes followed by [cleanup] runs to its end, and in its trace every
    [VertexDef::begin] is made with no layout set up, every
    [VertexDef::end] carries the vertex definition and the shader of the
    layout set up last, and after [cleanup] no layout is left set up. *)
Theorem vertex_layouts_are_paired X Σ calls w :
  memo_inv w → memo_mesh_live Σ w →
  Forall (λ c, is_Some (scene_mesh_layout Σ c.2)) calls →
  ∃ w' tr,
    (run_all (bindGeometry_call X Σ) calls;; cleanup X Σ) w = Some (tt, w', tr) ∧
    layouts_balanced (open_layout Σ w) tr = true.
Proof.
  intros Hinv Hlive Hall. by apply bindGeometry_sequence_balanced.
Qed.

Lemma vertex_layouts_are_paired_witness :
  ∃ w' tr,
    (run_all (bindGeometry_call Demo.extern Demo.scene)
       [(40, 30); (40, 30); (40, 31); (40, 30)];;
     cleanup Demo.extern Demo.scene) Demo.world0 = Some (tt, w', tr) ∧
    layouts_balanced None tr = true.
Proof.
  apply (vertex_layouts_are_paired Demo.extern Demo.scene
           [(40, 30); (40, 30); (40, 31); (40, 30)] Demo.world0).
  - split; intros [? H]; vm_compute in H; discriminate.
  - intros prev Hprev. by vm_compute in Hprev.
  - repeat constructor; vm_compute; eauto.
Defined.

(** ** Buffer binds of a model *)

Lemma setFixedCachedUniform_Matrix_no_buffer_bind s name mtx w sh :
  shaders w !! s = Some sh →
  ∃ w' tr,
    setFixedCachedUniform_Matrix s name mtx w = Some (tt, w', tr) ∧
    shaders w' = shaders w ∧
    m_last_bind_geometry_mesh (renderer w') = m_last_bind_geometry_mesh (renderer w) ∧
    filter is_buffer_bind tr = [].
Proof.
  intros Hs.
  change (setFixedCachedUniform_Matrix s name mtx)
    with (uniform_protocol (λ sh, Shader_getFixedCachedUniformLocation sh name)
            (λ loc, GlUniformMatrix4fv loc 1 false [mtx]) s).
  rewrite (uniform_protocol_run _ _ _ _ _ Hs).
  destruct (0 <=? _); [|by eauto 10].
  destruct (_ =? _); eexists _, _; (split; [reflexivity|done]).
Qed.

Lemma bindGeometry_buffer_binds X Σ geometry mesh w :
  scene_live Σ w →
  is_Some (scene_mesh_layout Σ mesh) →
  ∃ w' tr,
    bindGeometry X Σ geometry mesh w = Some (tt, w', tr) ∧
    scene_live Σ w' ∧
    m_last_bind_geometry_mesh (renderer w') = Some mesh ∧
    length (filter is_buffer_bind tr) =
      if decide (m_last_bind_geometry_mesh (renderer w) = Some mesh) then 0%nat else 1%nat.
Proof.
  intros [Hsh Hmemo] [[m shader] Hmesh].
  destruct (decide (m_last_bind_geometry_mesh (renderer w) = Some mesh)) as [He|Hne].
  - rewrite (bindGeometry_same _ _ _ _ _ He). exists w, []. done.
  - rewrite (bindGeometry_rebind _ _ _ _ _ _ _ Hne Hmesh Hmemo).
    eexists _, _. split; [reflexivity|]. split_and!.
    + split; cbn [renderer shaders set_m_last_bind_geometry_mesh
                  m_last_bind_geometry_mesh]; [done|].
      intros prev [= <-]. by rewrite Hmesh.
    + reflexivity.
    + unfold rebind_calls.
      by destruct (m_last_bind_geometry_mesh (renderer w) ≫= scene_mesh_layout Σ)
        as [[??]|].
Qed.

Lemma render_mesh_buffer_binds X Σ geometry transform pipeline mesh w :
  (∀ mat p w, scene_live Σ w →
     scene_live Σ (ext_world X (XMaterialApply mat p) w) ∧
     m_last_bind_geometry_mesh (renderer (ext_world X (XMaterialApply mat p) w))
       = m_last_bind_geometry_mesh (renderer w)) →
  scene_live Σ w →
  is_Some (scene_mesh_layout Σ mesh) →
  ∃ w' tr,
    render_mesh X Σ geometry transform pipeline mesh w = Some (tt, w', tr) ∧
    scene_live Σ w' ∧
    m_last_bind_geometry_mesh (renderer w') = Some mesh ∧
    length (filter is_buffer_bind tr) =
      if decide (m_last_bind_geometry_mesh (renderer w) = Some mesh) then 0%nat else 1%nat.
Proof.
  intros HX Hlive [[m shader] Hmesh].
  destruct (scene_mesh_layout_parts _ _ _ _ Hmesh)
    as (mat & material & Hm & Hmat & Hmaterial & Hshader).
  unfold render_mesh.
  rewrite bind_deref, Hm, bind_deref, Hmat, bind_deref, Hmaterial, bind_call_world.
  rewrite bind_mesh_layout, Hmesh. cbn [default].
  destruct (HX mat pipeline w Hlive) as [Hlive1 Hmemo1].
  set (w1 := ext_world X (XMaterialApply mat pipeline) w) in *.
  destruct (proj1 Hlive1 _ _ _ Hmesh) as [sh Hsh].
  destruct (setFixedCachedUniform_Matrix_no_buffer_bind shader
              (fixed_cached_uniform_index X WORLD_MATRIX) transform w1 sh Hsh)
    as (w2 & t2 & Hrun2 & Hsh2 & Hmemo2 & Hf2).
  rewrite bind_after, Hrun2.
  assert (Hlive2 : scene_live Σ w2).
  { destruct Hlive1 as [H1 H2]. split; [by rewrite Hsh2|by rewrite Hmemo2]. }
  destruct (bindGeometry_buffer_binds X Σ geometry mesh w2 Hlive2
              (ltac:(by rewrite Hmesh)))
    as (w3 & t3 & Hrun3 & Hlive3 & Hmemo3 & Hf3).
  rewrite bind_after, Hrun3. unfold renderGeometry. rewrite gl_call_run.
  cbn [after_events]. eexists _, _. split; [reflexivity|]. split_and!.
  - destruct Hlive3 as [H1 H2]. split; done.
  - exact Hmemo3.
  - rewrite !filter_app, Hf2, !length_app, Hf3, Hmemo2, Hmemo1.
    by destruct (decide _).
Qed.

Lemma render_meshes_buffer_binds X Σ geometry transform pipeline meshes :
  (∀ mat p w, scene_live Σ w →
     scene_live Σ (ext_world X (XMaterialApply mat p) w) ∧
     m_last_bind_geometry_mesh (renderer (ext_world X (XMaterialApply mat p) w))
       = m_last_bind_geometry_mesh (renderer w)) →
  Forall (λ mesh, is_Some (scene_mesh_layout Σ mesh)) meshes →
  ∀ w,
    scene_live Σ w →
    ∃ w' tr,
      run_all (render_mesh X Σ geometry transform pipeline) meshes w
        = Some (tt, w', tr) ∧
      length (filter is_buffer_bind tr) =
        mesh_changes (m_last_bind_geometry_mesh (renderer w)) meshes.
Proof.
  intros HX Hall. induction Hall as [|mesh rest Hmesh _ IH]; intros w Hlive.
  - exists w, []. done.
  - destruct (render_mesh_buffer_binds X Σ geometry transform pipeline mesh w
                HX Hlive Hmesh)
      as (w1 & t1 & Hrun1 & Hlive1 & Hmemo1 & Hf1).
    destruct (IH w1 Hlive1) as (w' & tr & Hrun & Hf).
    rewrite run_all_cons, Hrun1, Hrun. exists w', (t1 ++ tr).
    split; [done|].
    cbn [mesh_changes]. by rewrite filter_app, length_app, Hf1, Hf, Hmemo1.
Qed.

Lemma mesh_changes_le last meshes :
  (mesh_changes last meshes ≤ length meshes)%nat.
Proof.
  revert last. induction meshes as [|mesh rest IH]; intros last; [done|].
  cbn [mesh_changes length]. specialize (IH (Some mesh)).
  destruct (decide (last = Some mesh)); lia.
Qed.

(** X11.  [renderModel] binds buffers once per change of mesh.  For a ready
    model whose meshes are live, when material code keeps the scene live and
    leaves the geometry memo alone, [renderModel] runs to its end and the
    number of [Geometry::bindBuffers] calls in its trace is the number of
    positions at which the mesh differs from the one before it (the first
    from the mesh the memo holds on entry); so consecutive sub-meshes that
    are the same mesh share one bind, and there are never more binds than
    sub-meshes. *)
Theorem renderModel_binds_once_per_mesh_change X Σ model transform pipeline w :
  model_ready model = true →
  (∀ mat p w, scene_live Σ w →
     scene_live Σ (ext_world X (XMaterialApply mat p) w) ∧
     m_last_bind_geometry_mesh (renderer (ext_world X (XMaterialApply mat p) w))
       = m_last_bind_geometry_mesh (renderer w)) →
  Forall (λ mesh, is_Some (scene_mesh_layout Σ mesh)) (model_meshes model) →
  scene_live Σ w →
  ∃ w' tr,
    renderModel X Σ model transform pipeline w = Some (tt, w', tr) ∧
    length (filter is_buffer_bind tr) =
      mesh_changes (m_last_bind_geometry_mesh (renderer w)) (model_meshes model) ∧
    (length (filter is_buffer_bind tr) ≤ length (model_meshes model))%nat.
Proof.
  intros Hready HX Hall Hlive.
  destruct (render_meshes_buffer_binds X Σ (model_geometry model) transform pipeline
              (model_meshes model) HX Hall w Hlive) as (w' & tr & Hrun & Hcount).
  exists w', tr. split_and!.
  - unfold renderModel. rewrite Hready. cbn [negb].
    by rewrite (renderModel_loop_run X Σ model transform pipeline (model_meshes model)).
  - exact Hcount.
  - rewrite Hcount. apply mesh_changes_le.
Qed.

Lemma renderModel_binds_once_per_mesh_change_witness :
  ∃ w' tr,
    renderModel Demo.extern Demo.scene demo_repeating_model Demo.identity 70 Demo.world0
      = Some (tt, w', tr) ∧
    length (filter is_buffer_bind tr) = 3%nat ∧
    (length (filter is_buffer_bind tr) ≤ 5)%nat.
Proof.
  apply (renderModel_binds_once_per_mesh_change Demo.extern Demo.scene
           demo_repeating_model Demo.identity 70 Demo.world0).
  - reflexivity.
  - intros mat p w Hlive. split; [by apply Demo_extern_scene_live|].
    cbn [ext_world Demo.extern].
    by destruct (Demo_world_effect_frame (XMaterialApply mat p) w) as (_ & _ & ->).
  - repeat constructor; vm_compute; eauto.
  - exact Demo_world0_live.
Defined.

(** ** The attribute-name registry across operations *)

Lemma keeps_store_shader n0 s sh : preserves (names_extend n0) (store_shader s sh).
Proof. intros w a w' tr HP [= _ <- _]. done. Qed.

Lemma keeps_gl_call n0 c : preserves (names_extend n0) (gl_call c).
Proof. intros w a w' tr HP [= _ <- _]. done. Qed.

Lemma keeps_call_driver n0 X c : preserves (names_extend n0) (call_driver X c).
Proof. intros w a w' tr HP [= _ <- _]. done. Qed.

Lemma keeps_write n0 f : names_frame f → preserves (names_extend n0) (write f).
Proof.
  intros Hf w a w' tr HP [= _ <- _]. unfold names_extend in *.
  cbn [renderer set_renderer]. by rewrite Hf.
Qed.

Lemma keeps_call_world n0 X c :
  extern_appends X → preserves (names_extend n0) (call_world X c).
Proof.
  intros HX w a w' tr HP [= _ <- _]. unfold names_extend in *.
  etrans; [exact HP|apply HX].
Qed.

Create HintDb keep.

Ltac keep :=
  repeat first
    [ solve [auto with keep]
    | apply preserves_ret
    | apply preserves_crash
    | apply preserves_read
    | apply preserves_deref
    | apply preserves_load_shader
    | apply keeps_store_shader
    | apply keeps_gl_call
    | apply keeps_call_driver
    | apply keeps_call_world; assumption
    | apply keeps_write; intros []; reflexivity
    | apply preserves_bind; [|intros ?]
    | progress cbv zeta
    | match goal with
      | |- preserves _ (if ?b then _ else _) => destruct b
      | |- preserves _ (match ?x with _ => _ end) => destruct x
      end ].

Lemma uniform_protocol_keeps n0 locate emit s :
  preserves (names_extend n0) (uniform_protocol locate emit s).
Proof. unfold uniform_protocol. keep. Qed.

Lemma setUniform_keeps n0 c : preserves (names_extend n0) (setUniform c).
Proof.
  destruct c as [s n h []]; cbn [setUniform uc_arg];
    unfold setUniform_int, setUniform_float, setUniform_Vec3, setUniform_Matrix,
      setUniform_Matrices; keep.
Qed.

Lemma setFixedCachedUniform_keeps n0 c :
  preserves (names_extend n0) (setFixedCachedUniform c).
Proof.
  destruct c as [s n []]; cbn [setFixedCachedUniform fc_arg];
    unfold setFixedCachedUniform_float, setFixedCachedUniform_Vec3,
      setFixedCachedUniform_Vec4, setFixedCachedUniform_Matrix,
      setFixedCachedUniform_Matrices; keep.
Qed.

Lemma setFixedCachedUniform_Matrix_keeps n0 s n m :
  preserves (names_extend n0) (setFixedCachedUniform_Matrix s n m).
Proof. unfold setFixedCachedUniform_Matrix. keep. Qed.

Lemma getAttributeNameIndex_keeps n0 name :
  preserves (names_extend n0) (getAttributeNameIndex name).
Proof.
  intros w i w' tr HP Hrun.
  destruct (getAttributeNameIndex_after _ _ _ _ _ Hrun) as (k & ext & _ & _ & -> & _).
  unfold names_extend in *. cbn. by apply prefix_app_r.
Qed.

#[local] Hint Resolve uniform_protocol_keeps setUniform_keeps
  setFixedCachedUniform_keeps setFixedCachedUniform_Matrix_keeps
  getAttributeNameIndex_keeps : keep.

Section Registry.
Variable X : Extern.
Variable L : MathLib.
Variable Σ : Scene.
Variable n0 : list string.
Hypothesis HX : extern_appends X.

Lemma cleanup_textures_keeps n i : preserves (names_extend n0) (cleanup_textures n i).
Proof. revert i. induction n as [|n IH]; intros i; cbn [cleanup_textures]; keep. Qed.

Lemma register_properties_keeps ds :
  preserves (names_extend n0) (register_properties X ds).
Proof.
  induction ds as [|[[c k] n] rest IH]; cbn [register_properties]; keep.
Qed.

Lemma reset_divisors_keeps sh n i : preserves (names_extend n0) (reset_divisors sh n i).
Proof. revert i. induction n as [|n IH]; intros i; cbn [reset_divisors]; keep. Qed.

Lemma live_device_keeps d : preserves (names_extend n0) (live_device Σ d).
Proof. unfold live_device. keep. Qed.

Lemma mesh_layout_keeps o : preserves (names_extend n0) (mesh_layout Σ o).
Proof. unfold mesh_layout. keep. Qed.

Lemma renderGeometry_keeps o c : preserves (names_extend n0) (renderGeometry o c).
Proof. unfold renderGeometry. keep. Qed.

Lemma render_device_keeps : preserves (names_extend n0) (render_device Σ).
Proof. unfold render_device, live_device. keep. Qed.

Hint Resolve cleanup_textures_keeps register_properties_keeps
  reset_divisors_keeps live_device_keeps mesh_layout_keeps renderGeometry_keeps
  render_device_keeps : keep.

Lemma cleanup_keeps : preserves (names_extend n0) (cleanup X Σ).
Proof.
  intros w [] w' tr HP Hrun.
  destruct (cleanup_result _ _ _ _ _ Hrun) as [g ->]. exact HP.
Qed.

Lemma bindGeometry_keeps geometry mesh :
  preserves (names_extend n0) (bindGeometry X Σ geometry mesh).
Proof. unfold bindGeometry. keep. Qed.

Hint Resolve cleanup_keeps bindGeometry_keeps : keep.

Lemma renderModel_mesh_keeps model transform pipeline i :
  preserves (names_extend n0) (renderModel_mesh X Σ model transform pipeline i).
Proof. unfold renderModel_mesh. keep. Qed.

Hint Resolve renderModel_mesh_keeps : keep.

Lemma renderModel_loop_keeps model transform pipeline n i :
  preserves (names_extend n0) (renderModel_loop X Σ model transform pipeline n i).
Proof. revert i. induction n as [|n IH]; intros i; cbn [renderModel_loop]; keep. Qed.

Lemma render_keeps device : preserves (names_extend n0) (render X Σ device).
Proof. unfold render. keep. Qed.

Lemma registerPropertyDescriptors_keeps :
  preserves (names_extend n0) (registerPropertyDescriptors X).
Proof. unfold registerPropertyDescriptors. keep. Qed.

Hint Resolve renderModel_loop_keeps render_keeps
  registerPropertyDescriptors_keeps : keep.

Lemma run_op_keeps op : preserves (names_extend n0) (run_op X L Σ op).
Proof.
  destruct op; cbn [run_op];
    unfold createScene, destroyScene, setViewMatrix, setProjectionMatrix,
      setViewport, setProjection, setRenderDevice, renderGame,
      getCurrentViewMatrix, getCurrentProjectionMatrix, getPass, setPass,
      getDebugShader, applyShader, create, destroy, enableAlphaToCoverage,
      enableZTest, makeScreenshot, renderModel, setEditorWireframe,
      isEditorWireframe, renderInstancedGeometry,
      renderGeometry, getUniformLocation, setUniform_at_Matrix,
      setUniform_at_Matrices, setUniform_at_Vec3, setUniform_at_float;
    keep.
Qed.

Lemma run_ops_keep ops :
  ∀ w w' tr,
    names_extend n0 w →
    run_all (run_op X L Σ) ops w = Some (tt, w', tr) →
    names_extend n0 w'.
Proof.
  induction ops as [|op rest IH]; intros w w' tr HP.
  - by intros [= <- _].
  - rewrite run_all_cons.
    destruct (run_op X L Σ op w) as [[[[] w1] t1]|] eqn:Hop; [|done].
    destruct (run_all (run_op X L Σ) rest w1) as [[[[] w2] t2]|] eqn:Hrest; [|done].
    intros [= <- _]. eapply IH; [|exact Hrest].
    exact (run_op_keeps op w tt w1 t1 HP Hop).
Qed.
End Registry.

(** X12.  An attribute index, once handed out, stays.  When code outside
    the file only appends to the registry, no operation of the file removes
    or moves a registered name: after [getAttributeNameIndex name] returned
    [i], and then any sequence of operations of the file ran to its end,
    the registry still starts with what it held, and
    [getAttributeNameIndex name] returns the same [i] again, with no change
    of state. *)
Theorem attribute_index_survives_operations X L Σ name ops w i w1 t1 w2 t2 :
  extern_appends X →
  getAttributeNameIndex name w = Some (i, w1, t1) →
  run_all (run_op X L Σ) ops w1 = Some (tt, w2, t2) →
  m_attribute_names (renderer w1) `prefix_of` m_attribute_names (renderer w2) ∧
  getAttributeNameIndex name w2 = Some (i, w2, []).
Proof.
  intros HX Hfirst Hops.
  assert (Hext : names_extend (m_attribute_names (renderer w1)) w2).
  { exact (run_ops_keep X L Σ _ HX ops w1 w2 t2 (reflexivity _) Hops). }
  split; [exact Hext|].
  destruct (getAttributeNameIndex_after _ _ _ _ _ Hfirst)
    as (k & ext & -> & _ & -> & Hk).
  destruct Hext as [more Hmore]. cbn in Hmore.
  rewrite getAttributeNameIndex_run, Hmore.
  by rewrite (first_index_app_l _ _ more _ Hk).
Qed.

Lemma Demo_extern_appends : extern_appends Demo.extern.
Proof.
  intros c w. cbn [ext_world Demo.extern].
  destruct c; try done. cbn [Demo.world_effect].
  destruct (sc_materials Demo.scene !! material ≫= mat_shader) as [shader|]; [|done].
  destruct (applyShader Demo.extern_passive shader 0 w) as [[[[] w'] tr]|] eqn:Hrun;
    [|done].
  assert (Hkeep : preserves (names_extend (m_attribute_names (renderer w)))
                    (applyShader Demo.extern_passive shader 0)).
  { unfold applyShader. keep. }
  exact (Hkeep w tt w' tr (reflexivity _) Hrun).
Qed.

Lemma attribute_index_survives_operations_witness :
  ∃ w2,
    ["in_position"] `prefix_of` m_attribute_names (renderer w2) ∧
    getAttributeNameIndex "in_position" w2 = Some (0, w2, []).
Proof.
  assert (Hops : ∃ w2 t2,
    run_all (run_op Demo.extern Demo.math Demo.scene) demo_operations
      (with_attribute_names ["in_position"] Demo.world0) = Some (tt, w2, t2)).
  { vm_compute. eauto. }
  destruct Hops as (w2 & t2 & Hops). exists w2.
  apply (attribute_index_survives_operations Demo.extern Demo.math Demo.scene
           "in_position" demo_operations Demo.world0 0
           (with_attribute_names ["in_position"] Demo.world0) [] w2 t2).
  - exact Demo_extern_appends.
  - reflexivity.
  - exact Hops.
Defined.

(** ** The program cache across operations *)

Lemma gl_exec_keeps_program c g :
  (∀ p, c ≠ GlUseProgram p) →
  gl_current_program (gl_exec c g) = gl_current_program g.
Proof.
  intros Hc. destruct c; cbn [gl_exec]; try apply gl_write_uniform_program;
    try reflexivity.
  - destruct (_ =? _); [done|]. by destruct (_ =? _).
  - by destruct (Hc program).
  - by destruct (_ =? _).
  - by destruct (_ =? _).
Qed.

Lemma consistent_store_shader s sh :
  preserves program_cache_consistent (store_shader s sh).
Proof. intros w a w' tr HP [= _ <- _]. done. Qed.

Lemma consistent_gl_call c :
  (∀ p, c ≠ GlUseProgram p) → preserves program_cache_consistent (gl_call c).
Proof.
  intros Hc w a w' tr HP [= _ <- _]. unfold program_cache_consistent in *.
  cbn [gl set_gl renderer]. by rewrite gl_exec_keeps_program.
Qed.

Lemma consistent_call_driver X c :
  extern_keeps_program X → preserves program_cache_consistent (call_driver X c).
Proof.
  intros [HX _] w a w' tr HP [= _ <- _]. unfold program_cache_consistent in *.
  cbn [gl set_gl renderer]. by rewrite HX.
Qed.

Lemma consistent_write f :
  program_frame f → preserves program_cache_consistent (write f).
Proof.
  intros Hf w a w' tr HP [= _ <- _]. unfold program_cache_consistent in *.
  cbn [gl renderer set_renderer]. by rewrite Hf.
Qed.

Lemma consistent_call_world X c :
  extern_keeps_program X → preserves program_cache_consistent (call_world X c).
Proof. intros [_ HX] w a w' tr HP [= _ <- _]. by apply HX. Qed.

Create HintDb consistent.

Ltac consistent :=
  repeat first
    [ solve [auto with consistent]
    | apply preserves_ret
    | apply preserves_crash
    | apply preserves_read
    | apply preserves_deref
    | apply preserves_load_shader
    | apply consistent_store_shader
    | apply consistent_gl_call; intros ? H; discriminate H
    | apply consistent_call_driver; assumption
    | apply consistent_call_world; assumption
    | apply consistent_write; intros []; reflexivity
    | apply preserves_bind; [|intros ?]
    | progress cbv zeta
    | match goal with
      | |- preserves _ (if ?b then _ else _) => destruct b
      | |- preserves _ (match ?x with _ => _ end) => destruct x
      end ].

Lemma setUniform_consistent c : preserves program_cache_consistent (setUniform c).
Proof.
  destruct c as [s n h a].
  destruct a;
    first [ rewrite setUniform_protocol by exact I; apply uniform_protocol_consistent
          | apply preserves_crash ].
Qed.

Lemma setFixedCachedUniform_consistent c :
  preserves program_cache_consistent (setFixedCachedUniform c).
Proof.
  destruct c as [s n a].
  destruct a;
    first [ rewrite setFixedCachedUniform_protocol by exact I;
            apply uniform_protocol_consistent
          | apply preserves_crash ].
Qed.

Lemma applyShader_keeps_consistent X s combination :
  preserves program_cache_consistent (applyShader X s combination).
Proof. intros w [] w' tr _ Hrun. exact (applyShader_consistent _ _ _ _ _ _ Hrun). Qed.

#[local] Hint Resolve setUniform_consistent setFixedCachedUniform_consistent
  setFixedCachedUniform_Matrix_consistent applyShader_keeps_consistent : consistent.

Section ProgramCache.
Variable X : Extern.
Variable L : MathLib.
Variable Σ : Scene.
Hypothesis HX : extern_keeps_program X.

Lemma register_properties_consistent ds :
  preserves program_cache_consistent (register_properties X ds).
Proof.
  induction ds as [|[[c k] n] rest IH]; cbn [register_properties]; consistent.
Qed.

Lemma reset_divisors_consistent sh n i :
  preserves program_cache_consistent (reset_divisors sh n i).
Proof. revert i. induction n as [|n IH]; intros i; cbn [reset_divisors]; consistent. Qed.

Lemma getAttributeNameIndex_search_consistent name n i :
  preserves program_cache_consistent (getAttributeNameIndex_search name n i).
Proof.
  revert i. induction n as [|n IH]; intros i;
    cbn [getAttributeNameIndex_search]; consistent.
Qed.

Lemma mesh_layout_consistent o : preserves program_cache_consistent (mesh_layout Σ o).
Proof. unfold mesh_layout. consistent. Qed.

Lemma renderGeometry_consistent o c :
  preserves program_cache_consistent (renderGeometry o c).
Proof. unfold renderGeometry. consistent. Qed.

Hint Resolve register_properties_consistent reset_divisors_consistent
  getAttributeNameIndex_search_consistent mesh_layout_consistent
  renderGeometry_consistent : consistent.

Lemma bindGeometry_consistent geometry mesh :
  preserves program_cache_consistent (bindGeometry X Σ geometry mesh).
Proof. unfold bindGeometry. consistent. Qed.

Hint Resolve bindGeometry_consistent : consistent.

Lemma renderModel_mesh_consistent model transform pipeline i :
  preserves program_cache_consistent (renderModel_mesh X Σ model transform pipeline i).
Proof. unfold renderModel_mesh. consistent. Qed.

Hint Resolve renderModel_mesh_consistent : consistent.

Lemma renderModel_loop_consistent model transform pipeline n i :
  preserves program_cache_consistent
    (renderModel_loop X Σ model transform pipeline n i).
Proof.
  revert i. induction n as [|n IH]; intros i; cbn [renderModel_loop]; consistent.
Qed.

Lemma registerPropertyDescriptors_consistent :
  preserves program_cache_consistent (registerPropertyDescriptors X).
Proof. unfold registerPropertyDescriptors. consistent. Qed.

Hint Resolve renderModel_loop_consistent registerPropertyDescriptors_consistent
  : consistent.

Lemma run_op_consistent op :
  runs_cleanup op = false →
  preserves program_cache_consistent (run_op X L Σ op).
Proof.
  destruct op; intros Hop; try discriminate Hop; cbn [run_op];
    unfold createScene, destroyScene, setViewMatrix, setProjectionMatrix,
      setViewport, setProjection, setRenderDevice,
      getCurrentViewMatrix, getCurrentProjectionMatrix, getPass, setPass,
      getDebugShader, create, destroy, enableAlphaToCoverage,
      enableZTest, makeScreenshot, renderModel, setEditorWireframe,
      isEditorWireframe, getAttributeNameIndex, renderInstancedGeometry,
      renderGeometry, getUniformLocation, setUniform_at_Matrix,
      setUniform_at_Matrices, setUniform_at_Vec3, setUniform_at_float;
    consistent.
Qed.

Lemma run_ops_consistent ops :
  Forall (λ op, runs_cleanup op = false) ops →
  ∀ w w' tr,
    program_cache_consistent w →
    run_all (run_op X L Σ) ops w = Some (tt, w', tr) →
    program_cache_consistent w'.
Proof.
  intros Hall. induction Hall as [|op rest Hop _ IH]; intros w w' tr HP.
  - by intros [= <- _].
  - rewrite run_all_cons.
    destruct (run_op X L Σ op w) as [[[[] w1] t1]|] eqn:Hrun; [|done].
    destruct (run_all (run_op X L Σ) rest w1) as [[[[] w2] t2]|] eqn:Hrest; [|done].
    intros [= <- _]. eapply IH; [|exact Hrest].
    exact (run_op_consistent op Hop w tt w1 t1 HP Hrun).
Qed.
End ProgramCache.

(** X13.  Between two cleanups the program cache stays right.  When code
    outside the file keeps the cache and the driver in step, every operation
    of the file except [cleanup], [render] and [renderGame] keeps
    [m_last_program_id] equal to the driver's current program, once they
    are equal (as they are after any [applyShader]); and then a
    [setUniform] on a live shader with a non-zero program and a location
    that resolves runs to its end with its value stored in the uniform of
    the shader's program. *)
Theorem uniform_writes_land_between_cleanups X L Σ ops c w w1 t1 sh :
  extern_keeps_program X →
  Forall (λ op, runs_cleanup op = false) ops →
  program_cache_consistent w →
  run_all (run_op X L Σ) ops w = Some (tt, w1, t1) →
  uniform_call_ok c →
  shaders w1 !! uc_shader c = Some sh →
  0 ≤ Shader_getUniformLocation sh (uc_name c) (uc_name_hash c) →
  Shader_getProgramId sh ≠ 0 →
  program_cache_consistent w1 ∧
  ∃ w2 t2,
    setUniform c w1 = Some (tt, w2, t2) ∧
    gl_uniforms (gl w2)
      !! (Shader_getProgramId sh,
          Shader_getUniformLocation sh (uc_name c) (uc_name_hash c))
      = Some (uniform_data (uc_arg c)) ∧
    program_cache_consistent w2.
Proof.
  intros HX Hops Hw Hrun Hok Hs Hloc Hpid.
  assert (Hw1 : program_cache_consistent w1).
  { exact (run_ops_consistent X L Σ HX ops Hops w w1 t1 Hw Hrun). }
  split; [exact Hw1|].
  destruct (setUniform_obeys c w1 sh Hok Hs) as (_ & Hbind & Hsame).
  destruct (decide (m_last_program_id (renderer w1) = Shader_getProgramId sh))
    as [He|Hne].
  - specialize (Hsame Hloc He). eexists _, _. split; [exact Hsame|].
    unfold program_cache_consistent in *. cbn [gl set_gl renderer].
    rewrite gl_exec_uniform_write, gl_write_uniform_program. split; [|done].
    rewrite <- He, <- Hw1. apply gl_write_uniform_lookup. congruence.
  - destruct (Hbind Hloc Hne) as (w2 & Hrun2 & _ & _ & _ & _ & Hc2 & Hstored).
    exists w2. eexists. split; [exact Hrun2|]. split; [by apply Hstored|exact Hc2].
Qed.

Lemma Demo_extern_keeps_program : extern_keeps_program Demo.extern.
Proof.
  split.
  - intros c shs g. cbn [ext_driver Demo.extern].
    destruct c; try reflexivity; cbn [Demo.driver].
    + by destruct (shs !! shader).
    + by destruct (shs !! shader).
  - intros c w Hw. cbn [ext_world Demo.extern].
    destruct c; try done. cbn [Demo.world_effect].
    destruct (sc_materials Demo.scene !! material ≫= mat_shader) as [shader|]; [|done].
    destruct (applyShader Demo.extern_passive shader 0 w) as [[[[] w'] tr]|] eqn:Hrun;
      [|done].
    exact (applyShader_consistent _ _ _ _ _ _ Hrun).
Qed.

Lemma uniform_writes_land_between_cleanups_witness :
  ∃ w1,
    program_cache_consistent w1 ∧
    ∃ w2 t2,
      setUniform (mkUniformCall 10 "u_color" 0 (ArgInt 4)) w1 = Some (tt, w2, t2) ∧
      gl_uniforms (gl w2) !! (7, 3) = Some (U1i 4) ∧
      program_cache_consistent w2.
Proof.
  assert (Hops : ∃ w1 t1,
    run_all (run_op Demo.extern Demo.math Demo.scene) demo_frame_operations
      demo_world_applied = Some (tt, w1, t1) ∧
    shaders w1 !! 10 = Some Demo.shader_a).
  { vm_compute. eauto. }
  destruct Hops as (w1 & t1 & Hops & Hs). exists w1.
  apply (uniform_writes_land_between_cleanups Demo.extern Demo.math Demo.scene
           demo_frame_operations (mkUniformCall 10 "u_color" 0 (ArgInt 4))
           demo_world_applied w1 t1 Demo.shader_a).
  - exact Demo_extern_keeps_program.
  - repeat constructor.
  - vm_compute. reflexivity.
  - exact Hops.
  - exact I.
  - exact Hs.
  - vm_compute. discriminate.
  - vm_compute. discriminate.
Defined.

(** ** The debug shader, from [create] to [destroy] *)




